(** * Preference-learning models of [python/models.py]

    A shallow embedding of [BaseModel] and [TwoClustersMIP] and the
    properties of the MILP that [TwoClustersMIP.fit] hands to the solver.

    Conventions of the embedding.
    - Python exceptions are the [Raise] branch of the [result] monad; a
      statement that can raise is bound with [x ← e; k].
    - numpy's float64 values are idealised as exact rationals [Q]; a value
      that numpy would compute as [nan] or [±inf] (a division by zero) is
      [None] in [option Q].  Inputs are finite.  Rounding is not
      modelled: [li] takes the exact floor and [xl] the exact breakpoint,
      and the literal [0.001] is [1/1000], which the double exceeds by
      about 2e-20.  For a value one ulp below the maximum of its feature
      the rounded segment index can reach [L] where the exact one is
      [L - 1], and [u_i] then ends in [IndexError]: that [fit] returns
      on every input of adequate shape ([fit_adequate]) is a fact of the
      exact index, and the constraints of the model are described for a
      [fit] that returned.
    - Gurobi variables are the constructors of [var]; a Gurobi expression
      ([Var], [LinExpr], [QuadExpr]) is the tree [expr] of the Python
      operators that built it, with [eval] as its meaning.
    - [self.model.optimize()] is the external solver: it leaves every
      attribute of the Python object untouched and is not modelled.
    - [n_pieces] and [n_clusters] are counts and are taken in [nat]; the
      loop indices of [range] are in [nat], the segment index computed
      by [int(...)] is in [Z] and indexes lists the Python way. *)

From Stdlib Require Import QArith Qround ZArith Lia Lqa.
From stdpp Require Import base option list gmap.

Set Default Proof Using "Type".

(** ** Exceptions *)

Inductive exn : Set :=
| IndexError      (* list or ndarray index out of range *)
| KeyError        (* missing dict key *)
| ValueError      (* numpy shape errors; int(nan) *)
| OverflowError   (* int(inf) *)
| GurobiError.    (* non-finite coefficient handed to Gurobi *)

Inductive result (A : Type) : Type :=
| Ok (a : A)
| Raise (e : exn).
Arguments Ok {A} a.
Arguments Raise {A} e.

#[export] Instance result_ret : MRet result := fun A a => Ok a.
#[export] Instance result_bind : MBind result := fun A B f r =>
  match r with Ok a => f a | Raise e => Raise e end.
#[export] Instance result_fmap : FMap result := fun A B f r =>
  match r with Ok a => Ok (f a) | Raise e => Raise e end.

(** [for x in xs: body], the loop state passed along explicitly. *)
Fixpoint for_ {St B : Type} (xs : list B) (body : B -> St -> result St)
    (s : St) : result St :=
  match xs with
  | [] => Ok s
  | x :: xs' => s' ← body x s; for_ xs' body s'
  end.

(** [[f(x) for x in xs]] with a body that can raise. *)
Fixpoint comprehension {A B : Type} (f : A -> result B) (xs : list A)
    : result (list B) :=
  match xs with
  | [] => Ok []
  | x :: xs' => y ← f x; ys ← comprehension f xs'; Ok (y :: ys)
  end.

Definition range (stop : nat) : list nat := seq 0 stop.

(** [xs[z]] on a Python list: a negative index counts from the end. *)
Definition py_getitem {A : Type} (xs : list A) (z : Z) : result A :=
  let len := Z.of_nat (length xs) in
  let z' := if (z <? 0)%Z then (z + len)%Z else z in
  if (z' <? 0)%Z then Raise IndexError
  else match xs !! Z.to_nat z' with
       | Some a => Ok a
       | None => Raise IndexError
       end.

Definition py_getitem_nat {A : Type} (xs : list A) (i : nat) : result A :=
  py_getitem xs (Z.of_nat i).

(** ** numpy *)

(** A two-dimensional array: its shape and its entries. *)
Record ndarray (A : Type) : Type := mk_ndarray {
  shape0 : nat;
  shape1 : nat;
  item : nat -> nat -> A
}.
Arguments mk_ndarray {A}.
Arguments shape0 {A}.
Arguments shape1 {A}.
Arguments item {A}.

(** [X[j, i]] for non-negative [j], [i]. *)
Definition np_getitem {A : Type} (X : ndarray A) (j i : nat) : result A :=
  if (j <? shape0 X) && (i <? shape1 X) then Ok (item X j i)
  else Raise IndexError.

(** [np.concatenate((X, Y), axis=0)] *)
Definition np_concatenate {A : Type} (X Y : ndarray A) : result (ndarray A) :=
  if shape1 X =? shape1 Y then
    Ok (mk_ndarray (shape0 X + shape0 Y) (shape1 X)
          (fun j i => if j <? shape0 X then item X j i
                      else item Y (j - shape0 X) i))
  else Raise ValueError.

Definition qmin (a b : Q) : Q := if Qle_bool a b then a else b.
Definition qmax (a b : Q) : Q := if Qle_bool a b then b else a.

Definition column (A : ndarray Q) (i : nat) : list Q :=
  map (fun j => item A j i) (range (shape0 A)).

(** [A.min(axis=0)] and [A.max(axis=0)]: a reduction over an empty axis
    has no identity and raises. *)
Definition np_reduce0 (op : Q -> Q -> Q) (A : ndarray Q) : result (list Q) :=
  if shape0 A =? 0 then Raise ValueError
  else Ok (map (fun i => foldr op (item A 0 i) (column A i))
             (range (shape1 A))).

Definition np_min0 : ndarray Q -> result (list Q) := np_reduce0 qmin.
Definition np_max0 : ndarray Q -> result (list Q) := np_reduce0 qmax.

(** The array [np.concatenate((X, Y), axis=0)] when the widths agree. *)
Definition stacked (X Y : ndarray Q) : ndarray Q :=
  mk_ndarray (shape0 X + shape0 Y) (shape1 X)
    (fun j i => if j <? shape0 X then item X j i
                else item Y (j - shape0 X) i).

(** What [fit] holds in [mins] and [maxs] once the pooling succeeded. *)
Definition pooled (op : Q -> Q -> Q) (X Y : ndarray Q) : list Q :=
  map (fun i => foldr op (item (stacked X Y) 0 i) (column (stacked X Y) i))
    (range (shape1 X)).

(** Membership of a value in the pooled column [i]: it sits in a row of
    [X] or in a row of [Y]. *)
Inductive observed (X Y : ndarray Q) (i : nat) (x : Q) : Prop :=
| observed_X (j : nat) : j < shape0 X -> x = item X j i -> observed X Y i x
| observed_Y (j : nat) : j < shape0 Y -> x = item Y j i -> observed X Y i x.

(** [np.zeros((rows, cols))] *)
Definition np_zeros (rows cols : nat) : ndarray Q :=
  mk_ndarray rows cols (fun _ _ => 0%Q).

(** Float division: [None] stands for the [nan] or [±inf] numpy returns
    (with a warning, not an exception) when the divisor is zero. *)
Definition np_div (a b : Q) : option Q :=
  if Qeq_bool b 0 then None else Some (a / b)%Q.

(** [int(np.floor(v))]: [int] raises on [nan] and on [±inf].  The value
    is [num / den]; it is [nan] when both are zero and infinite when only
    [den] is. *)
Definition int_floor_div (num den : Q) : result Z :=
  match np_div num den with
  | Some q => Ok (Qfloor q)
  | None => if Qeq_bool num 0 then Raise ValueError else Raise OverflowError
  end.

(** Broadcasting of one dimension. *)
Definition broadcast_dim (a b : nat) : result nat :=
  if a =? b then Ok a
  else if a =? 1 then Ok b
  else if b =? 1 then Ok a
  else Raise ValueError.

Definition bidx (dim j : nat) : nat := if dim =? 1 then 0 else j.

(** [A - B] on two-dimensional arrays, with broadcasting. *)
Definition np_sub (A B : ndarray Q) : result (ndarray Q) :=
  r ← broadcast_dim (shape0 A) (shape0 B);
  c ← broadcast_dim (shape1 A) (shape1 B);
  Ok (mk_ndarray r c
        (fun j i => (item A (bidx (shape0 A) j) (bidx (shape1 A) i)
                     - item B (bidx (shape0 B) j) (bidx (shape1 B) i))%Q)).

(** [(A > 0).astype(int)] *)
Definition np_gt0_int (A : ndarray Q) : ndarray Z :=
  mk_ndarray (shape0 A) (shape1 A)
    (fun j i => if Qlt_le_dec 0 (item A j i) then 1%Z else 0%Z).

(** [np.argmax] of one row: the first position holding the maximum. *)
Fixpoint argmax_from (best : Q) (besti i : nat) (xs : list Q) : nat :=
  match xs with
  | [] => besti
  | x :: xs' =>
      if Qlt_le_dec best x then argmax_from x i (S i) xs'
      else argmax_from best besti (S i) xs'
  end.

Definition argmax_row (xs : list Q) : result nat :=
  match xs with
  | [] => Raise ValueError
  | x :: xs' => Ok (argmax_from x 0 1 xs')
  end.

Definition row (A : ndarray Q) (j : nat) : list Q :=
  map (fun i => item A j i) (range (shape1 A)).

(** [np.argmax(A, axis=1)] *)
Definition np_argmax1 (A : ndarray Q) : result (list nat) :=
  if shape1 A =? 0 then Raise ValueError
  else comprehension (fun j => argmax_row (row A j)) (range (shape0 A)).

(** ** Gurobi *)

(** The decision variables of the model, one constructor per [addVar]
    call of [instantiate]: [Vu k i l] is [criteria[k][i][l]] (named
    [u_k_i_l]), [Vbinary j k] is [binary[j][k]], and the four slack
    families are indexed by the pair. *)
Inductive var : Set :=
| Vu (k i l : nat)
| Vsigma_plus_x (j : nat)
| Vsigma_plus_y (j : nat)
| Vsigma_moins_x (j : nat)
| Vsigma_moins_y (j : nat)
| Vbinary (j k : nat).

#[export] Instance var_eq_dec : EqDecision var.
Proof. solve_decision. Defined.

Inductive vtype : Set := CONTINUOUS | BINARY.

(** What [addVar] was called with; Gurobi's default lower bound is 0 and
    its default upper bound is infinite ([None]). *)
Record vardecl : Type := mk_vardecl {
  v_var : var;
  v_type : vtype;
  v_lb : Q;
  v_ub : option Q
}.

(** Expressions as the Python operators build them. *)
Inductive expr : Type :=
| Const (c : Q)
| V (v : var)
| Add (a b : expr)
| Sub (a b : expr)
| Mul (a b : expr).

Definition assignment : Type := var -> Q.

Fixpoint eval (a : assignment) (e : expr) : Q :=
  match e with
  | Const c => c
  | V v => a v
  | Add e1 e2 => eval a e1 + eval a e2
  | Sub e1 e2 => eval a e1 - eval a e2
  | Mul e1 e2 => eval a e1 * eval a e2
  end%Q.

(** [quicksum(es)]: the sum of the list, starting from an empty expression. *)
Definition quicksum (es : list expr) : expr := fold_left Add es (Const 0).

Inductive sense : Set := GE | LE | EQ.

(** A constraint [lhs >= rhs], [lhs <= rhs] or [lhs == rhs]. *)
Record constr : Type := mk_constr {
  lhs : expr;
  csense : sense;
  rhs : expr
}.

Definition holds (a : assignment) (c : constr) : Prop :=
  match csense c with
  | GE => (eval a (rhs c) <= eval a (lhs c))%Q
  | LE => (eval a (lhs c) <= eval a (rhs c))%Q
  | EQ => (eval a (lhs c) == eval a (rhs c))%Q
  end.


(** The Gurobi [Model] object: variables and constraints in the order they
    were added, and the objective to minimise. *)
Record Model : Type := mk_Model {
  m_vars : list vardecl;
  m_constrs : list constr;
  m_objective : option expr
}.

(** The assignment [a] satisfies every constraint of the model. *)
Definition satisfies (a : assignment) (mdl : Model) : Prop :=
  forall c, In c (m_constrs mdl) -> holds a c.

(** The value [a] gives a variable respects the type and the bounds the
    variable was declared with. *)
Definition within_bounds (a : assignment) (d : vardecl) : Prop :=
  (v_lb d <= a (v_var d))%Q /\
  match v_ub d with
  | Some ub => (a (v_var d) <= ub)%Q
  | None => True
  end /\
  match v_type d with
  | BINARY => (a (v_var d) == 0)%Q \/ (a (v_var d) == 1)%Q
  | CONTINUOUS => True
  end.

Definition addConstr (c : constr) (mdl : Model) : Model :=
  mk_Model (m_vars mdl) (m_constrs mdl ++ [c]) (m_objective mdl).

Definition setObjective (e : expr) (mdl : Model) : Model :=
  mk_Model (m_vars mdl) (m_constrs mdl) (Some e).

(** ** BaseModel *)

(** The abstract class: a model is anything with a [predict_utility]. *)
Class BaseModel (T : Type) : Type := {
  predict_utility : T -> ndarray Q -> result (ndarray Q)
}.

Section BaseModel.
Context {T : Type} `{BaseModel T}.

Definition predict_preference (self : T) (X Y : ndarray Q)
    : result (ndarray Z) :=
  X_u ← predict_utility self X;
  Y_u ← predict_utility self Y;
  d ← np_sub X_u Y_u;
  Ok (np_gt0_int d).

Definition predict_cluster (self : T) (X Y : ndarray Q)
    : result (list nat) :=
  X_u ← predict_utility self X;
  Y_u ← predict_utility self Y;
  d ← np_sub X_u Y_u;
  np_argmax1 d.
End BaseModel.

(** ** TwoClustersMIP *)

Module TwoClustersMIP.

(** The attributes of the object.  [self.model] is the same object as
    [self.m]; [seed], [bigM] and [criterion_utilite] are never read. *)
Record t : Type := mk {
  L : nat;
  K : nat;
  n : nat;
  epsilon : Q;
  P : nat;
  M : Q;
  sum_utilite : gmap (nat * nat * nat) expr;
  m : Model;
  criteria : list (list (list var));
  sigma_plus_x : list var;
  sigma_plus_y : list var;
  sigma_moins_x : list var;
  sigma_moins_y : list var;
  binary : list (list var)
}.

Definition set_sum_utilite (key : nat * nat * nat) (e : expr) (self : t) : t :=
  mk (L self) (K self) (n self) (epsilon self) (P self) (M self)
     (<[key := e]> (sum_utilite self)) (m self) (criteria self)
     (sigma_plus_x self) (sigma_plus_y self) (sigma_moins_x self)
     (sigma_moins_y self) (binary self).

Definition set_m (mdl : Model) (self : t) : t :=
  mk (L self) (K self) (n self) (epsilon self) (P self) (M self)
     (sum_utilite self) mdl (criteria self)
     (sigma_plus_x self) (sigma_plus_y self) (sigma_moins_x self)
     (sigma_moins_y self) (binary self).

(** The attributes that [fit] never assigns: everything but
    [sum_utilite] and the contents of the Gurobi model. *)
Definition statics (self : t) : t :=
  mk (L self) (K self) (n self) (epsilon self) (P self) (M self)
     ∅ (mk_Model [] [] None) (criteria self)
     (sigma_plus_x self) (sigma_plus_y self) (sigma_moins_x self)
     (sigma_moins_y self) (binary self).

(** [self.m.addConstr(c)] *)
Definition m_addConstr (c : constr) (self : t) : t :=
  set_m (addConstr c (m self)) self.

Definition continuous01 (v : var) : vardecl :=
  mk_vardecl v CONTINUOUS 0 (Some 1%Q).
Definition continuous (v : var) : vardecl :=
  mk_vardecl v CONTINUOUS 0 None.
Definition binary_var (v : var) : vardecl :=
  mk_vardecl v BINARY 0 (Some 1%Q).

(** [instantiate], with the four sizes it reads from [self] as arguments. *)
Definition instantiate (L_ K_ n_ P_ : nat) (eps M_ : Q) : t :=
  let criteria_ :=
    map (fun k => map (fun i => map (fun l => Vu k i l) (range (L_ + 1)))
                    (range n_)) (range K_) in
  let sigma_plus_x_ := map Vsigma_plus_x (range P_) in
  let sigma_plus_y_ := map Vsigma_plus_y (range P_) in
  let sigma_moins_x_ := map Vsigma_moins_x (range P_) in
  let sigma_moins_y_ := map Vsigma_moins_y (range P_) in
  let binary_ := map (fun j => map (fun k => Vbinary j k) (range K_))
                   (range P_) in
  let vars :=
    map continuous01 (concat (concat criteria_))
    ++ map continuous sigma_plus_x_ ++ map continuous sigma_plus_y_
    ++ map continuous sigma_moins_x_ ++ map continuous sigma_moins_y_
    ++ map binary_var (concat binary_) in
  mk L_ K_ n_ eps P_ M_ ∅ (mk_Model vars [] None)
     criteria_ sigma_plus_x_ sigma_plus_y_ sigma_moins_x_ sigma_moins_y_
     binary_.

(** [TwoClustersMIP(n_pieces, n_clusters)] *)
Definition init (n_pieces n_clusters : nat) : t :=
  instantiate n_pieces n_clusters 4 2000 (1 # 1000) 5.

(** [self.criteria[k][i][l]] *)
Definition criteria_at (self : t) (k i : nat) (l : Z) : result expr :=
  ck ← py_getitem_nat (criteria self) k;
  cki ← py_getitem_nat ck i;
  v ← py_getitem cki l;
  Ok (V v).

Definition var_at (vs : list var) (j : nat) : result expr :=
  v ← py_getitem_nat vs j; Ok (V v).

(** [self.binary[j][k]] *)
Definition binary_at (self : t) (j k : nat) : result expr :=
  bj ← py_getitem_nat (binary self) j;
  v ← py_getitem_nat bj k;
  Ok (V v).

(** [self.sum_utilite[key]] *)
Definition sum_utilite_at (self : t) (key : nat * nat * nat) : result expr :=
  match sum_utilite self !! key with
  | Some e => Ok e
  | None => Raise KeyError
  end.

(** *** The closures of [fit] *)

Section Closures.
Variable self : t.
Variables mins maxs : list Q.

(** [int(li(i, x))], with
    [li(i, x) = np.floor(self.L * (x - mins[i]) / (maxs[i] - mins[i]))]. *)
Definition li (i : nat) (x : Q) : result Z :=
  mn ← py_getitem_nat mins i;
  mx ← py_getitem_nat maxs i;
  int_floor_div (inject_Z (Z.of_nat (L self)) * (x - mn)) (mx - mn).

(** [xl(i, l) = mins[i] + l * (maxs[i] - mins[i]) / self.L]; dividing by
    [self.L = 0] gives a non-finite float, not an exception. *)
Definition xl (i : nat) (l : Z) : result (option Q) :=
  mn ← py_getitem_nat mins i;
  mx ← py_getitem_nat maxs i;
  Ok (q ← np_div (inject_Z l * (mx - mn)) (inject_Z (Z.of_nat (L self)));
      Some (mn + q)%Q).

(** The slope coefficient [(X[j, i] - x_l) / (x_l1 - x_l)]. *)
Definition slope (x : Q) (x_l x_l1 : option Q) : option Q :=
  a ← x_l; b ← x_l1; np_div (x - a) (b - a).

(** [u_i(j, i, X, k)].  The operands of the [return] are evaluated left
    to right: [criteria[k][i][l]], the slope, [criteria[k][i][l+1]].
    The slope is a float and raises nothing; the model lets a non-finite
    slope surface as [GurobiError] once the operands are there
    ([u_i_never_GurobiError]: it never does). *)
Definition u_i (j i : nat) (X : ndarray Q) (k : nat) : result expr :=
  x ← np_getitem X j i;
  mx ← py_getitem_nat maxs i;
  if Qeq_bool x mx then criteria_at self k i (-1)
  else
    l ← li i x;
    x_l ← xl i l;
    x_l1 ← xl i (l + 1);
    c_l ← criteria_at self k i l;
    c_l1 ← criteria_at self k i (l + 1);
    match slope x x_l x_l1 with
    | Some t_ => Ok (Mul (Add c_l (Const t_)) (Sub c_l1 c_l))
    | None => Raise GurobiError
    end.

(** [quicksum([u_i(j, i, X, k) for i in range(self.n)])] *)
Definition sum_u_i (j : nat) (X : ndarray Q) (k : nat) : result expr :=
  es ← comprehension (fun i => u_i j i X k) (range (n self));
  Ok (quicksum es).
End Closures.

(** *** Segments and breakpoints *)

(** The segment index [floor(L * (x - min_i) / (max_i - min_i))]. *)
Definition segment (L_ : nat) (mn mx x : Q) : Z :=
  Qfloor (inject_Z (Z.of_nat L_) * (x - mn) / (mx - mn)).

(** The coordinate of breakpoint [l] of a feature ranging over [mn, mx]. *)
Definition breakpoint (L_ : nat) (mn mx : Q) (l : Z) : Q :=
  (mn + inject_Z l * (mx - mn) / inject_Z (Z.of_nat L_))%Q.

(** The position of [x] inside segment [l], between 0 and 1. *)
Definition position (L_ : nat) (mn mx x : Q) (l : Z) : Q :=
  ((x - breakpoint L_ mn mx l)
   / (breakpoint L_ mn mx (l + 1) - breakpoint L_ mn mx l))%Q.

(** The expression the [return] of [u_i] builds for a value of segment
    [l]: the sum [u_l + t] multiplied by the difference [u_l1 - u_l]. *)
Definition returned_expr (k i : nat) (l : Z) (t_ : Q) : expr :=
  Mul (Add (V (Vu k i (Z.to_nat l))) (Const t_))
      (Sub (V (Vu k i (Z.to_nat (l + 1)))) (V (Vu k i (Z.to_nat l)))).

(** The linear interpolation of the specification,
    [u_l + t * (u_l1 - u_l)]. *)
Definition spec_interpolation (k i : nat) (l : Z) (t_ : Q) : expr :=
  Add (V (Vu k i (Z.to_nat l)))
      (Mul (Const t_)
           (Sub (V (Vu k i (Z.to_nat (l + 1)))) (V (Vu k i (Z.to_nat l))))).

(** *** [fit] *)

(** The left-hand side shared by the two big-M constraints of pair [j]
    and cluster [k], in the order Python evaluates it. *)
Definition bigM_lhs (self : t) (j k : nat) : result expr :=
  ux ← sum_utilite_at self (0, k, j);
  spx ← var_at (sigma_plus_x self) j;
  smx ← var_at (sigma_moins_x self) j;
  uy ← sum_utilite_at self (1, k, j);
  spy ← var_at (sigma_plus_y self) j;
  smy ← var_at (sigma_moins_y self) j;
  Ok (Sub (Add (Sub (Add (Sub ux spx) smx) uy) spy) smy).

(** [-self.M * (1 - self.binary[j][k])] *)
Definition bigM_ge_rhs (self : t) (b : expr) : expr :=
  Mul (Const (- M self)) (Sub (Const 1) b).

(** [self.M * self.binary[j][k] - self.epsilon] *)
Definition bigM_le_rhs (self : t) (b : expr) : expr :=
  Sub (Mul (Const (M self)) b) (Const (epsilon self)).

(** The loops of [fit], one definition per [for] nest. *)

Definition fit_utilities (mins maxs : list Q) (X Y : ndarray Q) (self : t)
    : result t :=
  for_ (range (K self)) (fun k self =>
    for_ (range (P self)) (fun j self =>
      sx ← sum_u_i self mins maxs j X k;
      let self := set_sum_utilite (0, k, j) sx self in
      sy ← sum_u_i self mins maxs j Y k;
      Ok (set_sum_utilite (1, k, j) sy self)) self) self.

Definition fit_bigM (self : t) : result t :=
  for_ (range (P self)) (fun j self =>
    for_ (range (K self)) (fun k self =>
      e1 ← bigM_lhs self j k;
      b1 ← binary_at self j k;
      let self := m_addConstr (mk_constr e1 GE (bigM_ge_rhs self b1)) self in
      e2 ← bigM_lhs self j k;
      b2 ← binary_at self j k;
      Ok (m_addConstr (mk_constr e2 LE (bigM_le_rhs self b2)) self)) self) self.

Definition fit_monotone (self : t) : result t :=
  for_ (range (K self)) (fun k self =>
    for_ (range (n self)) (fun i self =>
      for_ (range (L self)) (fun l self =>
        hi ← criteria_at self k i (Z.of_nat l + 1);
        lo ← criteria_at self k i (Z.of_nat l);
        Ok (m_addConstr (mk_constr (Sub hi lo) GE (Const (epsilon self))) self))
      self) self) self.

Definition fit_zero (self : t) : result t :=
  for_ (range (K self)) (fun k self =>
    for_ (range (n self)) (fun i self =>
      c ← criteria_at self k i 0;
      Ok (m_addConstr (mk_constr c EQ (Const 0)) self)) self) self.

Definition fit_normalize (self : t) : result t :=
  for_ (range (K self)) (fun k self =>
    es ← comprehension
          (fun i => criteria_at self k i (Z.of_nat (L self) - 1))
          (range (n self));
    Ok (m_addConstr (mk_constr (quicksum es) EQ (Const 1)) self)) self.

Definition fit_cover (self : t) : result t :=
  for_ (range (P self)) (fun j self =>
    es ← comprehension (fun k => binary_at self j k) (range (K self));
    Ok (m_addConstr (mk_constr (quicksum es) GE (Const 1)) self)) self.

(** The four slacks of pair [j], summed left to right. *)
Definition slack_sum (self : t) (j : nat) : result expr :=
  spx ← var_at (sigma_plus_x self) j;
  smx ← var_at (sigma_moins_x self) j;
  spy ← var_at (sigma_plus_y self) j;
  smy ← var_at (sigma_moins_y self) j;
  Ok (Add (Add (Add spx smx) spy) smy).

Definition fit_objective (self : t) : result t :=
  es ← comprehension (slack_sum self) (range (P self));
  Ok (set_m (setObjective (quicksum es) (m self)) self).

Definition fit (self : t) (X Y : ndarray Q) : result t :=
  XY ← np_concatenate X Y;
  mins ← np_min0 XY;
  XY' ← np_concatenate X Y;
  maxs ← np_max0 XY';
  self ← fit_utilities mins maxs X Y self;
  self ← fit_bigM self;
  self ← fit_monotone self;
  self ← fit_zero self;
  self ← fit_normalize self;
  self ← fit_cover self;
  fit_objective self.

(** *** What [fit] builds, in closed form *)

(** [cs] appended to the constraints of the Gurobi model. *)
Definition add_constrs (cs : list constr) (self : t) : t :=
  set_m (mk_Model (m_vars (m self)) (m_constrs (m self) ++ cs)
           (m_objective (m self))) self.

(** The expression [u_i] returns for the value [x] of feature [i] whose
    pooled range is [mn, mx]. *)
Definition u_i_expr (L_ : nat) (mn mx x : Q) (k i : nat) : expr :=
  if Qeq_bool x mx then V (Vu k i L_)
  else returned_expr k i (segment L_ mn mx x)
         (position L_ mn mx x (segment L_ mn mx x)).

(** The entry of [sum_utilite] for row [j] of [Z] under cluster [k]. *)
Definition sum_u_i_expr (L_ n_ : nat) (mins maxs : list Q) (Z : ndarray Q)
    (j k : nat) : expr :=
  quicksum (map (fun i => u_i_expr L_ (default 0%Q (mins !! i))
                            (default 0%Q (maxs !! i)) (item Z j i) k i)
              (range n_)).

(** The left-hand side of the two big-M constraints of pair [j] and
    cluster [k], for the utilities [ux] of [X[j]] and [uy] of [Y[j]]. *)
Definition bigM_expr (ux uy : expr) (j : nat) : expr :=
  Sub (Add (Sub (Add (Sub ux (V (Vsigma_plus_x j))) (V (Vsigma_moins_x j)))
                uy) (V (Vsigma_plus_y j))) (V (Vsigma_moins_y j)).

Definition bigM_constrs (M_ eps : Q) (ux uy : expr) (j k : nat)
    : list constr :=
  [ mk_constr (bigM_expr ux uy j) GE
      (Mul (Const (- M_)) (Sub (Const 1) (V (Vbinary j k))));
    mk_constr (bigM_expr ux uy j) LE
      (Sub (Mul (Const M_) (V (Vbinary j k))) (Const eps)) ].

Definition monotone_constr (eps : Q) (k i l : nat) : constr :=
  mk_constr (Sub (V (Vu k i (l + 1))) (V (Vu k i l))) GE (Const eps).

Definition zero_constr (k i : nat) : constr :=
  mk_constr (V (Vu k i 0)) EQ (Const 0).

(** The normalisation constraint over the breakpoint of index [l]. *)
Definition normalize_constr (n_ l k : nat) : constr :=
  mk_constr (quicksum (map (fun i => V (Vu k i l)) (range n_))) EQ (Const 1).

Definition cover_constr (K_ j : nat) : constr :=
  mk_constr (quicksum (map (fun k => V (Vbinary j k)) (range K_))) GE
    (Const 1).

Definition slack_expr (j : nat) : expr :=
  Add (Add (Add (V (Vsigma_plus_x j)) (V (Vsigma_moins_x j)))
           (V (Vsigma_plus_y j))) (V (Vsigma_moins_y j)).

(** All the constraints of one call of [fit], in the order of the calls
    of [addConstr]; [ux k j] and [uy k j] are the utilities stored in
    [sum_utilite]. *)
Definition fit_constrs (L_ K_ n_ P_ : nat) (eps M_ : Q)
    (ux uy : nat -> nat -> expr) : list constr :=
  flat_map (fun j => flat_map (fun k =>
      bigM_constrs M_ eps (ux k j) (uy k j) j k) (range K_)) (range P_)
  ++ flat_map (fun k => flat_map (fun i =>
      map (monotone_constr eps k i) (range L_)) (range n_)) (range K_)
  ++ flat_map (fun k => map (zero_constr k) (range n_)) (range K_)
  ++ map (normalize_constr n_ (L_ - 1)) (range K_)
  ++ map (cover_constr K_) (range P_).

(** [sum_utilite] holds the utilities [ux], [uy] of the first [P_] rows
    under each of the [K_] clusters. *)
Definition filled (K_ P_ : nat) (ux uy : nat -> nat -> expr) (self : t)
    : Prop :=
  forall k j, k < K_ -> j < P_ ->
    sum_utilite self !! (0, k, j) = Some (ux k j) /\
    sum_utilite self !! (1, k, j) = Some (uy k j).

(** [self] has the attributes [instantiate] gave it; [fit] may have
    filled [sum_utilite] and the Gurobi model since. *)
Definition instantiated (L_ K_ n_ P_ : nat) (eps M_ : Q) (self : t) : Prop :=
  statics self = statics (instantiate L_ K_ n_ P_ eps M_).

(** The expression of a result, for a call that is known to return. *)
Definition expr_of (r : result expr) : expr :=
  match r with Ok e => e | Raise _ => Const 0 end.

(** The utility [sum_u_i] returns for row [j] of [Z] under cluster [k]. *)
Definition utility (self : t) (mins maxs : list Q) (Z : ndarray Q)
    (k j : nat) : expr :=
  expr_of (sum_u_i self mins maxs j Z k).

(** Row [j] under cluster [k] has been stored in [sum_utilite], for a
    [fit] that started from [self0]. *)
Definition stored (self0 : t) (mins maxs : list Q) (X Y : ndarray Q)
    (self : t) (k j : nat) : Prop :=
  sum_utilite self !! (0, k, j) = Some (utility self0 mins maxs X k j) /\
  sum_utilite self !! (1, k, j) = Some (utility self0 mins maxs Y k j) /\
  sum_u_i self0 mins maxs j X k = Ok (utility self0 mins maxs X k j) /\
  sum_u_i self0 mins maxs j Y k = Ok (utility self0 mins maxs Y k j).

(** What the constraint loops of [fit] rely on and leave as it is. *)
Definition frame (L_ K_ n_ P_ : nat) (eps M_ : Q)
    (ux uy : nat -> nat -> expr) (self : t) : Prop :=
  instantiated L_ K_ n_ P_ eps M_ self /\ filled K_ P_ ux uy self.

(** The Gurobi model at the end of a [fit] that started from a fresh
    object: the variables of [instantiate], the constraints of
    [fit_constrs] and the sum of the slacks as objective. *)
Definition fitted_model (L_ K_ n_ P_ : nat) (eps M_ : Q)
    (ux uy : nat -> nat -> expr) : Model :=
  mk_Model (m_vars (m (instantiate L_ K_ n_ P_ eps M_)))
    (fit_constrs L_ K_ n_ P_ eps M_ ux uy)
    (Some (quicksum (map slack_expr (range P_)))).

(** Shapes that are enough for [fit] to return: at least one piece, at
    least [P_] rows and [n_] columns, and equal widths. *)
Definition adequate (L_ n_ P_ : nat) (X Y : ndarray Q) : Prop :=
  1 <= L_ /\ P_ <= shape0 X /\ P_ <= shape0 Y /\
  n_ <= shape1 X /\ shape1 X = shape1 Y /\ 0 < shape0 X + shape0 Y.

(** *** [predict_utility] *)

(** The loop only reads (and prints) [sum_utilite[0, k, j]] and
    [criteria[k][i][0]]; the text printed is not modelled, the lookups
    and the exceptions they can raise are. *)
Definition predict_utility (self : t) (X : ndarray Q) : result (ndarray Q) :=
  let n_samples := shape0 X in
  let decision_function := np_zeros n_samples (K self) in
  _ ← for_ (range (K self)) (fun k (u : unit) =>
        for_ (range (n self)) (fun i u =>
          for_ (range (P self)) (fun j u =>
            _ ← sum_utilite_at self (0, k, j);
            _ ← criteria_at self k i 0;
            Ok u) u) u) tt;
  Ok decision_function.

#[global] Instance TwoClustersMIP_BaseModel : BaseModel t :=
  Build_BaseModel t predict_utility.

End TwoClustersMIP.


(** ** RandomExampleModel *)

(** The dot product of a row and a weight vector. *)
Definition dot (xs ws : list Q) : Q :=
  foldr Qplus 0%Q (zip_with Qmult xs ws).

(** [np.dot(X, w)] for a matrix and a vector: the inner dimensions must
    agree. *)
Definition np_dot (X : ndarray Q) (w : list Q) : result (list Q) :=
  if shape1 X =? length w
  then Ok (map (fun j => dot (row X j) w) (range (shape0 X)))
  else Raise ValueError.

(** [np.stack([a, b], axis=1)] for two vectors: the lengths must agree;
    the vectors become the two columns. *)
Definition np_stack1 (a b : list Q) : result (ndarray Q) :=
  if length a =? length b
  then Ok (mk_ndarray (length a) 2
             (fun j k => default 0%Q
                           (match k with O => a !! j | _ => b !! j end)))
  else Raise ValueError.

Module RandomExampleModel.

(** The attributes of the object.  [fit] draws two weight vectors from
    numpy's generator and stores them; the generator is not modelled,
    [weights] stands for whatever list the object holds. *)
Record t : Type := mk {
  seed : Z;
  weights : list (list Q)
}.

Definition instantiate : list (list Q) := [].

(** [RandomExampleModel()] *)
Definition init : t := mk 444 instantiate.

Definition predict_utility (self : t) (X : ndarray Q)
    : result (ndarray Q) :=
  w0 ← py_getitem (weights self) 0;
  d0 ← np_dot X w0;
  w1 ← py_getitem (weights self) 1;
  d1 ← np_dot X w1;
  np_stack1 d0 d1.

#[global] Instance RandomExampleModel_BaseModel : BaseModel t :=
  Build_BaseModel t predict_utility.

End RandomExampleModel.

(** ** Sample training sets *)

(** 2000 pairs of 4 features.  Every feature ranges over [0, 4]: the row
    [X_ex[0]] holds 3, [X_ex[1]] holds the maximum 4, [Y_ex[0]] the
    minimum 0. *)
Definition X_ex : ndarray Q :=
  mk_ndarray 2000 4
    (fun j _ => match j with O => 3 | 1%nat => 4 | _ => 1 end%Q).

Definition Y_ex : ndarray Q :=
  mk_ndarray 2000 4 (fun j _ => match j with O => 0 | _ => 2 end%Q).

(** ** Assignments used to tell expressions apart *)

(** 1 on the variable [v0], 0 elsewhere. *)
Definition only (v0 : var) : assignment :=
  fun v => if decide (v = v0) then 1%Q else 0%Q.


(** Breakpoint utilities that rise by equal steps and reach 1/4 at the
    breakpoint [L_ - 1], no slack, every indicator at 1. *)
Definition ladder (L_ : nat) : assignment :=
  fun v => match v with
           | Vu _ _ l =>
               (inject_Z (Z.of_nat l) * (1 # Pos.of_nat (4 * (L_ - 1))))%Q
           | Vbinary _ _ => 1%Q
           | _ => 0%Q
           end.

(** Feature 0 is constant (7 in every row of both arrays); the other
    features are those of [X_ex] and [Y_ex]. *)
Definition X_flat : ndarray Q :=
  mk_ndarray 2000 4
    (fun j i => match i with O => 7%Q | _ => item X_ex j i end).

Definition Y_flat : ndarray Q :=
  mk_ndarray 2000 4
    (fun j i => match i with O => 7%Q | _ => item Y_ex j i end).

(** One row more than [X_ex]. *)
Definition Y_long : ndarray Q :=
  mk_ndarray 2001 4 (fun j _ => match j with O => 0 | _ => 2 end%Q).

(** One column fewer than [X_ex]. *)
Definition Y_narrow : ndarray Q :=
  mk_ndarray 2000 3 (fun j _ => match j with O => 0 | _ => 2 end%Q).

(** Ten rows only. *)
Definition X_short : ndarray Q :=
  mk_ndarray 10 4 (fun j _ => match j with O => 3 | 1%nat => 4 | _ => 1 end%Q).

(** ** A model given by its utility function *)

(** Any function from batches to utility matrices is a model. *)
#[global] Instance FunctionModel
    : BaseModel (ndarray Q -> result (ndarray Q)) :=
  Build_BaseModel _ (fun f X => f X).

(** Two clusters; the utility of cluster [k] is feature [k]. *)
Definition feature_utilities : ndarray Q -> result (ndarray Q) :=
  fun X => Ok (mk_ndarray (shape0 X) 2 (item X)).

(** One pair whose utility margin is 0.3 under cluster 0 and 0.1 under
    cluster 1. *)
Definition X_pair : ndarray Q :=
  mk_ndarray 1 2 (fun _ k => match k with O => 3 # 10 | _ => 1 # 10 end%Q).

Definition Y_pair : ndarray Q := mk_ndarray 1 2 (fun _ _ => 0%Q).
(** * Properties *)

(** ** The [result] monad and the loops *)

Lemma bind_Ok {A B : Type} (r : result A) (f : A -> result B) (b : B) :
  (r ≫= f) = Ok b <-> exists a, r = Ok a /\ f a = Ok b.
Proof.
  destruct r as [a|e]; simpl; split.
  - intros Hf. exists a. split; [reflexivity | exact Hf].
  - intros (a' & Ha & Hf). injection Ha as ->. exact Hf.
  - discriminate.
  - intros (a' & Ha & _). discriminate.
Qed.

(** A loop whose body succeeds while an invariant, indexed by the values
    already visited, holds: the loop succeeds and ends in the invariant. *)
Lemma for_invariant {St B : Type} (Inv : list B -> St -> Prop)
    (body : B -> St -> result St) (xs : list B) (s : St) :
  Inv [] s ->
  (forall done x rest s1, xs = done ++ x :: rest -> Inv done s1 ->
     exists s2, body x s1 = Ok s2 /\ Inv (done ++ [x]) s2) ->
  exists s', for_ xs body s = Ok s' /\ Inv xs s'.
Proof.
  revert Inv s. induction xs as [|x xs IH]; intros Inv s H0 Hstep.
  - exists s. split; [reflexivity | exact H0].
  - destruct (Hstep [] x xs s eq_refl H0) as (s2 & Hb & Hi).
    destruct (IH (fun done => Inv (x :: done)) s2 Hi) as (s' & Hf & Hi').
    + intros done y rest s1 -> Hd.
      apply (Hstep (x :: done) y rest s1); [reflexivity | exact Hd].
    + exists s'. split; [| exact Hi'].
      simpl. rewrite Hb. exact Hf.
Qed.


Lemma comprehension_Ok {A B : Type} (f : A -> result B) (g : A -> B)
    (xs : list A) :
  (forall x, x ∈ xs -> f x = Ok (g x)) ->
  comprehension f xs = Ok (map g xs).
Proof.
  induction xs as [|x xs IH]; intros Hf; simpl.
  - reflexivity.
  - rewrite (Hf x) by left. simpl. rewrite IH.
    + reflexivity.
    + intros y Hy. apply Hf. right. exact Hy.
Qed.


Lemma flat_map_singleton {A B : Type} (f : A -> B) (xs : list A) :
  flat_map (fun x => [f x]) xs = map f xs.
Proof.
  induction xs as [|x xs IH]; simpl; [reflexivity | rewrite IH; reflexivity].
Qed.

Lemma elem_of_range (i stop : nat) : i ∈ range stop <-> i < stop.
Proof. unfold range. rewrite elem_of_seq. lia. Qed.

Lemma range_S (stop : nat) : range (S stop) = range stop ++ [stop].
Proof. unfold range. rewrite seq_S. reflexivity. Qed.

(** A prefix of [range stop] is the range of its own length. *)
Lemma range_prefix (stop : nat) (done rest : list nat) (x : nat) :
  range stop = done ++ x :: rest -> done = range x /\ x < stop.
Proof.
  intros Hr.
  assert (Hlen : length (range stop) = length done + S (length rest)).
  { rewrite Hr, length_app. reflexivity. }
  unfold range in Hlen. rewrite length_seq in Hlen.
  assert (Hx : range stop !! length done = Some x).
  { rewrite Hr. rewrite lookup_app_r by lia.
    replace (length done - length done) with 0 by lia. reflexivity. }
  unfold range in Hx. apply lookup_seq in Hx as [Hx _]. simpl in Hx.
  split; [| lia].
  assert (Hd : done = take (length done) (range stop)).
  { rewrite Hr. rewrite take_app_length. reflexivity. }
  rewrite Hd, <- Hx. unfold range. rewrite take_seq.
  f_equal. lia.
Qed.

(** ** Python list indexing *)

Lemma py_getitem_nat_Some {A : Type} (xs : list A) (i : nat) (a : A) :
  xs !! i = Some a -> py_getitem_nat xs i = Ok a.
Proof.
  intros Hl. unfold py_getitem_nat, py_getitem.
  destruct (Z.ltb_spec (Z.of_nat i) 0) as [Hneg|_]; [lia |].
  destruct (Z.ltb_spec (Z.of_nat i) 0) as [Hneg|_]; [lia |].
  rewrite Nat2Z.id, Hl. reflexivity.
Qed.

Lemma py_getitem_nat_Ok {A : Type} (xs : list A) (i : nat) (a : A) :
  py_getitem_nat xs i = Ok a -> xs !! i = Some a.
Proof.
  unfold py_getitem_nat, py_getitem.
  destruct (Z.ltb_spec (Z.of_nat i) 0) as [Hneg|_]; [lia |].
  destruct (Z.ltb_spec (Z.of_nat i) 0) as [Hneg|_]; [lia |].
  rewrite Nat2Z.id. destruct (xs !! i); [congruence | discriminate].
Qed.

Lemma py_getitem_nonneg {A : Type} (xs : list A) (z : Z) (a : A) :
  (0 <= z)%Z -> xs !! Z.to_nat z = Some a -> py_getitem xs z = Ok a.
Proof.
  intros Hz Hl. unfold py_getitem.
  destruct (Z.ltb_spec z 0) as [Hneg|_]; [lia |].
  destruct (Z.ltb_spec z 0) as [Hneg|_]; [lia |].
  rewrite Hl. reflexivity.
Qed.

(** [xs[-1]] is the last element. *)
Lemma py_getitem_last {A : Type} (xs : list A) (a : A) :
  py_getitem (xs ++ [a]) (-1) = Ok a.
Proof.
  unfold py_getitem. rewrite length_app. simpl.
  destruct (Z.ltb_spec (-1) 0) as [_|Hneg]; [| lia].
  destruct (Z.ltb_spec (-1 + Z.of_nat (length xs + 1)) 0) as [Hneg|_]; [lia |].
  replace (Z.to_nat (-1 + Z.of_nat (length xs + 1))) with (length xs) by lia.
  rewrite lookup_app_r by lia.
  replace (length xs - length xs) with 0 by lia. reflexivity.
Qed.


Lemma lookup_map_range {A : Type} (f : nat -> A) (stop i : nat) :
  i < stop -> map f (range stop) !! i = Some (f i).
Proof.
  intros Hi. unfold range.
  change (map f (seq 0 stop)) with (f <$> seq 0 stop).
  rewrite list_lookup_fmap, lookup_seq_lt by exact Hi. reflexivity.
Qed.

(** ** Gurobi expressions *)

Lemma eval_fold_left_Add (a : assignment) (es : list expr) (acc : expr) :
  (eval a (fold_left Add es acc)
   == eval a acc + fold_right Qplus 0 (map (eval a) es))%Q.
Proof.
  revert acc. induction es as [|e es IH]; intros acc; simpl.
  - ring.
  - rewrite IH. simpl. ring.
Qed.

(** [quicksum] denotes the sum of its arguments. *)
Lemma eval_quicksum (a : assignment) (es : list expr) :
  (eval a (quicksum es) == fold_right Qplus 0 (map (eval a) es))%Q.
Proof. unfold quicksum. rewrite eval_fold_left_Add. simpl. ring. Qed.

(** ** Pooled minimum and maximum *)

Lemma qmin_le_l (a b : Q) : (qmin a b <= a)%Q.
Proof.
  unfold qmin. destruct (Qle_bool a b) eqn:Hab.
  - apply Qle_refl.
  - apply Qlt_le_weak, Qnot_le_lt. intros Hle.
    apply Qle_bool_iff in Hle. congruence.
Qed.

Lemma qmin_le_r (a b : Q) : (qmin a b <= b)%Q.
Proof.
  unfold qmin. destruct (Qle_bool a b) eqn:Hab.
  - apply Qle_bool_iff. exact Hab.
  - apply Qle_refl.
Qed.

Lemma qmax_ge_l (a b : Q) : (a <= qmax a b)%Q.
Proof.
  unfold qmax. destruct (Qle_bool a b) eqn:Hab.
  - apply Qle_bool_iff. exact Hab.
  - apply Qle_refl.
Qed.

Lemma qmax_ge_r (a b : Q) : (b <= qmax a b)%Q.
Proof.
  unfold qmax. destruct (Qle_bool a b) eqn:Hab.
  - apply Qle_refl.
  - apply Qlt_le_weak, Qnot_le_lt. intros Hle.
    apply Qle_bool_iff in Hle. congruence.
Qed.

Lemma foldr_qmin_le (xs : list Q) (init x : Q) :
  x ∈ xs -> (foldr qmin init xs <= x)%Q.
Proof.
  induction xs as [|y xs IH]; intros Hx.
  - inversion Hx.
  - simpl. apply elem_of_cons in Hx as [-> | Hx].
    + apply qmin_le_l.
    + eapply Qle_trans; [apply qmin_le_r | apply IH, Hx].
Qed.

Lemma foldr_qmax_ge (xs : list Q) (init x : Q) :
  x ∈ xs -> (x <= foldr qmax init xs)%Q.
Proof.
  induction xs as [|y xs IH]; intros Hx.
  - inversion Hx.
  - simpl. apply elem_of_cons in Hx as [-> | Hx].
    + apply qmax_ge_l.
    + eapply Qle_trans; [apply IH, Hx | apply qmax_ge_r].
Qed.

Lemma np_concatenate_Ok (X Y XY : ndarray Q) :
  np_concatenate X Y = Ok XY <-> shape1 X = shape1 Y /\ XY = stacked X Y.
Proof.
  unfold np_concatenate, stacked.
  destruct (Nat.eqb_spec (shape1 X) (shape1 Y)) as [He|Hne]; split.
  - intros [= <-]. split; [exact He | reflexivity].
  - intros [_ ->]. reflexivity.
  - discriminate.
  - intros [He _]. contradiction.
Qed.

Lemma np_reduce0_stacked (op : Q -> Q -> Q) (X Y : ndarray Q) :
  0 < shape0 X + shape0 Y ->
  np_reduce0 op (stacked X Y) = Ok (pooled op X Y).
Proof.
  intros Hrows. unfold np_reduce0.
  destruct (Nat.eqb_spec (shape0 (stacked X Y)) 0) as [He|_].
  - simpl in He. lia.
  - reflexivity.
Qed.

Lemma column_stacked_X (X Y : ndarray Q) (j i : nat) :
  j < shape0 X -> item X j i ∈ column (stacked X Y) i.
Proof.
  intros Hj. unfold column. apply list_elem_of_fmap.
  exists j. split.
  - simpl. destruct (Nat.ltb_spec j (shape0 X)); [reflexivity | lia].
  - apply elem_of_range. simpl. lia.
Qed.

Lemma column_stacked_Y (X Y : ndarray Q) (j i : nat) :
  j < shape0 Y -> item Y j i ∈ column (stacked X Y) i.
Proof.
  intros Hj. unfold column. apply list_elem_of_fmap.
  exists (shape0 X + j). split.
  - simpl. destruct (Nat.ltb_spec (shape0 X + j) (shape0 X)); [lia |].
    f_equal. lia.
  - apply elem_of_range. simpl. lia.
Qed.

Lemma observed_column (X Y : ndarray Q) (i : nat) (x : Q) :
  observed X Y i x -> x ∈ column (stacked X Y) i.
Proof.
  intros [j Hj ->|j Hj ->].
  - apply column_stacked_X, Hj.
  - apply column_stacked_Y, Hj.
Qed.

Lemma pooled_lookup (op : Q -> Q -> Q) (X Y : ndarray Q) (i : nat) :
  i < shape1 X ->
  pooled op X Y !! i
  = Some (foldr op (item (stacked X Y) 0 i) (column (stacked X Y) i)).
Proof.
  intros Hi. unfold pooled.
  apply (lookup_map_range
           (fun i => foldr op (item (stacked X Y) 0 i)
                       (column (stacked X Y) i))), Hi.
Qed.

(** Every observed value of feature [i] lies between the pooled minimum
    and the pooled maximum of that feature. *)
Lemma pooled_bounds (X Y : ndarray Q) (i : nat) (x : Q) :
  i < shape1 X -> observed X Y i x ->
  exists mn mx, pooled qmin X Y !! i = Some mn /\
                pooled qmax X Y !! i = Some mx /\ (mn <= x <= mx)%Q.
Proof.
  intros Hi Hobs. apply observed_column in Hobs.
  eexists _, _. split; [apply pooled_lookup, Hi |].
  split; [apply pooled_lookup, Hi |]. split.
  - apply foldr_qmin_le, Hobs.
  - apply foldr_qmax_ge, Hobs.
Qed.

(** ** The attributes built by [instantiate] *)

Section Instantiate.
Import TwoClustersMIP.
Variables (L_ K_ n_ P_ : nat) (eps M_ : Q).

Local Abbreviation instantiated := (instantiated L_ K_ n_ P_ eps M_).

Lemma instantiated_fresh : instantiated (instantiate L_ K_ n_ P_ eps M_).
Proof. reflexivity. Qed.


Lemma instantiated_set_m mdl self :
  instantiated self -> instantiated (set_m mdl self).
Proof. intros Hs. exact Hs. Qed.

Lemma instantiated_m_addConstr c self :
  instantiated self -> instantiated (m_addConstr c self).
Proof. intros Hs. exact Hs. Qed.

Section Fields.
Variable self : t.
Hypothesis Hs : instantiated self.

Lemma instantiated_L : L self = L_.
Proof using Hs. exact (f_equal L Hs). Qed.
Lemma instantiated_K : K self = K_.
Proof using Hs. exact (f_equal K Hs). Qed.
Lemma instantiated_n : n self = n_.
Proof using Hs. exact (f_equal n Hs). Qed.
Lemma instantiated_P : P self = P_.
Proof using Hs. exact (f_equal P Hs). Qed.
Lemma instantiated_M : M self = M_.
Proof using Hs. exact (f_equal M Hs). Qed.
Lemma instantiated_epsilon : epsilon self = eps.
Proof using Hs. exact (f_equal epsilon Hs). Qed.

Lemma instantiated_criteria :
  criteria self
  = map (fun k => map (fun i => map (fun l => Vu k i l) (range (L_ + 1)))
                    (range n_)) (range K_).
Proof using Hs. exact (f_equal criteria Hs). Qed.

Lemma criteria_row k i :
  k < K_ -> i < n_ ->
  exists ck, py_getitem_nat (criteria self) k = Ok ck /\
             py_getitem_nat ck i
             = Ok (map (fun l => Vu k i l) (range (L_ + 1))).
Proof using Hs.
  intros Hk Hi. rewrite instantiated_criteria.
  eexists. split.
  - apply py_getitem_nat_Some.
    apply (lookup_map_range
             (fun k => map (fun i => map (fun l => Vu k i l)
                                       (range (L_ + 1))) (range n_))), Hk.
  - apply py_getitem_nat_Some.
    apply (lookup_map_range
             (fun i => map (fun l => Vu k i l) (range (L_ + 1)))), Hi.
Qed.

(** [criteria[k][i][l]] for an index inside the list. *)
Lemma criteria_at_inside k i (l : Z) :
  k < K_ -> i < n_ -> (0 <= l <= Z.of_nat L_)%Z ->
  criteria_at self k i l = Ok (V (Vu k i (Z.to_nat l))).
Proof using Hs.
  intros Hk Hi Hl. unfold criteria_at.
  destruct (criteria_row k i Hk Hi) as (ck & -> & Hcki). simpl.
  rewrite Hcki. simpl.
  rewrite (py_getitem_nonneg _ l (Vu k i (Z.to_nat l))).
  - reflexivity.
  - lia.
  - apply (lookup_map_range (fun l => Vu k i l)). lia.
Qed.

(** [criteria[k][i][-1]] is the variable of the last breakpoint. *)
Lemma criteria_at_last k i :
  k < K_ -> i < n_ -> criteria_at self k i (-1) = Ok (V (Vu k i L_)).
Proof using Hs.
  intros Hk Hi. unfold criteria_at.
  destruct (criteria_row k i Hk Hi) as (ck & -> & Hcki). simpl.
  rewrite Hcki. simpl.
  replace (L_ + 1) with (S L_) by lia.
  rewrite range_S, map_app. simpl.
  rewrite py_getitem_last. reflexivity.
Qed.


Lemma sigma_plus_x_at j :
  j < P_ -> var_at (sigma_plus_x self) j = Ok (V (Vsigma_plus_x j)).
Proof using Hs.
  intros Hj. unfold var_at.
  replace (sigma_plus_x self) with (map Vsigma_plus_x (range P_))
    by exact (eq_sym (f_equal sigma_plus_x Hs)).
  rewrite (py_getitem_nat_Some _ j (Vsigma_plus_x j)); [reflexivity |].
  apply lookup_map_range, Hj.
Qed.

Lemma sigma_plus_y_at j :
  j < P_ -> var_at (sigma_plus_y self) j = Ok (V (Vsigma_plus_y j)).
Proof using Hs.
  intros Hj. unfold var_at.
  replace (sigma_plus_y self) with (map Vsigma_plus_y (range P_))
    by exact (eq_sym (f_equal sigma_plus_y Hs)).
  rewrite (py_getitem_nat_Some _ j (Vsigma_plus_y j)); [reflexivity |].
  apply lookup_map_range, Hj.
Qed.

Lemma sigma_moins_x_at j :
  j < P_ -> var_at (sigma_moins_x self) j = Ok (V (Vsigma_moins_x j)).
Proof using Hs.
  intros Hj. unfold var_at.
  replace (sigma_moins_x self) with (map Vsigma_moins_x (range P_))
    by exact (eq_sym (f_equal sigma_moins_x Hs)).
  rewrite (py_getitem_nat_Some _ j (Vsigma_moins_x j)); [reflexivity |].
  apply lookup_map_range, Hj.
Qed.

Lemma sigma_moins_y_at j :
  j < P_ -> var_at (sigma_moins_y self) j = Ok (V (Vsigma_moins_y j)).
Proof using Hs.
  intros Hj. unfold var_at.
  replace (sigma_moins_y self) with (map Vsigma_moins_y (range P_))
    by exact (eq_sym (f_equal sigma_moins_y Hs)).
  rewrite (py_getitem_nat_Some _ j (Vsigma_moins_y j)); [reflexivity |].
  apply lookup_map_range, Hj.
Qed.

Lemma binary_at_inside j k :
  j < P_ -> k < K_ -> binary_at self j k = Ok (V (Vbinary j k)).
Proof using Hs.
  intros Hj Hk. unfold binary_at.
  replace (binary self)
    with (map (fun j => map (fun k => Vbinary j k) (range K_)) (range P_))
    by exact (eq_sym (f_equal binary Hs)).
  rewrite (py_getitem_nat_Some _ j
             (map (fun k => Vbinary j k) (range K_))).
  - simpl.
    rewrite (py_getitem_nat_Some _ k (Vbinary j k)); [reflexivity |].
    apply (lookup_map_range (fun k => Vbinary j k)), Hk.
  - apply (lookup_map_range
             (fun j => map (fun k => Vbinary j k) (range K_))), Hj.
Qed.
End Fields.
End Instantiate.

(** ** Segments *)

Section Segments.
Import TwoClustersMIP.
Variables (L_ : nat) (mn mx x : Q).
Hypothesis HL : 1 <= L_.
Hypothesis Hlo : (mn <= x)%Q.
Hypothesis Hhi : (x < mx)%Q.

Lemma inject_L_pos : (0 < inject_Z (Z.of_nat L_))%Q.
Proof using HL.
  change 0%Q with (inject_Z 0). rewrite <- Zlt_Qlt. lia.
Qed.

Lemma range_pos : (0 < mx - mn)%Q.
Proof using Hlo Hhi. lra. Qed.

(** An interior value falls in one of the segments [0 .. L-1]. *)
Lemma segment_bounds :
  (0 <= segment L_ mn mx x < Z.of_nat L_)%Z.
Proof using HL Hlo Hhi.
  pose proof inject_L_pos as HLq. pose proof range_pos as Hr.
  unfold segment.
  set (q := (inject_Z (Z.of_nat L_) * (x - mn) / (mx - mn))%Q).
  assert (Hq0 : (0 <= q)%Q).
  { unfold q. apply Qle_shift_div_l; [exact Hr |].
    rewrite Qmult_0_l. apply Qmult_le_0_compat; lra. }
  assert (HqL : (q < inject_Z (Z.of_nat L_))%Q).
  { unfold q. apply Qlt_shift_div_r; [exact Hr |].
    apply Qmult_lt_l; [exact HLq | lra]. }
  split.
  - change 0%Z with (Qfloor 0). apply Qfloor_resp_le, Hq0.
  - rewrite Zlt_Qlt. eapply Qle_lt_trans; [apply Qfloor_le | exact HqL].
Qed.

Lemma breakpoint_step (l : Z) :
  (breakpoint L_ mn mx (l + 1) - breakpoint L_ mn mx l
   == (mx - mn) / inject_Z (Z.of_nat L_))%Q.
Proof using HL.
  pose proof inject_L_pos as HLq.
  unfold breakpoint. rewrite inject_Z_plus.
  change (inject_Z 1) with 1%Q. field. lra.
Qed.

Lemma breakpoint_step_nonzero (l : Z) :
  ~ (breakpoint L_ mn mx (l + 1) - breakpoint L_ mn mx l == 0)%Q.
Proof using HL Hlo Hhi.
  pose proof inject_L_pos as HLq. pose proof range_pos as Hr.
  rewrite breakpoint_step. intros H0.
  assert (Hpos : (0 < (mx - mn) / inject_Z (Z.of_nat L_))%Q).
  { apply Qlt_shift_div_l; [exact HLq | lra]. }
  lra.
Qed.
End Segments.

Lemma Qeq_bool_false (a b : Q) : ~ (a == b)%Q -> Qeq_bool a b = false.
Proof.
  intros Hne. destruct (Qeq_bool a b) eqn:E; [| reflexivity].
  apply Qeq_bool_eq in E. contradiction.
Qed.

Lemma np_div_Some (a b : Q) : ~ (b == 0)%Q -> np_div a b = Some (a / b)%Q.
Proof. intros Hb. unfold np_div. rewrite Qeq_bool_false by exact Hb. reflexivity. Qed.

(** ** The closure [u_i] *)

Section U_i.
Import TwoClustersMIP.
Variables (L_ K_ n_ P_ : nat) (eps M_ : Q).
Variable self : t.
Hypothesis Hs : instantiated L_ K_ n_ P_ eps M_ self.
Variables mins maxs : list Q.
Variables (X : ndarray Q) (j i k : nat) (x mn mx : Q).
Hypothesis Hx : np_getitem X j i = Ok x.
Hypothesis Hmn : mins !! i = Some mn.
Hypothesis Hmx : maxs !! i = Some mx.
Hypothesis Hk : k < K_.
Hypothesis Hi : i < n_.

(** At the maximum the last breakpoint variable is returned as it is. *)
Lemma u_i_at_max :
  (x == mx)%Q -> u_i self mins maxs j i X k = Ok (V (Vu k i L_)).
Proof using Hs Hx Hmx Hk Hi.
  intros He. unfold u_i. rewrite Hx. simpl.
  rewrite (py_getitem_nat_Some _ _ _ Hmx). simpl.
  rewrite (proj2 (Qeq_bool_iff x mx) He).
  apply (criteria_at_last L_ K_ n_ P_ eps M_ self Hs k i Hk Hi).
Qed.

(** Below the maximum the product of [returned_expr] is returned. *)
Lemma u_i_interior :
  1 <= L_ -> (mn <= x)%Q -> (x < mx)%Q ->
  u_i self mins maxs j i X k
  = Ok (returned_expr k i (segment L_ mn mx x)
          (position L_ mn mx x (segment L_ mn mx x))).
Proof using Hs Hx Hmn Hmx Hk Hi.
  intros HL Hlo Hhi.
  pose proof (segment_bounds L_ mn mx x HL Hlo Hhi) as Hseg.
  assert (HLq : ~ (inject_Z (Z.of_nat L_) == 0)%Q).
  { pose proof (inject_L_pos L_ HL). lra. }
  unfold u_i. rewrite Hx. cbn [mbind result_bind].
  rewrite (py_getitem_nat_Some _ _ _ Hmx). cbn [mbind result_bind].
  rewrite Qeq_bool_false by lra.
  unfold li, xl.
  rewrite (py_getitem_nat_Some _ _ _ Hmn), (py_getitem_nat_Some _ _ _ Hmx).
  cbn [mbind result_bind].
  rewrite (instantiated_L L_ K_ n_ P_ eps M_ self Hs).
  unfold int_floor_div. rewrite np_div_Some by lra.
  fold (segment L_ mn mx x). set (l := segment L_ mn mx x) in *.
  cbn [mbind result_bind].
  rewrite !np_div_Some by exact HLq. cbn [mbind option_bind].
  rewrite (criteria_at_inside L_ K_ n_ P_ eps M_ self Hs k i l Hk Hi) by lia.
  cbn [mbind result_bind].
  rewrite (criteria_at_inside L_ K_ n_ P_ eps M_ self Hs k i (l + 1) Hk Hi)
    by lia.
  cbn [mbind result_bind]. unfold slope. cbn [mbind option_bind].
  fold (breakpoint L_ mn mx l). fold (breakpoint L_ mn mx (l + 1)).
  rewrite np_div_Some
    by exact (breakpoint_step_nonzero L_ mn mx x HL Hlo Hhi l).
  reflexivity.
Qed.
End U_i.

(** ** The constraint loops of [fit] *)

Section Constraints.
Import TwoClustersMIP.
Variables (L_ K_ n_ P_ : nat) (eps M_ : Q).
Variables ux uy : nat -> nat -> expr.
Local Abbreviation instantiated := (instantiated L_ K_ n_ P_ eps M_).

Lemma add_constrs_nil self : add_constrs [] self = self.
Proof.
  destruct self as [? ? ? ? ? ? ? [vars cs obj] ? ? ? ? ? ?].
  unfold add_constrs, set_m. simpl. rewrite app_nil_r. reflexivity.
Qed.

Lemma add_constrs_app cs1 cs2 self :
  add_constrs cs2 (add_constrs cs1 self) = add_constrs (cs1 ++ cs2) self.
Proof. unfold add_constrs, set_m. simpl. rewrite app_assoc. reflexivity. Qed.

(** A loop whose body appends [f x] to the constraints appends them all. *)
Lemma for_add_constrs {B : Type} (Fr : t -> Prop) (f : B -> list constr)
    (body : B -> t -> result t) (xs : list B) :
  (forall cs s, Fr s -> Fr (add_constrs cs s)) ->
  (forall x s, x ∈ xs -> Fr s -> body x s = Ok (add_constrs (f x) s)) ->
  forall s, Fr s -> for_ xs body s = Ok (add_constrs (flat_map f xs) s).
Proof.
  intros Hfr. induction xs as [|x xs IH]; intros Hbody s Hs.
  - simpl. rewrite add_constrs_nil. reflexivity.
  - cbn [for_ flat_map]. rewrite (Hbody x s) by (left || exact Hs).
    cbn [mbind result_bind]. rewrite IH.
    + rewrite add_constrs_app. reflexivity.
    + intros y s1 Hy. apply Hbody. right. exact Hy.
    + apply Hfr, Hs.
Qed.

Local Abbreviation frame := (frame L_ K_ n_ P_ eps M_ ux uy).

Lemma frame_add_constrs cs self : frame self -> frame (add_constrs cs self).
Proof. intros [Hi Hf]. split; [exact Hi | exact Hf]. Qed.

Lemma bigM_lhs_frame self j k :
  frame self -> j < P_ -> k < K_ ->
  bigM_lhs self j k = Ok (bigM_expr (ux k j) (uy k j) j).
Proof.
  intros [Hi Hf] Hj Hk. destruct (Hf k j Hk Hj) as [Hx Hy].
  unfold bigM_lhs, sum_utilite_at. rewrite Hx, Hy.
  rewrite (sigma_plus_x_at L_ K_ n_ P_ eps M_ self Hi j Hj).
  rewrite (sigma_plus_y_at L_ K_ n_ P_ eps M_ self Hi j Hj).
  rewrite (sigma_moins_x_at L_ K_ n_ P_ eps M_ self Hi j Hj).
  rewrite (sigma_moins_y_at L_ K_ n_ P_ eps M_ self Hi j Hj).
  reflexivity.
Qed.

Lemma fit_bigM_frame self :
  frame self ->
  fit_bigM self
  = Ok (add_constrs
          (flat_map (fun j => flat_map (fun k =>
             bigM_constrs M_ eps (ux k j) (uy k j) j k) (range K_))
             (range P_)) self).
Proof.
  intros Hfr. unfold fit_bigM.
  rewrite (instantiated_P L_ K_ n_ P_ eps M_ self (proj1 Hfr)).
  apply (for_add_constrs frame); [apply frame_add_constrs | | exact Hfr].
  intros j s Hj Hs. apply elem_of_range in Hj.
  rewrite (instantiated_K L_ K_ n_ P_ eps M_ s (proj1 Hs)).
  apply (for_add_constrs frame); [apply frame_add_constrs | | exact Hs].
  intros k s1 Hk Hs1. apply elem_of_range in Hk.
  rewrite (bigM_lhs_frame s1 j k Hs1 Hj Hk). cbn [mbind result_bind].
  rewrite (binary_at_inside L_ K_ n_ P_ eps M_ s1 (proj1 Hs1) j k Hj Hk).
  cbn [mbind result_bind].
  change (m_addConstr ?c s1) with (add_constrs [c] s1).
  set (s2 := add_constrs _ s1).
  assert (Hs2 : frame s2) by apply frame_add_constrs, Hs1.
  rewrite (bigM_lhs_frame s2 j k Hs2 Hj Hk). cbn [mbind result_bind].
  rewrite (binary_at_inside L_ K_ n_ P_ eps M_ s2 (proj1 Hs2) j k Hj Hk).
  cbn [mbind result_bind].
  change (m_addConstr ?c s2) with (add_constrs [c] s2).
  unfold s2. rewrite add_constrs_app.
  unfold bigM_ge_rhs, bigM_le_rhs, bigM_constrs. cbn [app].
  change (M (add_constrs ?cs s1)) with (M s1).
  change (epsilon (add_constrs ?cs s1)) with (epsilon s1).
  rewrite (instantiated_M L_ K_ n_ P_ eps M_ s1 (proj1 Hs1)).
  rewrite (instantiated_epsilon L_ K_ n_ P_ eps M_ s1 (proj1 Hs1)).
  reflexivity.
Qed.

Lemma fit_monotone_frame self :
  frame self ->
  fit_monotone self
  = Ok (add_constrs
          (flat_map (fun k => flat_map (fun i =>
             map (monotone_constr eps k i) (range L_)) (range n_))
             (range K_)) self).
Proof.
  intros Hfr. unfold fit_monotone.
  rewrite (instantiated_K L_ K_ n_ P_ eps M_ self (proj1 Hfr)).
  apply (for_add_constrs frame); [apply frame_add_constrs | | exact Hfr].
  intros k s Hk Hs. apply elem_of_range in Hk.
  rewrite (instantiated_n L_ K_ n_ P_ eps M_ s (proj1 Hs)).
  apply (for_add_constrs frame); [apply frame_add_constrs | | exact Hs].
  intros i s1 Hi Hs1. apply elem_of_range in Hi.
  rewrite (instantiated_L L_ K_ n_ P_ eps M_ s1 (proj1 Hs1)).
  rewrite <- (flat_map_singleton (monotone_constr eps k i)).
  apply (for_add_constrs frame); [apply frame_add_constrs | | exact Hs1].
  intros l s2 Hl Hs2. apply elem_of_range in Hl.
  rewrite (criteria_at_inside L_ K_ n_ P_ eps M_ s2 (proj1 Hs2) k i
             (Z.of_nat l + 1) Hk Hi) by lia.
  cbn [mbind result_bind].
  rewrite (criteria_at_inside L_ K_ n_ P_ eps M_ s2 (proj1 Hs2) k i
             (Z.of_nat l) Hk Hi) by lia.
  cbn [mbind result_bind].
  rewrite (instantiated_epsilon L_ K_ n_ P_ eps M_ s2 (proj1 Hs2)).
  replace (Z.to_nat (Z.of_nat l + 1)) with (l + 1) by lia.
  rewrite Nat2Z.id. reflexivity.
Qed.

Lemma fit_zero_frame self :
  frame self ->
  fit_zero self
  = Ok (add_constrs
          (flat_map (fun k => map (zero_constr k) (range n_)) (range K_))
          self).
Proof.
  intros Hfr. unfold fit_zero.
  rewrite (instantiated_K L_ K_ n_ P_ eps M_ self (proj1 Hfr)).
  apply (for_add_constrs frame); [apply frame_add_constrs | | exact Hfr].
  intros k s Hk Hs. apply elem_of_range in Hk.
  rewrite (instantiated_n L_ K_ n_ P_ eps M_ s (proj1 Hs)).
  rewrite <- (flat_map_singleton (zero_constr k)).
  apply (for_add_constrs frame); [apply frame_add_constrs | | exact Hs].
  intros i s1 Hi Hs1. apply elem_of_range in Hi.
  rewrite (criteria_at_inside L_ K_ n_ P_ eps M_ s1 (proj1 Hs1) k i 0 Hk Hi)
    by lia.
  reflexivity.
Qed.

(** [criteria[k][i][L - 1]], also when [L] is 0 and the index is [-1]. *)
Lemma criteria_at_L_minus_1 self k i :
  instantiated self -> k < K_ -> i < n_ ->
  criteria_at self k i (Z.of_nat (L self) - 1) = Ok (V (Vu k i (L_ - 1))).
Proof.
  intros Hs Hk Hi. rewrite (instantiated_L L_ K_ n_ P_ eps M_ self Hs).
  destruct (Nat.eq_dec L_ 0) as [HL|HL].
  - replace (Z.of_nat L_ - 1)%Z with (-1)%Z by lia.
    rewrite (criteria_at_last L_ K_ n_ P_ eps M_ self Hs k i Hk Hi).
    replace (L_ - 1) with L_ by lia. reflexivity.
  - rewrite (criteria_at_inside L_ K_ n_ P_ eps M_ self Hs k i _ Hk Hi)
      by lia.
    do 3 f_equal. lia.
Qed.

Lemma fit_normalize_frame self :
  frame self ->
  fit_normalize self
  = Ok (add_constrs (map (normalize_constr n_ (L_ - 1)) (range K_)) self).
Proof.
  intros Hfr. unfold fit_normalize.
  rewrite (instantiated_K L_ K_ n_ P_ eps M_ self (proj1 Hfr)).
  rewrite <- (flat_map_singleton (normalize_constr n_ (L_ - 1))).
  apply (for_add_constrs frame); [apply frame_add_constrs | | exact Hfr].
  intros k s Hk Hs. apply elem_of_range in Hk.
  rewrite (instantiated_n L_ K_ n_ P_ eps M_ s (proj1 Hs)).
  rewrite (comprehension_Ok _ (fun i => V (Vu k i (L_ - 1)))).
  - reflexivity.
  - intros i Hi. apply elem_of_range in Hi.
    apply criteria_at_L_minus_1; [exact (proj1 Hs) | exact Hk | exact Hi].
Qed.

Lemma fit_cover_frame self :
  frame self ->
  fit_cover self
  = Ok (add_constrs (map (cover_constr K_) (range P_)) self).
Proof.
  intros Hfr. unfold fit_cover.
  rewrite (instantiated_P L_ K_ n_ P_ eps M_ self (proj1 Hfr)).
  rewrite <- (flat_map_singleton (cover_constr K_)).
  apply (for_add_constrs frame); [apply frame_add_constrs | | exact Hfr].
  intros j s Hj Hs. apply elem_of_range in Hj.
  rewrite (instantiated_K L_ K_ n_ P_ eps M_ s (proj1 Hs)).
  rewrite (comprehension_Ok _ (fun k => V (Vbinary j k))).
  - reflexivity.
  - intros k Hk. apply elem_of_range in Hk.
    apply (binary_at_inside L_ K_ n_ P_ eps M_ s (proj1 Hs) j k Hj Hk).
Qed.

Lemma fit_objective_frame self :
  frame self ->
  fit_objective self
  = Ok (set_m (setObjective (quicksum (map slack_expr (range P_))) (m self))
          self).
Proof.
  intros [Hi Hf]. unfold fit_objective.
  rewrite (instantiated_P L_ K_ n_ P_ eps M_ self Hi).
  rewrite (comprehension_Ok _ slack_expr).
  - reflexivity.
  - intros j Hj. apply elem_of_range in Hj. unfold slack_sum.
    rewrite (sigma_plus_x_at L_ K_ n_ P_ eps M_ self Hi j Hj).
    rewrite (sigma_plus_y_at L_ K_ n_ P_ eps M_ self Hi j Hj).
    rewrite (sigma_moins_x_at L_ K_ n_ P_ eps M_ self Hi j Hj).
    rewrite (sigma_moins_y_at L_ K_ n_ P_ eps M_ self Hi j Hj).
    reflexivity.
Qed.
End Constraints.

(** ** The utility loop of [fit] *)

Lemma for_invariant_Ok {St B : Type} (Inv : list B -> St -> Prop)
    (body : B -> St -> result St) (xs : list B) (s s' : St) :
  Inv [] s ->
  (forall done x rest s1 s2, xs = done ++ x :: rest -> Inv done s1 ->
     body x s1 = Ok s2 -> Inv (done ++ [x]) s2) ->
  for_ xs body s = Ok s' -> Inv xs s'.
Proof.
  revert Inv s. induction xs as [|x xs IH]; intros Inv s H0 Hstep Hf.
  - simpl in Hf. injection Hf as <-. exact H0.
  - simpl in Hf. apply bind_Ok in Hf as (s1 & Hb & Hf).
    apply (IH (fun done => Inv (x :: done)) s1).
    + apply (Hstep [] x xs s s1 eq_refl H0 Hb).
    + intros done y rest t1 t2 -> Hd Hy.
      apply (Hstep (x :: done) y rest t1 t2 eq_refl Hd Hy).
    + exact Hf.
Qed.

Section Utilities.
Import TwoClustersMIP.
Variables (L_ K_ n_ P_ : nat) (eps M_ : Q).
Variables (mins maxs : list Q) (X Y : ndarray Q).
Local Abbreviation instantiated := (instantiated L_ K_ n_ P_ eps M_).
Local Abbreviation self0 := (instantiate L_ K_ n_ P_ eps M_).
Local Abbreviation ux := (utility self0 mins maxs X).
Local Abbreviation uy := (utility self0 mins maxs Y).

(** [sum_u_i] reads only attributes that [fit] never assigns. *)
Lemma sum_u_i_statics (s1 s2 : t) (Z : ndarray Q) (j k : nat) :
  statics s1 = statics s2 ->
  sum_u_i s1 mins maxs j Z k = sum_u_i s2 mins maxs j Z k.
Proof.
  intros Hst.
  pose proof (f_equal L Hst) as HL. pose proof (f_equal n Hst) as Hn.
  pose proof (f_equal criteria Hst) as Hc.
  change (L s1 = L s2) in HL. change (n s1 = n s2) in Hn.
  change (criteria s1 = criteria s2) in Hc.
  unfold sum_u_i, u_i, li, xl, criteria_at.
  rewrite HL, Hn, Hc. reflexivity.
Qed.

Local Abbreviation stored := (stored self0 mins maxs X Y).

(** One iteration of the inner loop stores its row and keeps the
    others. *)
Lemma fit_utilities_step (s1 s2 : t) (k j : nat) :
  instantiated s1 ->
  (sx ← sum_u_i s1 mins maxs j X k;
   let s := set_sum_utilite (0, k, j) sx s1 in
   sy ← sum_u_i s mins maxs j Y k;
   Ok (set_sum_utilite (1, k, j) sy s)) = Ok s2 ->
  instantiated s2 /\ m s2 = m s1 /\ stored s2 k j /\
  (forall k' j', stored s1 k' j' -> stored s2 k' j').
Proof.
  intros Hs Hb.
  apply bind_Ok in Hb as (sx & Hsx & Hb). cbv zeta in Hb.
  apply bind_Ok in Hb as (sy & Hsy & Hb). injection Hb as <-.
  rewrite (sum_u_i_statics _ self0) in Hsx by exact Hs.
  rewrite (sum_u_i_statics _ self0) in Hsy by exact Hs.
  assert (Hux : ux k j = sx) by (unfold utility; rewrite Hsx; reflexivity).
  assert (Huy : uy k j = sy) by (unfold utility; rewrite Hsy; reflexivity).
  split; [exact Hs |]. split; [reflexivity |]. split.
  - unfold stored. rewrite Hux, Huy. cbn [sum_utilite set_sum_utilite].
    split; [| split; [| split; assumption]].
    + rewrite lookup_insert_ne by congruence. apply lookup_insert_eq.
    + apply lookup_insert_eq.
  - intros k' j' (H0 & H1 & Hx & Hy). unfold stored.
    cbn [sum_utilite set_sum_utilite].
    split; [| split; [| split; assumption]].
    + rewrite lookup_insert_ne by congruence.
      rewrite lookup_insert. case_decide as Hkey; [| exact H0].
      injection Hkey as <- <-. rewrite Hux. reflexivity.
    + rewrite lookup_insert. case_decide as Hkey.
      * injection Hkey as <- <-. rewrite Huy. reflexivity.
      * rewrite lookup_insert_ne by congruence. exact H1.
Qed.

(** If the utility loop returns, it has stored every row under every
    cluster and left the rest of the object alone. *)
Lemma fit_utilities_Ok (self self' : t) :
  instantiated self ->
  fit_utilities mins maxs X Y self = Ok self' ->
  instantiated self' /\ m self' = m self /\
  (forall k j, k < K_ -> j < P_ -> stored self' k j).
Proof.
  intros Hs Hf. unfold fit_utilities in Hf.
  rewrite (instantiated_K L_ K_ n_ P_ eps M_ self Hs) in Hf.
  pose (Inv := fun (done : list nat) (s : t) =>
    instantiated s /\ m s = m self /\
    (forall k j, k ∈ done -> j < P_ -> stored s k j)).
  apply (for_invariant_Ok Inv) in Hf.
  - destruct Hf as (Hi & Hm & Hst). split; [exact Hi |].
    split; [exact Hm |]. intros k j Hk Hj.
    apply Hst; [apply elem_of_range, Hk | exact Hj].
  - split; [exact Hs |]. split; [reflexivity |].
    intros k j Hk. inversion Hk.
  - intros done k rest s1 s2 _ (Hi1 & Hm1 & Hst1) Hin.
    rewrite (instantiated_P L_ K_ n_ P_ eps M_ s1 Hi1) in Hin.
    pose (Inv' := fun (dj : list nat) (s : t) =>
      instantiated s /\ m s = m self /\
      (forall k' j', k' ∈ done -> j' < P_ -> stored s k' j') /\
      (forall j', j' ∈ dj -> stored s k j')).
    apply (for_invariant_Ok Inv') in Hin.
    + destruct Hin as (Hi2 & Hm2 & Hold & Hnew).
      split; [exact Hi2 |]. split; [exact Hm2 |].
      intros k' j' Hk' Hj'. apply elem_of_app in Hk' as [Hk'|Hk'].
      * apply Hold; assumption.
      * apply list_elem_of_singleton in Hk' as ->.
        apply Hnew, elem_of_range, Hj'.
    + split; [exact Hi1 |]. split; [exact Hm1 |].
      split; [exact Hst1 |]. intros j' Hj'. inversion Hj'.
    + intros dj j restj t1 t2 _ (Hit & Hmt & Hold & Hnew) Hb.
      destruct (fit_utilities_step t1 t2 k j Hit Hb)
        as (Hi2 & Hm2 & Hkj & Hkeep).
      split; [exact Hi2 |]. split; [congruence |]. split.
      * intros k' j' Hk' Hj'. apply Hkeep, Hold; assumption.
      * intros j' Hj'. apply elem_of_app in Hj' as [Hj'|Hj'].
        -- apply Hkeep, Hnew, Hj'.
        -- apply list_elem_of_singleton in Hj' as ->. exact Hkj.
Qed.

(** The utility loop returns when [sum_u_i] does on every row. *)
Lemma fit_utilities_total (self : t) :
  instantiated self ->
  (forall k j, k < K_ -> j < P_ ->
     (exists e, sum_u_i self0 mins maxs j X k = Ok e) /\
     (exists e, sum_u_i self0 mins maxs j Y k = Ok e)) ->
  exists self', fit_utilities mins maxs X Y self = Ok self'.
Proof.
  intros Hs Hall. unfold fit_utilities.
  rewrite (instantiated_K L_ K_ n_ P_ eps M_ self Hs).
  destruct (for_invariant (fun _ s => instantiated s)
              (fun k self => for_ (range (P self)) (fun j self =>
                 sx ← sum_u_i self mins maxs j X k;
                 let self := set_sum_utilite (0, k, j) sx self in
                 sy ← sum_u_i self mins maxs j Y k;
                 Ok (set_sum_utilite (1, k, j) sy self)) self)
              (range K_) self Hs) as (self' & Hf & _).
  - intros done k rest s1 Hr Hi1.
    apply range_prefix in Hr as [_ Hk].
    rewrite (instantiated_P L_ K_ n_ P_ eps M_ s1 Hi1).
    apply (for_invariant (fun _ s => instantiated s)); [exact Hi1 |].
    intros dj j restj t1 Hrj Hit.
    apply range_prefix in Hrj as [_ Hj].
    destruct (Hall k j Hk Hj) as [[ex Hex] [ey Hey]].
    rewrite (sum_u_i_statics t1 self0) by exact Hit.
    rewrite Hex. cbn [mbind result_bind]. cbv zeta.
    rewrite (sum_u_i_statics _ self0) by exact Hit.
    rewrite Hey. cbn [mbind result_bind].
    eexists. split; [reflexivity | exact Hit].
  - exists self'. exact Hf.
Qed.
End Utilities.

(** ** [u_i] on the rows that were pooled *)

Section Pooled.
Import TwoClustersMIP.
Variables (L_ K_ n_ P_ : nat) (eps M_ : Q).
Variables X Y : ndarray Q.
Local Abbreviation self0 := (instantiate L_ K_ n_ P_ eps M_).
Local Abbreviation mins := (pooled qmin X Y).
Local Abbreviation maxs := (pooled qmax X Y).

Hypothesis HL : 1 <= L_.
Hypothesis Hcols : n_ <= shape1 X.

(** A row [j] of [Z], one of the two arrays that were pooled. *)
Variables (Z : ndarray Q) (j : nat).
Hypothesis Hj : j < shape0 Z.
Hypothesis HZcols : shape1 Z = shape1 X.
Hypothesis Hobs : forall i, observed X Y i (item Z j i).

Lemma u_i_pooled (i k : nat) :
  i < n_ -> k < K_ ->
  u_i self0 mins maxs j i Z k
  = Ok (u_i_expr L_ (default 0%Q (mins !! i)) (default 0%Q (maxs !! i))
          (item Z j i) k i).
Proof using HL Hcols Hj HZcols Hobs.
  intros Hi Hk.
  assert (Hx : np_getitem Z j i = Ok (item Z j i)).
  { unfold np_getitem.
    destruct (Nat.ltb_spec j (shape0 Z)); [| lia].
    destruct (Nat.ltb_spec i (shape1 Z)); [reflexivity | lia]. }
  destruct (pooled_bounds X Y i (item Z j i)) as (mn & mx & Hmn & Hmx & Hb);
    [lia | apply Hobs |].
  rewrite Hmn, Hmx. cbn [default from_option id].
  unfold u_i_expr. destruct (Qeq_bool (item Z j i) mx) eqn:He.
  - apply (u_i_at_max L_ K_ n_ P_ eps M_ self0 (instantiated_fresh _ _ _ _ _ _)
             mins maxs Z j i k (item Z j i) mx Hx Hmx Hk Hi).
    apply Qeq_bool_eq, He.
  - apply Qeq_bool_neq in He.
    apply (u_i_interior L_ K_ n_ P_ eps M_ self0
             (instantiated_fresh _ _ _ _ _ _)
             mins maxs Z j i k (item Z j i) mn mx Hx Hmn Hmx Hk Hi HL).
    + apply Hb.
    + destruct Hb as [_ Hle]. apply Qle_lt_or_eq in Hle as [Hlt|Heq];
        [exact Hlt | contradiction].
Qed.

Lemma sum_u_i_pooled (k : nat) :
  k < K_ ->
  sum_u_i self0 mins maxs j Z k = Ok (sum_u_i_expr L_ n_ mins maxs Z j k).
Proof using HL Hcols Hj HZcols Hobs.
  intros Hk. unfold sum_u_i.
  change (n self0) with n_.
  rewrite (comprehension_Ok _
             (fun i => u_i_expr L_ (default 0%Q (mins !! i))
                         (default 0%Q (maxs !! i)) (item Z j i) k i)).
  - reflexivity.
  - intros i Hi. apply elem_of_range in Hi. apply u_i_pooled; assumption.
Qed.
End Pooled.

(** ** [fit] as a whole *)

Section Fit.
Import TwoClustersMIP.
Variables (L_ K_ n_ P_ : nat) (eps M_ : Q).
Variables X Y : ndarray Q.
Local Abbreviation instantiated := (instantiated L_ K_ n_ P_ eps M_).
Local Abbreviation self0 := (instantiate L_ K_ n_ P_ eps M_).
Local Abbreviation mins := (pooled qmin X Y).
Local Abbreviation maxs := (pooled qmax X Y).
Local Abbreviation ux := (utility self0 mins maxs X).
Local Abbreviation uy := (utility self0 mins maxs Y).

(** The statements of [fit] after the pooling. *)
Lemma fit_after_pooling (self : t) :
  shape1 X = shape1 Y -> 0 < shape0 X + shape0 Y ->
  fit self X Y
  = (self ← fit_utilities mins maxs X Y self;
     self ← fit_bigM self;
     self ← fit_monotone self;
     self ← fit_zero self;
     self ← fit_normalize self;
     self ← fit_cover self;
     fit_objective self).
Proof.
  intros Hc Hr. unfold fit.
  rewrite (proj2 (np_concatenate_Ok X Y (stacked X Y)))
    by (split; [exact Hc | reflexivity]).
  cbn [mbind result_bind]. unfold np_min0, np_max0.
  rewrite !np_reduce0_stacked by exact Hr. reflexivity.
Qed.

(** Differing widths: the first statement raises. *)
Lemma fit_widths_differ (self : t) :
  shape1 X <> shape1 Y -> fit self X Y = Raise ValueError.
Proof.
  intros Hc. unfold fit, np_concatenate.
  destruct (Nat.eqb_spec (shape1 X) (shape1 Y)); [contradiction |].
  reflexivity.
Qed.

(** No rows at all: the reduction raises. *)
Lemma fit_no_rows (self : t) :
  shape0 X + shape0 Y = 0 -> fit self X Y = Raise ValueError.
Proof.
  intros Hr. unfold fit, np_concatenate.
  destruct (Nat.eqb_spec (shape1 X) (shape1 Y)); [| reflexivity].
  cbn [mbind result_bind]. unfold np_min0, np_reduce0. cbn [shape0].
  rewrite Hr. reflexivity.
Qed.

Lemma fit_Ok_pooling (self self' : t) :
  fit self X Y = Ok self' ->
  shape1 X = shape1 Y /\ 0 < shape0 X + shape0 Y.
Proof.
  intros Hf.
  destruct (Nat.eq_dec (shape1 X) (shape1 Y)) as [Hc|Hc].
  - split; [exact Hc |].
    destruct (Nat.eq_dec (shape0 X + shape0 Y) 0) as [Hr|Hr]; [| lia].
    rewrite (fit_no_rows self Hr) in Hf. discriminate.
  - rewrite (fit_widths_differ self Hc) in Hf. discriminate.
Qed.

Local Abbreviation fitted_model :=
  (fitted_model L_ K_ n_ P_ eps M_ ux uy).

(** The constraint loops and the objective, from a state in which the
    utilities are stored. *)
Lemma fit_tail (self : t) :
  frame L_ K_ n_ P_ eps M_ ux uy self -> m self = m self0 ->
  exists self',
    (self ← fit_bigM self;
     self ← fit_monotone self;
     self ← fit_zero self;
     self ← fit_normalize self;
     self ← fit_cover self;
     fit_objective self) = Ok self' /\
    frame L_ K_ n_ P_ eps M_ ux uy self' /\ m self' = fitted_model.
Proof.
  intros Hfr Hm.
  rewrite (fit_bigM_frame L_ K_ n_ P_ eps M_ ux uy self Hfr).
  cbn [mbind result_bind]. set (s1 := add_constrs _ self).
  assert (H1 : frame L_ K_ n_ P_ eps M_ ux uy s1)
    by apply frame_add_constrs, Hfr.
  rewrite (fit_monotone_frame L_ K_ n_ P_ eps M_ ux uy s1 H1).
  cbn [mbind result_bind]. set (s2 := add_constrs _ s1).
  assert (H2 : frame L_ K_ n_ P_ eps M_ ux uy s2)
    by apply frame_add_constrs, H1.
  rewrite (fit_zero_frame L_ K_ n_ P_ eps M_ ux uy s2 H2).
  cbn [mbind result_bind]. set (s3 := add_constrs _ s2).
  assert (H3 : frame L_ K_ n_ P_ eps M_ ux uy s3)
    by apply frame_add_constrs, H2.
  rewrite (fit_normalize_frame L_ K_ n_ P_ eps M_ ux uy s3 H3).
  cbn [mbind result_bind]. set (s4 := add_constrs _ s3).
  assert (H4 : frame L_ K_ n_ P_ eps M_ ux uy s4)
    by apply frame_add_constrs, H3.
  rewrite (fit_cover_frame L_ K_ n_ P_ eps M_ ux uy s4 H4).
  cbn [mbind result_bind]. set (s5 := add_constrs _ s4).
  assert (H5 : frame L_ K_ n_ P_ eps M_ ux uy s5)
    by apply frame_add_constrs, H4.
  rewrite (fit_objective_frame L_ K_ n_ P_ eps M_ ux uy s5 H5).
  eexists. split; [reflexivity |]. split; [exact H5 |].
  unfold s5, s4, s3, s2, s1. rewrite !add_constrs_app.
  unfold add_constrs, set_m, setObjective. cbn [m m_vars m_constrs].
  rewrite Hm. reflexivity.
Qed.

(** Every successful [fit] of a fresh object ends with the utilities of
    all [K_ * P_] rows stored and with the model [fitted_model]. *)
Lemma fit_Ok_inv (self' : t) :
  fit self0 X Y = Ok self' ->
  instantiated self' /\
  (forall k j, k < K_ -> j < P_ -> stored self0 mins maxs X Y self' k j) /\
  m self' = fitted_model.
Proof.
  intros Hf. destruct (fit_Ok_pooling self0 self' Hf) as [Hc Hr].
  rewrite (fit_after_pooling self0 Hc Hr) in Hf.
  apply bind_Ok in Hf as (s1 & Hu & Hf).
  destruct (fit_utilities_Ok L_ K_ n_ P_ eps M_ mins maxs X Y self0 s1
              (instantiated_fresh _ _ _ _ _ _) Hu) as (Hi1 & Hm1 & Hst).
  assert (Hfr : frame L_ K_ n_ P_ eps M_ ux uy s1).
  { split; [exact Hi1 |]. intros k j Hk Hj.
    destruct (Hst k j Hk Hj) as (H0 & H1 & _). split; assumption. }
  destruct (fit_tail s1 Hfr Hm1) as (s' & Hs' & Hfr' & Hm').
  rewrite Hs' in Hf. injection Hf as <-.
  split; [exact (proj1 Hfr') |]. split; [| exact Hm'].
  intros k j Hk Hj. destruct (Hst k j Hk Hj) as (_ & _ & Hx & Hy).
  destruct (proj2 Hfr' k j Hk Hj) as [H0 H1].
  repeat split; assumption.
Qed.

(** [fit] returns when the pooling succeeds and [sum_u_i] returns on
    the first [P_] rows of [X] and of [Y]. *)
Lemma fit_returns :
  shape1 X = shape1 Y -> 0 < shape0 X + shape0 Y ->
  (forall k j, k < K_ -> j < P_ ->
     (exists e, sum_u_i self0 mins maxs j X k = Ok e) /\
     (exists e, sum_u_i self0 mins maxs j Y k = Ok e)) ->
  exists self', fit self0 X Y = Ok self'.
Proof.
  intros Hc Hr Hall. rewrite (fit_after_pooling self0 Hc Hr).
  destruct (fit_utilities_total L_ K_ n_ P_ eps M_ mins maxs X Y self0
              (instantiated_fresh _ _ _ _ _ _) Hall) as (s1 & Hu).
  rewrite Hu. cbn [mbind result_bind].
  destruct (fit_utilities_Ok L_ K_ n_ P_ eps M_ mins maxs X Y self0 s1
              (instantiated_fresh _ _ _ _ _ _) Hu) as (Hi1 & Hm1 & Hst).
  assert (Hfr : frame L_ K_ n_ P_ eps M_ ux uy s1).
  { split; [exact Hi1 |]. intros k j Hk Hj.
    destruct (Hst k j Hk Hj) as (H0 & H1 & _). split; assumption. }
  destruct (fit_tail s1 Hfr Hm1) as (s' & Hs' & _).
  exists s'. exact Hs'.
Qed.

Local Abbreviation adequate := (adequate L_ n_ P_ X Y).

Lemma sum_u_i_adequate (k j : nat) :
  adequate -> k < K_ -> j < P_ ->
  sum_u_i self0 mins maxs j X k = Ok (sum_u_i_expr L_ n_ mins maxs X j k) /\
  sum_u_i self0 mins maxs j Y k = Ok (sum_u_i_expr L_ n_ mins maxs Y j k).
Proof.
  intros (HL & HPx & HPy & Hn & Hc & Hr) Hk Hj. split.
  - apply sum_u_i_pooled; try assumption; try lia.
    intros i. apply (observed_X X Y i _ j); [lia | reflexivity].
  - apply sum_u_i_pooled; try assumption; try lia.
    intros i. apply (observed_Y X Y i _ j); [lia | reflexivity].
Qed.

(** On adequate shapes [fit] returns. *)
Lemma fit_adequate :
  adequate -> exists self', fit self0 X Y = Ok self'.
Proof.
  intros Had. pose proof Had as (HL & HPx & HPy & Hn & Hc & Hr).
  apply fit_returns; [exact Hc | exact Hr |].
  intros k j Hk Hj.
  destruct (sum_u_i_adequate k j Had Hk Hj) as [Hx Hy].
  split; eexists; eassumption.
Qed.
End Fit.

(** ** The constraints of the fitted model *)

Section FitConstrs.
Import TwoClustersMIP.
Variables (L_ K_ n_ P_ : nat) (eps M_ : Q).
Variables ux uy : nat -> nat -> expr.
Local Abbreviation constrs := (fit_constrs L_ K_ n_ P_ eps M_ ux uy).

Lemma In_range (i stop : nat) : In i (range stop) <-> i < stop.
Proof. unfold range. rewrite in_seq. lia. Qed.

Lemma bigM_in_fit_constrs (j k : nat) (c : constr) :
  j < P_ -> k < K_ ->
  In c (bigM_constrs M_ eps (ux k j) (uy k j) j k) -> In c constrs.
Proof.
  intros Hj Hk Hc. unfold fit_constrs. apply in_or_app. left.
  apply in_flat_map. exists j. split; [apply In_range, Hj |].
  apply in_flat_map. exists k. split; [apply In_range, Hk | exact Hc].
Qed.

Lemma monotone_in_fit_constrs (k i l : nat) :
  k < K_ -> i < n_ -> l < L_ -> In (monotone_constr eps k i l) constrs.
Proof.
  intros Hk Hi Hl. unfold fit_constrs.
  apply in_or_app. right. apply in_or_app. left.
  apply in_flat_map. exists k. split; [apply In_range, Hk |].
  apply in_flat_map. exists i. split; [apply In_range, Hi |].
  apply in_map, In_range, Hl.
Qed.

Lemma zero_in_fit_constrs (k i : nat) :
  k < K_ -> i < n_ -> In (zero_constr k i) constrs.
Proof.
  intros Hk Hi. unfold fit_constrs.
  apply in_or_app. right. apply in_or_app. right. apply in_or_app. left.
  apply in_flat_map. exists k. split; [apply In_range, Hk |].
  apply in_map, In_range, Hi.
Qed.

Lemma normalize_in_fit_constrs (k : nat) :
  k < K_ -> In (normalize_constr n_ (L_ - 1) k) constrs.
Proof.
  intros Hk. unfold fit_constrs.
  apply in_or_app. right. apply in_or_app. right. apply in_or_app. right.
  apply in_or_app. left. apply in_map, In_range, Hk.
Qed.

Lemma cover_in_fit_constrs (j : nat) :
  j < P_ -> In (cover_constr K_ j) constrs.
Proof.
  intros Hj. unfold fit_constrs.
  apply in_or_app. right. apply in_or_app. right. apply in_or_app. right.
  apply in_or_app. right. apply in_map, In_range, Hj.
Qed.

(** The constraints of the model, by the loop that added them. *)
Lemma fit_constrs_inv (c : constr) :
  In c constrs ->
  (exists j k, j < P_ /\ k < K_ /\
               In c (bigM_constrs M_ eps (ux k j) (uy k j) j k)) \/
  (exists k i l, k < K_ /\ i < n_ /\ l < L_ /\
                 c = monotone_constr eps k i l) \/
  (exists k i, k < K_ /\ i < n_ /\ c = zero_constr k i) \/
  (exists k, k < K_ /\ c = normalize_constr n_ (L_ - 1) k) \/
  (exists j, j < P_ /\ c = cover_constr K_ j).
Proof.
  unfold fit_constrs. intros Hc.
  apply in_app_or in Hc as [Hc|Hc].
  { left. apply in_flat_map in Hc as (j & Hj & Hc).
    apply in_flat_map in Hc as (k & Hk & Hc).
    exists j, k. rewrite In_range in Hj, Hk. auto. }
  apply in_app_or in Hc as [Hc|Hc].
  { right. left. apply in_flat_map in Hc as (k & Hk & Hc).
    apply in_flat_map in Hc as (i & Hi & Hc).
    apply in_map_iff in Hc as (l & <- & Hl).
    exists k, i, l. rewrite In_range in Hk, Hi, Hl. auto. }
  apply in_app_or in Hc as [Hc|Hc].
  { right. right. left. apply in_flat_map in Hc as (k & Hk & Hc).
    apply in_map_iff in Hc as (i & <- & Hi).
    exists k, i. rewrite In_range in Hk, Hi. auto. }
  apply in_app_or in Hc as [Hc|Hc].
  { right. right. right. left. apply in_map_iff in Hc as (k & <- & Hk).
    exists k. rewrite In_range in Hk. auto. }
  right. right. right. right. apply in_map_iff in Hc as (j & <- & Hj).
  exists j. rewrite In_range in Hj. auto.
Qed.

(** The number of normalisation constraints of cluster [k]. *)
Lemma fit_constrs_length :
  length constrs
  = P_ * (K_ * 2) + K_ * (n_ * L_) + K_ * n_ + K_ + P_.
Proof.
  assert (Hflat : forall (A : Type) (f : nat -> list A) (len stop : nat),
             (forall x, length (f x) = len) ->
             length (flat_map f (range stop)) = stop * len).
  { intros A f len stop Hlen. unfold range. generalize 0.
    induction stop as [|stop IH]; intros start; simpl; [reflexivity |].
    rewrite length_app, Hlen, IH. reflexivity. }
  unfold fit_constrs. rewrite !length_app, !length_map.
  rewrite (Hflat _ _ (K_ * 2)).
  2:{ intros j. apply Hflat. reflexivity. }
  rewrite (Hflat _ _ (n_ * L_)).
  2:{ intros k. apply Hflat. intros i. rewrite length_map.
      unfold range. apply length_seq. }
  rewrite (Hflat _ _ n_).
  2:{ intros k. rewrite length_map. unfold range. apply length_seq. }
  unfold range. rewrite !length_seq. lia.
Qed.
End FitConstrs.

(** * The claims *)

(** ** Zero point, monotonicity and coverage *)

Lemma eval_sum_of_vars (a : assignment) (f : nat -> var) (xs : list nat) :
  (eval a (quicksum (map (fun i => V (f i)) xs))
   == fold_right Qplus 0 (map (fun i => a (f i)) xs))%Q.
Proof. rewrite eval_quicksum, map_map. reflexivity. Qed.

(** C8.  After a [fit] of a fresh model that returned, the model holds:
    for every cluster [k] and feature [i] the constraint
    [u[k][i][0] == 0]; for every [l < L] the constraint
    [u[k][i][l+1] - u[k][i][l] >= epsilon]; for every pair [j] a
    constraint [e >= 1] whose left-hand side [e] has, under every
    assignment, the value of the sum of [binary[j][k]] over the
    clusters [k]. *)
Theorem fit_adds_zero_monotone_cover
    (n_pieces n_clusters : nat) (X Y : ndarray Q)
    (self' : TwoClustersMIP.t) :
  TwoClustersMIP.fit (TwoClustersMIP.init n_pieces n_clusters) X Y
  = Ok self' ->
  (forall k i, k < n_clusters -> i < 4 ->
     In (mk_constr (V (Vu k i 0)) EQ (Const 0))
        (m_constrs (TwoClustersMIP.m self')) /\
     forall l, l < n_pieces ->
       In (mk_constr (Sub (V (Vu k i (l + 1))) (V (Vu k i l))) GE
             (Const (1 # 1000)))
          (m_constrs (TwoClustersMIP.m self'))) /\
  (forall j, j < 2000 ->
     exists e,
       In (mk_constr e GE (Const 1)) (m_constrs (TwoClustersMIP.m self')) /\
       forall a : assignment,
         (eval a e
          == fold_right Qplus 0
               (map (fun k => a (Vbinary j k)) (range n_clusters)))%Q).
Proof.
  unfold TwoClustersMIP.init. intros Hf.
  destruct (fit_Ok_inv _ _ _ _ _ _ X Y self' Hf) as (Hi & _ & Hm).
  rewrite Hm.
  unfold TwoClustersMIP.fitted_model. cbn [m_constrs].
  split.
  - intros k i Hk Hi4. split.
    + apply (zero_in_fit_constrs _ _ _ _ _ _ _ _ k i Hk Hi4).
    + intros l Hl.
      apply (monotone_in_fit_constrs _ _ _ _ _ _ _ _ k i l Hk Hi4 Hl).
  - intros j Hj. eexists. split.
    + apply (cover_in_fit_constrs _ _ _ _ _ _ _ _ j Hj).
    + intros a. apply (eval_sum_of_vars a (fun k => Vbinary j k)).
Qed.

Lemma adequate_ex (n_pieces : nat) :
  1 <= n_pieces -> TwoClustersMIP.adequate n_pieces 4 2000 X_ex Y_ex.
Proof.
  intros HL. unfold TwoClustersMIP.adequate. cbn [shape0 shape1 X_ex Y_ex].
  repeat split; try lia; exact HL.
Qed.

Lemma fit_adds_zero_monotone_cover_witness :
  exists self',
    TwoClustersMIP.fit (TwoClustersMIP.init 2 2) X_ex Y_ex = Ok self' /\
    (forall k i, k < 2 -> i < 4 ->
       In (mk_constr (V (Vu k i 0)) EQ (Const 0))
          (m_constrs (TwoClustersMIP.m self')) /\
       forall l, l < 2 ->
         In (mk_constr (Sub (V (Vu k i (l + 1))) (V (Vu k i l))) GE
               (Const (1 # 1000)))
            (m_constrs (TwoClustersMIP.m self'))) /\
    (forall j, j < 2000 ->
       exists e,
         In (mk_constr e GE (Const 1)) (m_constrs (TwoClustersMIP.m self')) /\
         forall a : assignment,
           (eval a e
            == fold_right Qplus 0
                 (map (fun k => a (Vbinary j k)) (range 2)))%Q).
Proof.
  destruct (fit_adequate 2 2 4 2000 (1 # 1000) 5 X_ex Y_ex
              (adequate_ex 2 (le_S 1 1 (le_n 1)))) as [self' Hf].
  exists self'. split; [exact Hf |].
  apply (fit_adds_zero_monotone_cover 2 2 X_ex Y_ex self' Hf).
Defined.

(** ** Normalisation *)









(** ** The big-M pair *)

(** The value of the left-hand side of the big-M constraints: the slack
    pair of [X] is subtracted, the slack pair of [Y] is added. *)
Lemma eval_bigM_expr (a : assignment) (utilX utilY : expr) (j : nat) :
  (eval a (TwoClustersMIP.bigM_expr utilX utilY j)
   == eval a utilX - eval a utilY
      - (a (Vsigma_plus_x j) - a (Vsigma_moins_x j))
      + (a (Vsigma_plus_y j) - a (Vsigma_moins_y j)))%Q.
Proof. unfold TwoClustersMIP.bigM_expr. cbn [eval]. ring. Qed.

(** The only [>=] constraint of the model whose right-hand side is the
    big-M term of [binary[j][k]] is the one of pair [j], cluster [k]. *)
Lemma bigM_ge_unique (L_ K_ n_ P_ : nat) (eps M_ : Q)
    (ux uy : nat -> nat -> expr) (e : expr) (j k : nat) :
  In (mk_constr e GE (Mul (Const (- M_)) (Sub (Const 1) (V (Vbinary j k)))))
     (TwoClustersMIP.fit_constrs L_ K_ n_ P_ eps M_ ux uy) ->
  e = TwoClustersMIP.bigM_expr (ux k j) (uy k j) j.
Proof.
  intros Hin. apply fit_constrs_inv in Hin
    as [(j' & k' & _ & _ & Hc)|[(k' & i & l & _ & _ & _ & Hc)|
        [(k' & i & _ & _ & Hc)|[(k' & _ & Hc)|(j' & _ & Hc)]]]].
  - destruct Hc as [Hc|[Hc|[]]].
    + injection Hc as He Hj Hk. subst j' k'. symmetry. exact He.
    + discriminate Hc.
  - discriminate Hc.
  - discriminate Hc.
  - discriminate Hc.
  - discriminate Hc.
Qed.

(** C3, as the code has it.  After a [fit] of a fresh model that
    returned, for every pair [j] and cluster [k] the model holds
    [expr >= -M * (1 - binary[j][k])] and
    [expr <= M * binary[j][k] - epsilon], with [M = 5],
    [epsilon = 0.001] and [expr] the utility of [X[j]] minus the utility
    of [Y[j]] MINUS [(sigma_plus_x[j] - sigma_moins_x[j])] PLUS
    [(sigma_plus_y[j] - sigma_moins_y[j])].  The utility of [X[j]] is
    the sum [quicksum([u_i(j, i, X, k) for i in range(n)])], kept under
    the key [(0, k, j)] of [sum_utilite]; that of [Y[j]] is the same sum
    over [Y], kept under [(1, k, j)]. *)
Theorem fit_adds_bigM_pair
    (n_pieces n_clusters : nat) (X Y : ndarray Q)
    (self' : TwoClustersMIP.t) :
  TwoClustersMIP.fit (TwoClustersMIP.init n_pieces n_clusters) X Y
  = Ok self' ->
  forall j k, j < 2000 -> k < n_clusters ->
    exists utilX utilY e,
      TwoClustersMIP.sum_u_i (TwoClustersMIP.init n_pieces n_clusters)
        (pooled qmin X Y) (pooled qmax X Y) j X k = Ok utilX /\
      TwoClustersMIP.sum_u_i (TwoClustersMIP.init n_pieces n_clusters)
        (pooled qmin X Y) (pooled qmax X Y) j Y k = Ok utilY /\
      TwoClustersMIP.sum_utilite self' !! (0, k, j) = Some utilX /\
      TwoClustersMIP.sum_utilite self' !! (1, k, j) = Some utilY /\
      In (mk_constr e GE
            (Mul (Const (- 5)) (Sub (Const 1) (V (Vbinary j k)))))
         (m_constrs (TwoClustersMIP.m self')) /\
      In (mk_constr e LE
            (Sub (Mul (Const 5) (V (Vbinary j k))) (Const (1 # 1000))))
         (m_constrs (TwoClustersMIP.m self')) /\
      forall a : assignment,
        (eval a e
         == eval a utilX - eval a utilY
            - (a (Vsigma_plus_x j) - a (Vsigma_moins_x j))
            + (a (Vsigma_plus_y j) - a (Vsigma_moins_y j)))%Q.
Proof.
  unfold TwoClustersMIP.init. intros Hf.
  destruct (fit_Ok_inv _ _ _ _ _ _ X Y self' Hf) as (_ & Hst & Hm).
  rewrite Hm. unfold TwoClustersMIP.fitted_model. cbn [m_constrs].
  intros j k Hj Hk. destruct (Hst k j Hk Hj) as (H0 & H1 & Hx & Hy).
  eexists _, _, _. split; [exact Hx |]. split; [exact Hy |].
  split; [exact H0 |]. split; [exact H1 |].
  split; [| split].
  - apply (bigM_in_fit_constrs _ _ _ _ _ _ _ _ j k _ Hj Hk). left. reflexivity.
  - apply (bigM_in_fit_constrs _ _ _ _ _ _ _ _ j k _ Hj Hk).
    right. left. reflexivity.
  - intros a. apply eval_bigM_expr.
Qed.

Lemma fit_adds_bigM_pair_witness :
  exists self',
    TwoClustersMIP.fit (TwoClustersMIP.init 2 2) X_ex Y_ex = Ok self' /\
    forall j k, j < 2000 -> k < 2 ->
      exists utilX utilY e,
        TwoClustersMIP.sum_u_i (TwoClustersMIP.init 2 2)
          (pooled qmin X_ex Y_ex) (pooled qmax X_ex Y_ex) j X_ex k
        = Ok utilX /\
        TwoClustersMIP.sum_u_i (TwoClustersMIP.init 2 2)
          (pooled qmin X_ex Y_ex) (pooled qmax X_ex Y_ex) j Y_ex k
        = Ok utilY /\
        TwoClustersMIP.sum_utilite self' !! (0, k, j) = Some utilX /\
        TwoClustersMIP.sum_utilite self' !! (1, k, j) = Some utilY /\
        In (mk_constr e GE
              (Mul (Const (- 5)) (Sub (Const 1) (V (Vbinary j k)))))
           (m_constrs (TwoClustersMIP.m self')) /\
        In (mk_constr e LE
              (Sub (Mul (Const 5) (V (Vbinary j k))) (Const (1 # 1000))))
           (m_constrs (TwoClustersMIP.m self')) /\
        forall a : assignment,
          (eval a e
           == eval a utilX - eval a utilY
              - (a (Vsigma_plus_x j) - a (Vsigma_moins_x j))
              + (a (Vsigma_plus_y j) - a (Vsigma_moins_y j)))%Q.
Proof.
  destruct (fit_adequate 2 2 4 2000 (1 # 1000) 5 X_ex Y_ex
              (adequate_ex 2 (le_S 1 1 (le_n 1)))) as [self' Hf].
  exists self'. split; [exact Hf |].
  apply (fit_adds_bigM_pair 2 2 X_ex Y_ex self' Hf).
Defined.

(** No [>=] constraint with the big-M term of [binary[j][k]] has a
    left-hand side that adds the slack pair of [X] and subtracts the
    slack pair of [Y]. *)
Lemma bigM_spec_signs_absent (L_ K_ n_ P_ : nat) (eps M_ : Q)
    (ux uy : nat -> nat -> expr) (e : expr) (j k : nat) :
  In (mk_constr e GE (Mul (Const (- M_)) (Sub (Const 1) (V (Vbinary j k)))))
     (TwoClustersMIP.fit_constrs L_ K_ n_ P_ eps M_ ux uy) ->
  ~ forall a : assignment,
      (eval a e
       == eval a (ux k j) - eval a (uy k j)
          + (a (Vsigma_plus_x j) - a (Vsigma_moins_x j))
          - (a (Vsigma_plus_y j) - a (Vsigma_moins_y j)))%Q.
Proof.
  intros Hin Hval. apply bigM_ge_unique in Hin. subst e.
  specialize (Hval (only (Vsigma_plus_x j))).
  rewrite eval_bigM_expr in Hval.
  assert (H1 : only (Vsigma_plus_x j) (Vsigma_plus_x j) = 1%Q).
  { unfold only. destruct (decide (Vsigma_plus_x j = Vsigma_plus_x j));
      [reflexivity | congruence]. }
  assert (H0 : forall v, v <> Vsigma_plus_x j ->
                 only (Vsigma_plus_x j) v = 0%Q).
  { intros v Hv. unfold only.
    destruct (decide (v = Vsigma_plus_x j)); [contradiction | reflexivity]. }
  rewrite H1, !H0 in Hval by discriminate. lra.
Qed.

(** The same for a fresh model after [fit]. *)
Lemma fit_bigM_spec_signs_absent (L_ K_ n_ P_ : nat) (eps M_ : Q)
    (X Y : ndarray Q) (self' : TwoClustersMIP.t) (j k : nat) :
  TwoClustersMIP.fit (TwoClustersMIP.instantiate L_ K_ n_ P_ eps M_) X Y
  = Ok self' ->
  j < P_ -> k < K_ ->
  ~ exists utilX utilY e,
      TwoClustersMIP.sum_utilite self' !! (0, k, j) = Some utilX /\
      TwoClustersMIP.sum_utilite self' !! (1, k, j) = Some utilY /\
      In (mk_constr e GE
            (Mul (Const (- M_)) (Sub (Const 1) (V (Vbinary j k)))))
         (m_constrs (TwoClustersMIP.m self')) /\
      forall a : assignment,
        (eval a e
         == eval a utilX - eval a utilY
            + (a (Vsigma_plus_x j) - a (Vsigma_moins_x j))
            - (a (Vsigma_plus_y j) - a (Vsigma_moins_y j)))%Q.
Proof.
  intros Hf Hj Hk (utilX & utilY & e & H0 & H1 & Hin & Hval).
  destruct (fit_Ok_inv _ _ _ _ _ _ X Y self' Hf) as (_ & Hst & Hm).
  destruct (Hst k j Hk Hj) as (H0' & H1' & _).
  assert (HX : utilX = TwoClustersMIP.utility
                         (TwoClustersMIP.instantiate L_ K_ n_ P_ eps M_)
                         (pooled qmin X Y) (pooled qmax X Y) X k j)
    by congruence.
  assert (HY : utilY = TwoClustersMIP.utility
                         (TwoClustersMIP.instantiate L_ K_ n_ P_ eps M_)
                         (pooled qmin X Y) (pooled qmax X Y) Y k j)
    by congruence.
  subst utilX utilY. rewrite Hm in Hin.
  unfold TwoClustersMIP.fitted_model in Hin. cbn [m_constrs] in Hin.
  exact (bigM_spec_signs_absent _ _ _ _ _ _ _ _ e j k Hin Hval).
Qed.

(** C3, as the specification words it, fails on the first pair of the
    sample training set: [fit] returns, and no [>=] constraint with the
    big-M term of [binary[0][0]] has a left-hand side whose value is the
    utility difference PLUS the slack pair of [X] MINUS the slack pair
    of [Y]. *)
Lemma fit_bigM_slack_signs_counterexample :
  exists self',
    TwoClustersMIP.fit (TwoClustersMIP.init 2 2) X_ex Y_ex = Ok self' /\
    ~ exists utilX utilY e,
        TwoClustersMIP.sum_utilite self' !! (0, 0, 0) = Some utilX /\
        TwoClustersMIP.sum_utilite self' !! (1, 0, 0) = Some utilY /\
        In (mk_constr e GE
              (Mul (Const (- 5)) (Sub (Const 1) (V (Vbinary 0 0)))))
           (m_constrs (TwoClustersMIP.m self')) /\
        forall a : assignment,
          (eval a e
           == eval a utilX - eval a utilY
              + (a (Vsigma_plus_x 0) - a (Vsigma_moins_x 0))
              - (a (Vsigma_plus_y 0) - a (Vsigma_moins_y 0)))%Q.
Proof.
  destruct (fit_adequate 2 2 4 2000 (1 # 1000) 5 X_ex Y_ex
              (adequate_ex 2 (le_S 1 1 (le_n 1)))) as [self' Hf].
  exists self'. split; [exact Hf |].
  apply (fit_bigM_spec_signs_absent 2 2 4 2000 (1 # 1000) 5 X_ex Y_ex
           self' 0 0 Hf); lia.
Qed.

(** ** Prediction *)

Lemma for_unit_Ok {B : Type} (body : B -> unit -> result unit)
    (xs : list B) :
  (forall x, x ∈ xs -> body x tt = Ok tt) -> for_ xs body tt = Ok tt.
Proof.
  induction xs as [|x xs IH]; intros Hb; simpl.
  - reflexivity.
  - rewrite (Hb x) by left. simpl. apply IH.
    intros y Hy. apply Hb. right. exact Hy.
Qed.

(** Once every row is stored, the loop of [predict_utility] raises
    nothing and the zeros of [decision_function] are returned. *)
Lemma predict_utility_stored (L_ K_ n_ P_ : nat) (eps M_ : Q)
    (ux uy : nat -> nat -> expr) (self : TwoClustersMIP.t)
    (X' : ndarray Q) :
  TwoClustersMIP.frame L_ K_ n_ P_ eps M_ ux uy self ->
  TwoClustersMIP.predict_utility self X' = Ok (np_zeros (shape0 X') K_).
Proof.
  intros [Hi Hf]. unfold TwoClustersMIP.predict_utility.
  rewrite (instantiated_K _ _ _ _ _ _ self Hi).
  rewrite for_unit_Ok; [reflexivity |].
  intros k Hk. apply elem_of_range in Hk.
  rewrite (instantiated_n _ _ _ _ _ _ self Hi).
  apply for_unit_Ok. intros i Hi'. apply elem_of_range in Hi'.
  rewrite (instantiated_P _ _ _ _ _ _ self Hi).
  apply for_unit_Ok. intros j Hj. apply elem_of_range in Hj.
  unfold TwoClustersMIP.sum_utilite_at.
  rewrite (proj1 (Hf k j Hk Hj)). cbn [mbind result_bind].
  rewrite (criteria_at_inside _ _ _ _ _ _ self Hi k i 0 Hk Hi') by lia.
  reflexivity.
Qed.

Lemma broadcast_dim_same (a : nat) : broadcast_dim a a = Ok a.
Proof. unfold broadcast_dim. rewrite Nat.eqb_refl. reflexivity. Qed.

(** [argmax_from] keeps its candidate when nothing later is greater. *)
Lemma argmax_from_keeps (best : Q) (besti i : nat) (xs : list Q) :
  (forall x, In x xs -> (x <= best)%Q) ->
  argmax_from best besti i xs = besti.
Proof.
  revert i. induction xs as [|x xs IH]; intros i Hle; simpl.
  - reflexivity.
  - destruct (Qlt_le_dec best x) as [Hlt|_].
    + exfalso. apply (Qlt_not_le _ _ Hlt). apply Hle. left. reflexivity.
    + apply IH. intros y Hy. apply Hle. right. exact Hy.
Qed.

Lemma map_const_range {A : Type} (c : A) (stop : nat) :
  map (fun _ => c) (range stop) = repeat c stop.
Proof.
  unfold range. generalize 0.
  induction stop as [|stop IH]; intros start; simpl.
  - reflexivity.
  - rewrite IH. reflexivity.
Qed.

(** The row-wise argmax of a difference of two all-zero matrices. *)
Lemma np_argmax1_zeros (rows cols : nat) (d : ndarray Q) :
  1 <= cols ->
  np_sub (np_zeros rows cols) (np_zeros rows cols) = Ok d ->
  np_argmax1 d = Ok (repeat 0 rows).
Proof.
  intros Hc Hd. unfold np_sub in Hd. cbn [shape0 shape1 np_zeros] in Hd.
  rewrite !broadcast_dim_same in Hd. cbn [mbind result_bind] in Hd.
  injection Hd as <-. unfold np_argmax1. cbn [shape0 shape1].
  destruct (Nat.eqb_spec cols 0) as [H0|_]; [lia |].
  rewrite (comprehension_Ok _ (fun _ => 0)).
  - rewrite map_const_range. reflexivity.
  - intros j _. unfold row. cbn [shape1 item].
    destruct cols as [|cols']; [lia |].
    unfold range. cbn [seq map argmax_row]. f_equal.
    apply argmax_from_keeps. intros x Hx.
    apply in_map_iff in Hx as (i & <- & _). apply Qle_refl.
Qed.

(** C4.  After a [fit] that returned, [predict_utility] returns the
    all-zeros matrix of shape [(n_samples, K)] for every input; hence
    [predict_preference] returns an all-zeros matrix on batches of equal
    length, and [predict_cluster] returns cluster 0 for every sample
    (there is then at least one cluster). *)
Theorem predict_utility_is_zero
    (n_pieces n_clusters : nat) (X Y : ndarray Q)
    (self' : TwoClustersMIP.t) :
  TwoClustersMIP.fit (TwoClustersMIP.init n_pieces n_clusters) X Y
  = Ok self' ->
  (forall X', TwoClustersMIP.predict_utility self' X'
              = Ok (np_zeros (shape0 X') n_clusters)) /\
  (forall X' Y', shape0 X' = shape0 Y' ->
     exists R, predict_preference self' X' Y' = Ok R /\
               shape0 R = shape0 X' /\ shape1 R = n_clusters /\
               forall j k, item R j k = 0%Z) /\
  (forall X' Y', shape0 X' = shape0 Y' -> 1 <= n_clusters ->
     predict_cluster self' X' Y' = Ok (repeat 0 (shape0 X'))).
Proof.
  unfold TwoClustersMIP.init. intros Hf.
  destruct (fit_Ok_inv _ _ _ _ _ _ X Y self' Hf) as (Hi & Hst & _).
  set (mins := pooled qmin X Y) in *. set (maxs := pooled qmax X Y) in *.
  set (self0 := TwoClustersMIP.instantiate _ _ _ _ _ _) in *.
  assert (Hfr : TwoClustersMIP.frame n_pieces n_clusters 4 2000 (1 # 1000) 5
                  (TwoClustersMIP.utility self0 mins maxs X)
                  (TwoClustersMIP.utility self0 mins maxs Y) self').
  { split; [exact Hi |]. intros k j Hk Hj.
    destruct (Hst k j Hk Hj) as (H0 & H1 & _). split; assumption. }
  assert (Hz : forall X', TwoClustersMIP.predict_utility self' X'
                          = Ok (np_zeros (shape0 X') n_clusters)).
  { intros X'. apply (predict_utility_stored _ _ _ _ _ _ _ _ self' X' Hfr). }
  split; [exact Hz |]. split.
  - intros X' Y' Hrows. unfold predict_preference.
    cbn [predict_utility TwoClustersMIP.TwoClustersMIP_BaseModel].
    rewrite !Hz. cbn [mbind result_bind]. rewrite <- Hrows.
    unfold np_sub. cbn [shape0 shape1 np_zeros].
    rewrite !broadcast_dim_same. cbn [mbind result_bind].
    eexists. split; [reflexivity |]. cbn [shape0 shape1 np_gt0_int].
    split; [reflexivity |]. split; [reflexivity |].
    intros j k. reflexivity.
  - intros X' Y' Hrows HK. unfold predict_cluster.
    cbn [predict_utility TwoClustersMIP.TwoClustersMIP_BaseModel].
    rewrite !Hz. cbn [mbind result_bind]. rewrite <- Hrows.
    destruct (np_sub (np_zeros (shape0 X') n_clusters)
                (np_zeros (shape0 X') n_clusters)) as [d|e] eqn:Hd.
    + cbn [mbind result_bind]. apply (np_argmax1_zeros _ n_clusters d HK Hd).
    + unfold np_sub in Hd. cbn [shape0 shape1 np_zeros] in Hd.
      rewrite !broadcast_dim_same in Hd. discriminate Hd.
Qed.

Lemma predict_utility_is_zero_witness :
  exists self',
    TwoClustersMIP.fit (TwoClustersMIP.init 2 2) X_ex Y_ex = Ok self' /\
    TwoClustersMIP.predict_utility self' X_ex = Ok (np_zeros 2000 2) /\
    predict_cluster self' X_ex Y_ex = Ok (repeat 0 2000).
Proof.
  destruct (fit_adequate 2 2 4 2000 (1 # 1000) 5 X_ex Y_ex
              (adequate_ex 2 (le_S 1 1 (le_n 1)))) as [self' Hf].
  exists self'. split; [exact Hf |].
  destruct (predict_utility_is_zero 2 2 X_ex Y_ex self' Hf) as (H1 & _ & H3).
  split.
  - exact (H1 X_ex).
  - exact (H3 X_ex Y_ex eq_refl (le_S 1 1 (le_n 1))).
Defined.

(** C4, as the specification words it, fails after a [fit] that
    returned: [X_ex] has 2000 rows and [Y_long] has 2001, the two zero
    matrices of utilities cannot be subtracted, and [predict_preference]
    and [predict_cluster] end in numpy's [ValueError] where the
    specification has an all-zeros matrix and cluster 0. *)
Lemma predict_unequal_batches_counterexample :
  exists self',
    TwoClustersMIP.fit (TwoClustersMIP.init 2 2) X_ex Y_ex = Ok self' /\
    TwoClustersMIP.predict_utility self' X_ex = Ok (np_zeros 2000 2) /\
    TwoClustersMIP.predict_utility self' Y_long = Ok (np_zeros 2001 2) /\
    predict_preference self' X_ex Y_long = Raise ValueError /\
    predict_cluster self' X_ex Y_long = Raise ValueError.
Proof.
  destruct (fit_adequate 2 2 4 2000 (1 # 1000) 5 X_ex Y_ex
              (adequate_ex 2 (le_S 1 1 (le_n 1)))) as [self' Hf].
  exists self'. split; [exact Hf |].
  destruct (fit_Ok_inv _ _ _ _ _ _ X_ex Y_ex self' Hf) as (Hi & Hst & _).
  assert (Hz : forall X', TwoClustersMIP.predict_utility self' X'
                          = Ok (np_zeros (shape0 X') 2)).
  { intros X'.
    apply (predict_utility_stored 2 2 4 2000 (1 # 1000) 5
             (TwoClustersMIP.utility
                (TwoClustersMIP.instantiate 2 2 4 2000 (1 # 1000) 5)
                (pooled qmin X_ex Y_ex) (pooled qmax X_ex Y_ex) X_ex)
             (TwoClustersMIP.utility
                (TwoClustersMIP.instantiate 2 2 4 2000 (1 # 1000) 5)
                (pooled qmin X_ex Y_ex) (pooled qmax X_ex Y_ex) Y_ex)
             self' X').
    split; [exact Hi |]. intros k j Hk Hj.
    destruct (Hst k j Hk Hj) as (H0 & H1 & _). split; assumption. }
  split; [exact (Hz X_ex) |]. split; [exact (Hz Y_long) |].
  unfold predict_preference, predict_cluster.
  cbn [predict_utility TwoClustersMIP.TwoClustersMIP_BaseModel].
  rewrite !Hz. cbn [mbind result_bind shape0 X_ex Y_long].
  unfold np_sub. cbn [shape0 shape1 np_zeros].
  assert (Hb : broadcast_dim 2000 2001 = Raise ValueError)
    by (vm_compute; reflexivity).
  rewrite Hb. split; reflexivity.
Qed.

(** ** Degenerate features *)

(** C5, as the code has it.  When the pooled minimum and maximum of
    feature [i] coincide, no error is raised for that feature and
    nothing is divided: for every one of the 2000 rows of [X] and of [Y]
    (arrays of at least 2000 rows and 4 columns) the value equals the
    maximum, and [u_i] returns the last breakpoint variable
    [u[k][i][L]] before the segment index is computed. *)
Theorem fit_accepts_degenerate_feature
    (n_pieces n_clusters : nat) (X Y : ndarray Q) (i : nat) (mn mx : Q) :
  TwoClustersMIP.adequate n_pieces 4 2000 X Y ->
  i < 4 ->
  pooled qmin X Y !! i = Some mn ->
  pooled qmax X Y !! i = Some mx ->
  (mn == mx)%Q ->
  forall j k, j < 2000 -> k < n_clusters ->
    TwoClustersMIP.u_i (TwoClustersMIP.init n_pieces n_clusters)
      (pooled qmin X Y) (pooled qmax X Y) j i X k
    = Ok (V (Vu k i n_pieces)) /\
    TwoClustersMIP.u_i (TwoClustersMIP.init n_pieces n_clusters)
      (pooled qmin X Y) (pooled qmax X Y) j i Y k
    = Ok (V (Vu k i n_pieces)).
Proof.
  intros Had Hi Hmn Hmx Heq. unfold TwoClustersMIP.init.
  destruct Had as (HL & HPx & HPy & Hn & Hc & Hr).
  intros j k Hj Hk.
  assert (Hat : forall Z, shape1 Z = shape1 X -> j < shape0 Z ->
                  observed X Y i (item Z j i) ->
                  TwoClustersMIP.u_i
                    (TwoClustersMIP.instantiate n_pieces n_clusters 4 2000
                       (1 # 1000) 5)
                    (pooled qmin X Y) (pooled qmax X Y) j i Z k
                  = Ok (V (Vu k i n_pieces))).
  { intros Z HZc HZr Hobs.
    destruct (pooled_bounds X Y i (item Z j i)) as (mn' & mx' & Hmn' & Hmx' & Hb);
      [lia | exact Hobs |].
    rewrite Hmn in Hmn'. rewrite Hmx in Hmx'.
    injection Hmn' as <-. injection Hmx' as <-.
    apply (u_i_at_max n_pieces n_clusters 4 2000 (1 # 1000) 5 _
             (instantiated_fresh _ _ _ _ _ _)
             (pooled qmin X Y) (pooled qmax X Y) Z j i k (item Z j i) mx).
    - unfold np_getitem.
      destruct (Nat.ltb_spec j (shape0 Z)); [| lia].
      destruct (Nat.ltb_spec i (shape1 Z)); [reflexivity | lia].
    - exact Hmx.
    - exact Hk.
    - exact Hi.
    - lra. }
  split.
  - apply Hat; [reflexivity | lia |].
    apply (observed_X X Y i _ j); [lia | reflexivity].
  - apply Hat; [lia | lia |].
    apply (observed_Y X Y i _ j); [lia | reflexivity].
Qed.

Lemma adequate_flat : TwoClustersMIP.adequate 2 4 2000 X_flat Y_flat.
Proof.
  unfold TwoClustersMIP.adequate. cbn [shape0 shape1 X_flat Y_flat].
  repeat split; lia.
Qed.

Lemma fit_accepts_degenerate_feature_witness :
  pooled qmin X_flat Y_flat !! 0 = Some 7%Q /\
  pooled qmax X_flat Y_flat !! 0 = Some 7%Q /\
  forall j k, j < 2000 -> k < 2 ->
    TwoClustersMIP.u_i (TwoClustersMIP.init 2 2)
      (pooled qmin X_flat Y_flat) (pooled qmax X_flat Y_flat) j 0 X_flat k
    = Ok (V (Vu k 0 2)) /\
    TwoClustersMIP.u_i (TwoClustersMIP.init 2 2)
      (pooled qmin X_flat Y_flat) (pooled qmax X_flat Y_flat) j 0 Y_flat k
    = Ok (V (Vu k 0 2)).
Proof.
  split; [vm_compute; reflexivity |]. split; [vm_compute; reflexivity |].
  apply (fit_accepts_degenerate_feature 2 2 X_flat Y_flat 0 7 7).
  - unfold TwoClustersMIP.adequate. cbn [shape0 shape1 X_flat Y_flat].
    repeat split; lia.
  - lia.
  - vm_compute. reflexivity.
  - vm_compute. reflexivity.
  - reflexivity.
Defined.

(** C5, as the specification words it, fails: feature 0 of the sample
    below has equal pooled minimum and maximum, and [fit] returns. *)
Lemma fit_degenerate_feature_counterexample :
  pooled qmin X_flat Y_flat !! 0 = Some 7%Q /\
  pooled qmax X_flat Y_flat !! 0 = Some 7%Q /\
  ~ exists e,
      TwoClustersMIP.fit (TwoClustersMIP.init 2 2) X_flat Y_flat = Raise e.
Proof.
  split; [vm_compute; reflexivity |]. split; [vm_compute; reflexivity |].
  intros [e He]. unfold TwoClustersMIP.init in He.
  destruct (fit_adequate 2 2 4 2000 (1 # 1000) 5 X_flat Y_flat adequate_flat)
    as [self' Hf].
  rewrite Hf in He. discriminate He.
Qed.

(** ** Shapes *)

(** C6, as the code has it.  Arrays of different feature counts make
    [fit] fail at its first statement, the pooling concatenation, with
    numpy's [ValueError]; no constraint has been added by then. *)
Theorem fit_rejects_differing_widths
    (self : TwoClustersMIP.t) (X Y : ndarray Q) :
  shape1 X <> shape1 Y ->
  np_concatenate X Y = Raise ValueError /\
  TwoClustersMIP.fit self X Y = Raise ValueError.
Proof.
  intros Hc. split.
  - unfold np_concatenate.
    destruct (Nat.eqb_spec (shape1 X) (shape1 Y)); [contradiction |].
    reflexivity.
  - apply fit_widths_differ, Hc.
Qed.

Lemma fit_rejects_differing_widths_witness :
  np_concatenate X_ex Y_narrow = Raise ValueError /\
  TwoClustersMIP.fit (TwoClustersMIP.init 2 2) X_ex Y_narrow
  = Raise ValueError.
Proof.
  apply (fit_rejects_differing_widths (TwoClustersMIP.init 2 2) X_ex Y_narrow).
  cbn [shape1 X_ex Y_narrow]. lia.
Defined.

(** C6, as the specification words it, fails: [X_ex] has 2000 rows,
    [Y_long] has 2001, and [fit] returns. *)
Lemma fit_differing_lengths_counterexample :
  shape0 X_ex <> shape0 Y_long /\
  ~ exists e,
      TwoClustersMIP.fit (TwoClustersMIP.init 2 2) X_ex Y_long = Raise e.
Proof.
  split; [cbn [shape0 X_ex Y_long]; lia |].
  intros [e He]. unfold TwoClustersMIP.init in He.
  destruct (fit_adequate 2 2 4 2000 (1 # 1000) 5 X_ex Y_long) as [self' Hf].
  - unfold TwoClustersMIP.adequate. cbn [shape0 shape1 X_ex Y_long].
    repeat split; lia.
  - rewrite Hf in He. discriminate He.
Qed.




(** *** The exceptions of [fit] *)

Lemma bind_Raise {A B : Type} (r : result A) (f : A -> result B) (e : exn) :
  (r ≫= f) = Raise e ->
  r = Raise e \/ exists a, r = Ok a /\ f a = Raise e.
Proof.
  destruct r as [a|e']; simpl; intros Hr.
  - right. exists a. split; [reflexivity | exact Hr].
  - left. injection Hr as ->. reflexivity.
Qed.



Lemma py_getitem_Raise {A : Type} (xs : list A) (z : Z) (e : exn) :
  py_getitem xs z = Raise e -> e = IndexError.
Proof.
  unfold py_getitem.
  destruct (_ <? 0)%Z; [congruence |].
  destruct (xs !! _); congruence.
Qed.

Lemma py_getitem_Ok_bounds {A : Type} (xs : list A) (z : Z) (a : A) :
  py_getitem xs z = Ok a ->
  (- Z.of_nat (length xs) <= z < Z.of_nat (length xs))%Z.
Proof.
  unfold py_getitem.
  destruct (Z.ltb_spec z 0) as [Hneg|Hpos].
  - destruct (Z.ltb_spec (z + Z.of_nat (length xs)) 0); [discriminate |].
    intros _. lia.
  - destruct (Z.ltb_spec z 0); [lia |].
    destruct (xs !! Z.to_nat z) eqn:Hl; [| discriminate].
    intros _. apply lookup_lt_Some in Hl. lia.
Qed.

Lemma criteria_at_Raise (self : TwoClustersMIP.t) (k i : nat) (l : Z)
    (e : exn) :
  TwoClustersMIP.criteria_at self k i l = Raise e -> e = IndexError.
Proof.
  unfold TwoClustersMIP.criteria_at, py_getitem_nat. intros Hc.
  apply bind_Raise in Hc as [Hc|(ck & _ & Hc)];
    [exact (py_getitem_Raise _ _ _ Hc) |].
  apply bind_Raise in Hc as [Hc|(cki & _ & Hc)];
    [exact (py_getitem_Raise _ _ _ Hc) |].
  apply bind_Raise in Hc as [Hc|(v & _ & Hc)];
    [exact (py_getitem_Raise _ _ _ Hc) | discriminate].
Qed.

(** On an instantiated object [criteria[k][i][l]] exists only for [l]
    between [-(L+1)] and [L]. *)
Lemma criteria_at_Ok_bounds (L_ K_ n_ P_ : nat) (eps M_ : Q)
    (self : TwoClustersMIP.t) (k i : nat) (l : Z) (c : expr) :
  TwoClustersMIP.instantiated L_ K_ n_ P_ eps M_ self ->
  TwoClustersMIP.criteria_at self k i l = Ok c ->
  (l <= Z.of_nat L_)%Z.
Proof.
  intros Hs Hc. unfold TwoClustersMIP.criteria_at in Hc.
  rewrite (instantiated_criteria _ _ _ _ _ _ self Hs) in Hc.
  apply bind_Ok in Hc as (ck & Hck & Hc).
  apply bind_Ok in Hc as (cki & Hcki & Hc).
  apply bind_Ok in Hc as (v & Hv & _).
  apply py_getitem_nat_Ok in Hck.
  change (map ?f ?xs) with (f <$> xs) in Hck.
  rewrite list_lookup_fmap in Hck.
  destruct (range K_ !! k) as [k'|]; [| discriminate].
  injection Hck as <-.
  apply py_getitem_nat_Ok in Hcki.
  change (map ?f ?xs) with (f <$> xs) in Hcki.
  rewrite list_lookup_fmap in Hcki.
  destruct (range n_ !! i) as [i'|]; [| discriminate].
  injection Hcki as <-.
  apply py_getitem_Ok_bounds in Hv.
  unfold range in Hv. rewrite length_map, length_seq in Hv. lia.
Qed.

Lemma breakpoint_step_nonzero_range (L_ : nat) (mn mx : Q) (l : Z) :
  1 <= L_ -> ~ (mx - mn == 0)%Q ->
  ~ (TwoClustersMIP.breakpoint L_ mn mx (l + 1)
     - TwoClustersMIP.breakpoint L_ mn mx l == 0)%Q.
Proof.
  intros HL Hr. pose proof (inject_L_pos L_ HL) as HLq.
  rewrite (breakpoint_step L_ mn mx HL l). intros H0. apply Hr.
  assert (Hm : (mx - mn == (mx - mn) / inject_Z (Z.of_nat L_)
                           * inject_Z (Z.of_nat L_))%Q) by (field; lra).
  rewrite Hm, H0. ring.
Qed.

(** The coefficient [t] handed to Gurobi is always finite: on an
    instantiated object [u_i] never ends in the [GurobiError] that
    stands for a [nan] or infinite coefficient. *)
Lemma u_i_never_GurobiError (L_ K_ n_ P_ : nat) (eps M_ : Q)
    (self : TwoClustersMIP.t) (mins maxs : list Q) (Z : ndarray Q)
    (j i k : nat) :
  TwoClustersMIP.instantiated L_ K_ n_ P_ eps M_ self ->
  TwoClustersMIP.u_i self mins maxs j i Z k <> Raise GurobiError.
Proof.
  intros Hs Hu.
  unfold TwoClustersMIP.u_i, TwoClustersMIP.li, TwoClustersMIP.xl in Hu.
  rewrite (instantiated_L _ _ _ _ _ _ self Hs) in Hu.
  destruct (np_getitem Z j i) as [x|e'] eqn:Hx.
  2:{ cbn [mbind result_bind] in Hu. unfold np_getitem in Hx.
      destruct (_ && _); congruence. }
  cbn [mbind result_bind] in Hu.
  destruct (py_getitem_nat maxs i) as [mx|e'] eqn:Hmx.
  2:{ cbn [mbind result_bind] in Hu. apply py_getitem_Raise in Hmx.
      congruence. }
  cbn [mbind result_bind] in Hu.
  destruct (Qeq_bool x mx).
  { apply criteria_at_Raise in Hu. discriminate Hu. }
  destruct (py_getitem_nat mins i) as [mn|e'] eqn:Hmn.
  2:{ cbn [mbind result_bind] in Hu. apply py_getitem_Raise in Hmn.
      congruence. }
  cbn [mbind result_bind] in Hu. unfold int_floor_div in Hu.
  destruct (np_div (inject_Z (Z.of_nat L_) * (x - mn)) (mx - mn))
    as [q|] eqn:Hdiv.
  2:{ destruct (Qeq_bool (inject_Z (Z.of_nat L_) * (x - mn)) 0);
        discriminate Hu. }
  unfold np_div in Hdiv.
  destruct (Qeq_bool (mx - mn) 0) eqn:Hden; [discriminate Hdiv |].
  injection Hdiv as <-.
  apply Qeq_bool_neq in Hden. cbn [mbind result_bind] in Hu.
  fold (TwoClustersMIP.segment L_ mn mx x) in Hu.
  set (l := TwoClustersMIP.segment L_ mn mx x) in *.
  destruct (TwoClustersMIP.criteria_at self k i l) as [c_l|e1] eqn:Hcl.
  2:{ cbn [mbind result_bind] in Hu. apply criteria_at_Raise in Hcl.
      congruence. }
  cbn [mbind result_bind] in Hu.
  destruct (TwoClustersMIP.criteria_at self k i (l + 1)) as [c_l1|e1] eqn:Hcl1.
  2:{ cbn [mbind result_bind] in Hu. apply criteria_at_Raise in Hcl1.
      congruence. }
  cbn [mbind result_bind] in Hu.
  apply (criteria_at_Ok_bounds _ _ _ _ _ _ self k i _ _ Hs) in Hcl1.
  destruct (Nat.eq_dec L_ 0) as [HL0|HL0].
  - assert (Hl0 : l = 0%Z).
    { unfold l, TwoClustersMIP.segment. rewrite HL0.
      change (inject_Z (Z.of_nat 0)) with 0%Q.
      assert (Hz : (0 * (x - mn) / (mx - mn) == 0)%Q)
        by (field; exact Hden).
      rewrite Hz. reflexivity. }
    lia.
  - assert (HL : 1 <= L_) by lia.
    assert (HLq : ~ (inject_Z (Z.of_nat L_) == 0)%Q).
    { pose proof (inject_L_pos L_ HL). lra. }
    rewrite !np_div_Some in Hu by exact HLq.
    unfold TwoClustersMIP.slope in Hu. cbn [mbind option_bind] in Hu.
    fold (TwoClustersMIP.breakpoint L_ mn mx l) in Hu.
    fold (TwoClustersMIP.breakpoint L_ mn mx (l + 1)) in Hu.
    rewrite np_div_Some in Hu
      by exact (breakpoint_step_nonzero_range L_ mn mx l HL Hden).
    discriminate Hu.
Qed.







(** ** The value at the maximum *)

(** C9.  When [X[j, i]] equals the pooled maximum of feature [i], [u_i]
    returns the variable of the last breakpoint, [u[k][i][L]], as it is:
    no segment is computed and nothing is interpolated. *)
Theorem u_i_at_pooled_max
    (n_pieces n_clusters : nat) (X Y Z : ndarray Q) (j i k : nat)
    (x mx : Q) :
  np_getitem Z j i = Ok x ->
  pooled qmax X Y !! i = Some mx ->
  (x == mx)%Q ->
  k < n_clusters -> i < 4 ->
  TwoClustersMIP.u_i (TwoClustersMIP.init n_pieces n_clusters)
    (pooled qmin X Y) (pooled qmax X Y) j i Z k
  = Ok (V (Vu k i n_pieces)).
Proof.
  intros Hx Hmx Heq Hk Hi. unfold TwoClustersMIP.init.
  apply (u_i_at_max n_pieces n_clusters 4 2000 (1 # 1000) 5 _
           (instantiated_fresh _ _ _ _ _ _)
           (pooled qmin X Y) (pooled qmax X Y) Z j i k x mx
           Hx Hmx Hk Hi Heq).
Qed.

Lemma u_i_at_pooled_max_witness :
  TwoClustersMIP.u_i (TwoClustersMIP.init 2 2)
    (pooled qmin X_ex Y_ex) (pooled qmax X_ex Y_ex) 1 0 X_ex 0
  = Ok (V (Vu 0 0 2)).
Proof.
  apply (u_i_at_pooled_max 2 2 X_ex Y_ex X_ex 1 0 0 4 4).
  - vm_compute. reflexivity.
  - vm_compute. reflexivity.
  - reflexivity.
  - lia.
  - lia.
Defined.

(** ** The value below the maximum *)




(** The failing input of C1 evaluated: the value 3 of a feature ranging
    over [0, 4] with two pieces lies in segment 1 at position 1/2; [u_i]
    returns [(u_1 + 1/2) * (u_2 - u_1)], which is 1/2 where [u_1 = 1/2]
    and [u_2 = 1], while the interpolation is 3/4 there. *)
Example u_i_below_max_evaluated :
  TwoClustersMIP.segment 2 0 4 3 = 1%Z /\
  (TwoClustersMIP.position 2 0 4 3 1 == 1 # 2)%Q /\
  TwoClustersMIP.u_i (TwoClustersMIP.init 2 2)
    (pooled qmin X_ex Y_ex) (pooled qmax X_ex Y_ex) 0 0 X_ex 0
  = Ok (TwoClustersMIP.returned_expr 0 0 1
          (TwoClustersMIP.position 2 0 4 3 1)) /\
  let a : assignment :=
    fun v => match v with
             | Vu _ _ 1 => 1 # 2
             | Vu _ _ 2 => 1
             | _ => 0
             end%Q in
  (eval a (TwoClustersMIP.returned_expr 0 0 1 (1 # 2)) == 1 # 2)%Q /\
  (eval a (TwoClustersMIP.spec_interpolation 0 0 1 (1 # 2)) == 3 # 4)%Q.
Proof.
  split; [vm_compute; reflexivity |].
  split; [vm_compute; reflexivity |].
  split; [vm_compute; reflexivity |].
  split; vm_compute; reflexivity.
Qed.

(** ** [predict_cluster] *)

(** [argmax_from] scanning [xs] after the prefix [pre], with the best
    value so far at [besti]: the result is the first position of the
    maximum of the whole list. *)
Lemma argmax_from_spec (ys : list Q) :
  forall (xs pre : list Q) (best : Q) (besti : nat),
    ys = pre ++ xs ->
    ys !! besti = Some best ->
    besti < length pre ->
    (forall k v, k < length pre -> ys !! k = Some v -> (v <= best)%Q) ->
    (forall k v, k < besti -> ys !! k = Some v -> (v < best)%Q) ->
    exists vr,
      ys !! argmax_from best besti (length pre) xs = Some vr /\
      (forall k v, ys !! k = Some v -> (v <= vr)%Q) /\
      (forall k v, k < argmax_from best besti (length pre) xs ->
                   ys !! k = Some v -> (v < vr)%Q).
Proof.
  induction xs as [|x xs IH]; intros pre best besti Hys Hb Hbi Hle Hlt.
  - exists best. simpl. split; [exact Hb |]. split; [| exact Hlt].
    intros k v Hk. apply (Hle k v); [| exact Hk].
    apply lookup_lt_Some in Hk. rewrite Hys, app_nil_r in Hk. exact Hk.
  - assert (Hys' : ys = (pre ++ [x]) ++ xs)
      by (rewrite <- app_assoc; exact Hys).
    assert (Hx : ys !! length pre = Some x).
    { rewrite Hys. rewrite lookup_app_r by lia.
      replace (length pre - length pre) with 0 by lia. reflexivity. }
    assert (Hlen : length (pre ++ [x]) = S (length pre))
      by (rewrite length_app; simpl; lia).
    cbn [argmax_from]. destruct (Qlt_le_dec best x) as [Hbx|Hxb].
    + rewrite <- Hlen.
      apply (IH (pre ++ [x]) x (length pre) Hys' Hx); [lia | |].
      * intros k v Hk Hv. rewrite Hlen in Hk.
        destruct (Nat.eq_dec k (length pre)) as [->|Hne].
        -- rewrite Hx in Hv. injection Hv as <-. apply Qle_refl.
        -- apply Qlt_le_weak. eapply Qle_lt_trans; [| exact Hbx].
           apply (Hle k v); [lia | exact Hv].
      * intros k v Hk Hv. eapply Qle_lt_trans; [| exact Hbx].
        apply (Hle k v); [lia | exact Hv].
    + rewrite <- Hlen.
      apply (IH (pre ++ [x]) best besti Hys' Hb); [lia | | exact Hlt].
      intros k v Hk Hv. rewrite Hlen in Hk.
      destruct (Nat.eq_dec k (length pre)) as [->|Hne].
      * rewrite Hx in Hv. injection Hv as <-. exact Hxb.
      * apply (Hle k v); [lia | exact Hv].
Qed.

(** [np.argmax] of a non-empty row. *)
Lemma argmax_row_spec (y : Q) (ys : list Q) :
  exists c vr,
    argmax_row (y :: ys) = Ok c /\
    (y :: ys) !! c = Some vr /\
    (forall k v, (y :: ys) !! k = Some v -> (v <= vr)%Q) /\
    (forall k v, k < c -> (y :: ys) !! k = Some v -> (v < vr)%Q).
Proof.
  destruct (argmax_from_spec (y :: ys) ys [y] y 0) as (vr & Hr & Hmax & Hfirst).
  - reflexivity.
  - reflexivity.
  - simpl. lia.
  - intros k v Hk Hv. simpl in Hk. replace k with 0 in Hv by lia.
    injection Hv as <-. apply Qle_refl.
  - intros k v Hk. lia.
  - exists (argmax_from y 0 1 ys), vr. repeat split; assumption.
Qed.

Lemma bidx_inside (dim j : nat) : j < dim -> bidx dim j = j.
Proof.
  intros Hj. unfold bidx. destruct (Nat.eqb_spec dim 1); [lia | reflexivity].
Qed.

Lemma comprehension_lookup {A B : Type} (f : A -> result B)
    (xs : list A) (ys : list B) :
  comprehension f xs = Ok ys ->
  length ys = length xs /\
  forall i x, xs !! i = Some x -> exists y, ys !! i = Some y /\ f x = Ok y.
Proof.
  revert ys. induction xs as [|x xs IH]; intros ys Hc; simpl in Hc.
  - injection Hc as <-. split; [reflexivity |]. intros i x Hi. inversion Hi.
  - apply bind_Ok in Hc as (y & Hy & Hc).
    apply bind_Ok in Hc as (ys' & Hys & Hc). injection Hc as <-.
    destruct (IH ys' Hys) as [Hlen Hall]. split; [simpl; lia |].
    intros [|i] z Hz.
    + injection Hz as <-. exists y. split; [reflexivity | exact Hy].
    + apply (Hall i z Hz).
Qed.

Lemma comprehension_total {A B : Type} (f : A -> result B) (xs : list A) :
  (forall x, x ∈ xs -> exists y, f x = Ok y) ->
  exists ys, comprehension f xs = Ok ys.
Proof.
  induction xs as [|x xs IH]; intros Hf; simpl.
  - eexists. reflexivity.
  - destruct (Hf x) as [y Hy]; [left |].
    destruct IH as [ys Hys].
    { intros z Hz. apply Hf. right. exact Hz. }
    rewrite Hy, Hys. eexists. reflexivity.
Qed.

(** C10.  For a model whose [predict_utility] returns matrices of the
    same shape with at least one cluster column, [predict_cluster]
    returns for each sample [j] a cluster [c] whose margin
    [X_u[j, c] - Y_u[j, c]] is maximal, and every cluster of lower index
    has a strictly smaller margin: ties go to the lowest index. *)
Theorem predict_cluster_is_first_argmax
    {T : Type} `{BaseModel T} (self : T) (X Y X_u Y_u : ndarray Q) :
  predict_utility self X = Ok X_u ->
  predict_utility self Y = Ok Y_u ->
  shape0 X_u = shape0 Y_u ->
  shape1 X_u = shape1 Y_u ->
  1 <= shape1 X_u ->
  exists r : list nat,
    predict_cluster self X Y = Ok r /\
    length r = shape0 X_u /\
    forall j, j < shape0 X_u ->
      exists c, r !! j = Some c /\ c < shape1 X_u /\
        (forall k, k < shape1 X_u ->
           (item X_u j k - item Y_u j k <= item X_u j c - item Y_u j c)%Q) /\
        (forall k, k < c ->
           (item X_u j k - item Y_u j k < item X_u j c - item Y_u j c)%Q).
Proof.
  intros HX HY Hrows Hcols HK. unfold predict_cluster.
  rewrite HX, HY. cbn [mbind result_bind].
  unfold np_sub. rewrite <- Hrows, <- Hcols, !broadcast_dim_same.
  cbn [mbind result_bind].
  set (d := mk_ndarray (shape0 X_u) (shape1 X_u) _).
  assert (Hd : forall j k, j < shape0 X_u -> k < shape1 X_u ->
                 item d j k = (item X_u j k - item Y_u j k)%Q).
  { intros j k Hj Hk. unfold d. cbn [item].
    rewrite !bidx_inside by assumption. reflexivity. }
  assert (Hrow : forall j k, k < shape1 X_u ->
                   row d j !! k = Some (item d j k)).
  { intros j k Hk. unfold row.
    apply (lookup_map_range (fun i => item d j i)). exact Hk. }
  assert (Hrowlen : forall j, length (row d j) = shape1 X_u).
  { intros j. unfold row, range. rewrite length_map, length_seq.
    reflexivity. }
  unfold np_argmax1. change (shape1 d) with (shape1 X_u).
  change (shape0 d) with (shape0 X_u).
  destruct (Nat.eqb_spec (shape1 X_u) 0) as [H0|_]; [lia |].
  assert (Hone : forall j, exists c vr,
             argmax_row (row d j) = Ok c /\ row d j !! c = Some vr /\
             (forall k v, row d j !! k = Some v -> (v <= vr)%Q) /\
             (forall k v, k < c -> row d j !! k = Some v -> (v < vr)%Q)).
  { intros j. specialize (Hrowlen j).
    destruct (row d j) as [|y ys]; [simpl in Hrowlen; lia |].
    apply argmax_row_spec. }
  destruct (comprehension_total (fun j => argmax_row (row d j))
              (range (shape0 X_u))) as [r Hr].
  { intros j _. destruct (Hone j) as (c & _ & Hc & _). exists c. exact Hc. }
  exists r. split; [exact Hr |].
  destruct (comprehension_lookup _ _ _ Hr) as [Hlen Hall].
  split.
  { rewrite Hlen. unfold range. apply length_seq. }
  intros j Hj.
  destruct (Hall j j) as (c & Hrj & Hc).
  { unfold range. apply lookup_seq_lt. exact Hj. }
  destruct (Hone j) as (c' & vr & Hc' & Hvr & Hmax & Hfirst).
  rewrite Hc in Hc'. injection Hc' as <-.
  assert (Hclt : c < shape1 X_u).
  { apply lookup_lt_Some in Hvr. rewrite Hrowlen in Hvr. exact Hvr. }
  rewrite (Hrow j c Hclt) in Hvr. injection Hvr as <-.
  exists c. split; [exact Hrj |]. split; [exact Hclt |]. split.
  - intros k Hk. rewrite <- !Hd by assumption.
    apply (Hmax k). apply Hrow, Hk.
  - intros k Hk. rewrite <- !Hd by (assumption || lia).
    apply (Hfirst k); [exact Hk |]. apply Hrow. lia.
Qed.

(** The scenario of the specification: margins 0.3 and 0.1 give
    cluster 0. *)
Example predict_cluster_scenario :
  predict_cluster feature_utilities X_pair Y_pair = Ok [0].
Proof. vm_compute. reflexivity. Qed.

(** A tie goes to the lowest index. *)
Example predict_cluster_tie :
  predict_cluster feature_utilities Y_pair Y_pair = Ok [0].
Proof. vm_compute. reflexivity. Qed.

Lemma predict_cluster_is_first_argmax_witness :
  exists r : list nat,
    predict_cluster feature_utilities X_pair Y_pair = Ok r /\
    length r = 1 /\
    forall j, j < 1 ->
      exists c, r !! j = Some c /\ c < 2 /\
        (forall k, k < 2 ->
           (item X_pair j k - item Y_pair j k
            <= item X_pair j c - item Y_pair j c)%Q) /\
        (forall k, k < c ->
           (item X_pair j k - item Y_pair j k
            < item X_pair j c - item Y_pair j c)%Q).
Proof.
  apply (predict_cluster_is_first_argmax feature_utilities X_pair Y_pair
           (mk_ndarray 1 2 (item X_pair)) (mk_ndarray 1 2 (item Y_pair))).
  - reflexivity.
  - reflexivity.
  - reflexivity.
  - reflexivity.
  - simpl. lia.
Defined.

(** * Further properties of the code *)

(** ** [TwoClustersMIP]: the object before and after [fit] *)

(** [predict_utility] on an object that was never fitted: the first
    lookup in the empty [sum_utilite] raises. *)
Lemma predict_utility_unfitted (L_ K_ n_ P_ : nat) (eps M_ : Q)
    (X : ndarray Q) :
  1 <= K_ -> 1 <= n_ -> 1 <= P_ ->
  TwoClustersMIP.predict_utility
    (TwoClustersMIP.instantiate L_ K_ n_ P_ eps M_) X
  = Raise KeyError.
Proof.
  intros HK Hn HP. unfold TwoClustersMIP.predict_utility.
  cbn [TwoClustersMIP.K TwoClustersMIP.n TwoClustersMIP.P
       TwoClustersMIP.instantiate].
  destruct K_ as [|K']; [lia |]. destruct n_ as [|n']; [lia |].
  destruct P_ as [|P']; [lia |].
  unfold range. cbn [seq for_ mbind result_bind].
  unfold TwoClustersMIP.sum_utilite_at.
  assert (Hempty : TwoClustersMIP.sum_utilite
                     (TwoClustersMIP.instantiate L_ (S K') (S n') (S P')
                        eps M_) !! (0, 0, 0) = None)
    by apply lookup_empty.
  rewrite Hempty. reflexivity.
Qed.

(** X1.  On a model that was never fitted, with at least one cluster,
    [predict_utility] raises [KeyError] for every input: the dictionary
    [sum_utilite] it reads is still empty. *)
Theorem predict_utility_before_fit
    (n_pieces n_clusters : nat) (X : ndarray Q) :
  1 <= n_clusters ->
  TwoClustersMIP.predict_utility
    (TwoClustersMIP.init n_pieces n_clusters) X
  = Raise KeyError.
Proof.
  intros HK. unfold TwoClustersMIP.init.
  apply predict_utility_unfitted; [exact HK | lia | lia].
Qed.

Lemma predict_utility_before_fit_witness :
  TwoClustersMIP.predict_utility (TwoClustersMIP.init 2 2) X_pair
  = Raise KeyError.
Proof.
  apply (predict_utility_before_fit 2 2 X_pair). lia.
Defined.

Lemma length_concat_map_range {A : Type} (f : nat -> list A)
    (len stop : nat) :
  (forall x, length (f x) = len) ->
  length (concat (map f (range stop))) = stop * len.
Proof.
  intros Hlen. unfold range. generalize 0.
  induction stop as [|stop IH]; intros start; simpl; [reflexivity |].
  rewrite length_app, Hlen, IH. reflexivity.
Qed.

Lemma length_concat_concat_map_range {A : Type}
    (f : nat -> list (list A)) (len stop : nat) :
  (forall x, length (concat (f x)) = len) ->
  length (concat (concat (map f (range stop)))) = stop * len.
Proof.
  intros Hlen. unfold range. generalize 0.
  induction stop as [|stop IH]; intros start; [reflexivity |].
  cbn [seq map concat]. rewrite concat_app, length_app, Hlen, IH.
  reflexivity.
Qed.

Lemma length_map_range {A : Type} (f : nat -> A) (stop : nat) :
  length (map f (range stop)) = stop.
Proof. unfold range. rewrite length_map, length_seq. reflexivity. Qed.

(** The number of variables [instantiate] declares. *)
Lemma instantiate_vars_length (L_ K_ n_ P_ : nat) (eps M_ : Q) :
  length (m_vars (TwoClustersMIP.m
                    (TwoClustersMIP.instantiate L_ K_ n_ P_ eps M_)))
  = K_ * (n_ * (L_ + 1)) + 4 * P_ + P_ * K_.
Proof.
  cbn [TwoClustersMIP.m TwoClustersMIP.instantiate m_vars].
  assert (Hrange : forall stop, length (range stop) = stop)
    by (intros stop; unfold range; apply length_seq).
  rewrite !length_app, !length_map, !Hrange.
  rewrite (length_concat_map_range _ K_ P_)
    by (intros j; apply length_map_range).
  assert (Hc : forall k,
             length (concat (map (fun i => map (fun l => Vu k i l)
                                             (range (L_ + 1))) (range n_)))
             = n_ * (L_ + 1)).
  { intros k. apply length_concat_map_range.
    intros i. apply length_map_range. }
  assert (Hcc : length (concat (concat
             (map (fun k => map (fun i => map (fun l => Vu k i l)
                                          (range (L_ + 1))) (range n_))
                (range K_))))
           = K_ * (n_ * (L_ + 1))).
  { apply (length_concat_concat_map_range
             (fun k => map (fun i => map (fun l => Vu k i l)
                                       (range (L_ + 1))) (range n_))).
    exact Hc. }
  rewrite Hcc. lia.
Qed.

(** X2.  [fit] declares no variable and assigns none of the size
    attributes: after a [fit] that returned, the Gurobi model holds the
    variables the constructor declared, [K*4*(L+1)] breakpoint
    utilities, [4*2000] slacks and [2000*K] indicators, and [L], [K],
    [n], [P] are unchanged. *)
Theorem fit_declares_no_variable
    (n_pieces n_clusters : nat) (X Y : ndarray Q)
    (self' : TwoClustersMIP.t) :
  TwoClustersMIP.fit (TwoClustersMIP.init n_pieces n_clusters) X Y
  = Ok self' ->
  m_vars (TwoClustersMIP.m self')
  = m_vars (TwoClustersMIP.m (TwoClustersMIP.init n_pieces n_clusters)) /\
  length (m_vars (TwoClustersMIP.m self'))
  = n_clusters * (4 * (n_pieces + 1)) + 4 * 2000 + 2000 * n_clusters /\
  TwoClustersMIP.L self' = n_pieces /\
  TwoClustersMIP.K self' = n_clusters /\
  TwoClustersMIP.n self' = 4 /\
  TwoClustersMIP.P self' = 2000.
Proof.
  unfold TwoClustersMIP.init. intros Hf.
  destruct (fit_Ok_inv _ _ _ _ _ _ X Y self' Hf) as (Hi & _ & Hm).
  rewrite Hm. unfold TwoClustersMIP.fitted_model. cbn [m_vars].
  split; [reflexivity |]. split; [apply instantiate_vars_length |].
  split; [exact (instantiated_L _ _ _ _ _ _ self' Hi) |].
  split; [exact (instantiated_K _ _ _ _ _ _ self' Hi) |].
  split; [exact (instantiated_n _ _ _ _ _ _ self' Hi) |].
  exact (instantiated_P _ _ _ _ _ _ self' Hi).
Qed.

Lemma fit_ex_returns (n_pieces n_clusters : nat) :
  1 <= n_pieces ->
  exists self',
    TwoClustersMIP.fit (TwoClustersMIP.init n_pieces n_clusters) X_ex Y_ex
    = Ok self'.
Proof.
  intros HL. unfold TwoClustersMIP.init.
  apply (fit_adequate _ _ _ _ _ _ X_ex Y_ex (adequate_ex n_pieces HL)).
Qed.

Lemma fit_declares_no_variable_witness :
  exists self',
    TwoClustersMIP.fit (TwoClustersMIP.init 2 2) X_ex Y_ex = Ok self' /\
    length (m_vars (TwoClustersMIP.m self'))
    = 2 * (4 * (2 + 1)) + 4 * 2000 + 2000 * 2.
Proof.
  destruct (fit_ex_returns 2 2 (le_S 1 1 (le_n 1))) as [self' Hf].
  exists self'. split; [exact Hf |].
  exact (proj1 (proj2 (fit_declares_no_variable 2 2 X_ex Y_ex self' Hf))).
Defined.

(** X3.  A [fit] that returned has added [2*2000*K] big-M constraints,
    [4*K*L] monotonicity constraints, [4*K] zero-point constraints, [K]
    normalisation constraints and [2000] coverage constraints, and
    nothing else. *)
Theorem fit_constraint_count
    (n_pieces n_clusters : nat) (X Y : ndarray Q)
    (self' : TwoClustersMIP.t) :
  TwoClustersMIP.fit (TwoClustersMIP.init n_pieces n_clusters) X Y
  = Ok self' ->
  length (m_constrs (TwoClustersMIP.m self'))
  = 2000 * (n_clusters * 2) + n_clusters * (4 * n_pieces)
    + n_clusters * 4 + n_clusters + 2000.
Proof.
  unfold TwoClustersMIP.init. intros Hf.
  destruct (fit_Ok_inv _ _ _ _ _ _ X Y self' Hf) as (_ & _ & Hm).
  rewrite Hm. unfold TwoClustersMIP.fitted_model. cbn [m_constrs].
  apply fit_constrs_length.
Qed.

Lemma fit_constraint_count_witness :
  exists self',
    TwoClustersMIP.fit (TwoClustersMIP.init 2 2) X_ex Y_ex = Ok self' /\
    length (m_constrs (TwoClustersMIP.m self'))
    = 2000 * (2 * 2) + 2 * (4 * 2) + 2 * 4 + 2 + 2000.
Proof.
  destruct (fit_ex_returns 2 2 (le_S 1 1 (le_n 1))) as [self' Hf].
  exists self'. split; [exact Hf |].
  exact (fit_constraint_count 2 2 X_ex Y_ex self' Hf).
Defined.

(** X4.  A [fit] that returned has set the objective to the sum, over
    the 2000 pairs, of the four slack variables of the pair. *)
Theorem fit_objective_is_slack_sum
    (n_pieces n_clusters : nat) (X Y : ndarray Q)
    (self' : TwoClustersMIP.t) :
  TwoClustersMIP.fit (TwoClustersMIP.init n_pieces n_clusters) X Y
  = Ok self' ->
  exists obj,
    m_objective (TwoClustersMIP.m self') = Some obj /\
    forall a : assignment,
      (eval a obj
       == fold_right Qplus 0
            (map (fun j => a (Vsigma_plus_x j) + a (Vsigma_moins_x j)
                           + a (Vsigma_plus_y j) + a (Vsigma_moins_y j))
               (range 2000)))%Q.
Proof.
  unfold TwoClustersMIP.init. intros Hf.
  destruct (fit_Ok_inv _ _ _ _ _ _ X Y self' Hf) as (_ & _ & Hm).
  rewrite Hm. unfold TwoClustersMIP.fitted_model. cbn [m_objective].
  eexists. split; [reflexivity |].
  intros a. rewrite eval_quicksum, map_map. reflexivity.
Qed.

Lemma fit_objective_is_slack_sum_witness :
  exists self' obj,
    TwoClustersMIP.fit (TwoClustersMIP.init 2 2) X_ex Y_ex = Ok self' /\
    m_objective (TwoClustersMIP.m self') = Some obj /\
    forall a : assignment,
      (eval a obj
       == fold_right Qplus 0
            (map (fun j => a (Vsigma_plus_x j) + a (Vsigma_moins_x j)
                           + a (Vsigma_plus_y j) + a (Vsigma_moins_y j))
               (range 2000)))%Q.
Proof.
  destruct (fit_ex_returns 2 2 (le_S 1 1 (le_n 1))) as [self' Hf].
  destruct (fit_objective_is_slack_sum 2 2 X_ex Y_ex self' Hf)
    as (obj & Hobj & Hval).
  exists self', obj. split; [exact Hf |]. split; [exact Hobj | exact Hval].
Defined.

(** ** [TwoClustersMIP]: what the constraints say *)

Lemma inject_Z_of_nat_S (d : nat) :
  (inject_Z (Z.of_nat (S d)) == inject_Z (Z.of_nat d) + 1)%Q.
Proof.
  rewrite Nat2Z.inj_succ. unfold Z.succ. rewrite inject_Z_plus. reflexivity.
Qed.

(** *** A solution of the model of a batch fitted against itself *)

Lemma ladder_step_den (L_ : nat) :
  2 <= L_ ->
  Z.pos (Pos.of_nat (4 * (L_ - 1))) = (4 * Z.of_nat (L_ - 1))%Z.
Proof.
  intros HL. rewrite <- positive_nat_Z, Nat2Pos.id by lia.
  rewrite Nat2Z.inj_mul. reflexivity.
Qed.

(** Up to 250 pieces the step of the ladder is at least 1/996, above
    [epsilon]. *)
Lemma ladder_step_ge (L_ : nat) :
  2 <= L_ -> L_ <= 250 ->
  (1 # 996 <= 1 # Pos.of_nat (4 * (L_ - 1)))%Q.
Proof.
  intros HL Hu. unfold Qle. cbn [Qnum Qden].
  rewrite ladder_step_den by exact HL. lia.
Qed.

Lemma ladder_step (L_ k i l : nat) :
  (ladder L_ (Vu k i (l + 1)) - ladder L_ (Vu k i l)
   == 1 # Pos.of_nat (4 * (L_ - 1)))%Q.
Proof.
  cbn [ladder]. replace (l + 1) with (S l) by lia.
  rewrite inject_Z_of_nat_S. ring.
Qed.

Lemma ladder_quarter (L_ : nat) :
  2 <= L_ ->
  (inject_Z (Z.of_nat (L_ - 1)) * (1 # Pos.of_nat (4 * (L_ - 1)))
   == 1 # 4)%Q.
Proof.
  intros HL. unfold Qeq, Qmult, inject_Z. cbn [Qnum Qden].
  rewrite Pos2Z.inj_mul, ladder_step_den by exact HL. lia.
Qed.

Lemma ladder_le_one (L_ l : nat) :
  2 <= L_ -> l <= L_ ->
  (inject_Z (Z.of_nat l) * (1 # Pos.of_nat (4 * (L_ - 1))) <= 1)%Q.
Proof.
  intros HL Hl. unfold Qle, Qmult, inject_Z. cbn [Qnum Qden].
  rewrite Pos2Z.inj_mul, ladder_step_den by exact HL. lia.
Qed.

Lemma ladder_nonneg (L_ l : nat) :
  (0 <= inject_Z (Z.of_nat l) * (1 # Pos.of_nat (4 * (L_ - 1))))%Q.
Proof.
  unfold Qle, Qmult, inject_Z. cbn [Qnum Qden]. lia.
Qed.

Lemma sum_all_zero {A : Type} (g : A -> Q) (xs : list A) :
  (forall x, In x xs -> (g x == 0)%Q) ->
  (fold_right Qplus 0 (map g xs) == 0)%Q.
Proof.
  induction xs as [|x xs IH]; intros Hg; cbn [map fold_right].
  - reflexivity.
  - rewrite (Hg x (or_introl eq_refl)), IH.
    + reflexivity.
    + intros y Hy. apply Hg. right. exact Hy.
Qed.

Lemma sum_of_ones (stop : nat) :
  (fold_right Qplus 0 (map (fun _ : nat => 1%Q) (range stop))
   == inject_Z (Z.of_nat stop))%Q.
Proof.
  unfold range. generalize 0%nat. induction stop as [|s IH]; intros b.
  - reflexivity.
  - cbn [seq map fold_right]. rewrite IH, inject_Z_of_nat_S. ring.
Qed.

(** The ladder satisfies every constraint [fit] adds, when the two
    utilities of each pair have the same value under it. *)
Lemma ladder_satisfies (L_ K_ P_ : nat) (ux uy : nat -> nat -> expr)
    (c : constr) :
  2 <= L_ -> L_ <= 250 -> 1 <= K_ ->
  (forall k j, k < K_ -> j < P_ ->
     (eval (ladder L_) (ux k j) == eval (ladder L_) (uy k j))%Q) ->
  In c (TwoClustersMIP.fit_constrs L_ K_ 4 P_ (1 # 1000) 5 ux uy) ->
  holds (ladder L_) c.
Proof.
  intros HL Hu HK Hsame Hin.
  apply fit_constrs_inv in Hin
    as [(j & k & Hj & Hk & Hc)
       | [(k & i & l & Hk & Hi & Hl & ->)
         | [(k & i & Hk & Hi & ->)
           | [(k & Hk & ->) | (j & Hj & ->)]]]].
  - pose proof (Hsame k j Hk Hj) as He.
    destruct Hc as [<- | [<- | []]]; unfold holds;
      cbn [csense lhs rhs]; rewrite eval_bigM_expr; cbn [eval ladder];
      rewrite He; lra.
  - unfold holds, TwoClustersMIP.monotone_constr.
    cbn [csense lhs rhs eval].
    rewrite ladder_step. pose proof (ladder_step_ge L_ HL Hu) as Hd.
    apply (Qle_trans _ (1 # 996)); [discriminate | exact Hd].
  - unfold holds, TwoClustersMIP.zero_constr.
    cbn [csense lhs rhs eval ladder].
    change (inject_Z (Z.of_nat 0)) with 0%Q. ring.
  - unfold holds, TwoClustersMIP.normalize_constr.
    cbn [csense lhs rhs]. rewrite eval_sum_of_vars.
    unfold range. cbn [seq map fold_right eval ladder].
    rewrite (ladder_quarter L_ HL). reflexivity.
  - unfold holds, TwoClustersMIP.cover_constr.
    cbn [csense lhs rhs]. rewrite eval_sum_of_vars.
    cbn [eval ladder]. rewrite sum_of_ones.
    change 1%Q with (inject_Z 1). rewrite <- Zle_Qle. lia.
Qed.

(** The variables [instantiate] declares. *)
Lemma instantiate_vars_inv (L_ K_ n_ P_ : nat) (eps M_ : Q) (d : vardecl) :
  In d (m_vars (TwoClustersMIP.m
                  (TwoClustersMIP.instantiate L_ K_ n_ P_ eps M_))) ->
  (exists k i l, l <= L_ /\ d = TwoClustersMIP.continuous01 (Vu k i l)) \/
  (exists j, d = TwoClustersMIP.continuous (Vsigma_plus_x j)) \/
  (exists j, d = TwoClustersMIP.continuous (Vsigma_plus_y j)) \/
  (exists j, d = TwoClustersMIP.continuous (Vsigma_moins_x j)) \/
  (exists j, d = TwoClustersMIP.continuous (Vsigma_moins_y j)) \/
  (exists j k, d = TwoClustersMIP.binary_var (Vbinary j k)).
Proof.
  cbn [TwoClustersMIP.m TwoClustersMIP.instantiate m_vars].
  rewrite !in_app_iff, !in_map_iff.
  intros [(v & <- & Hv) | [(v & <- & Hv) | [(v & <- & Hv)
          | [(v & <- & Hv) | [(v & <- & Hv) | (v & <- & Hv)]]]]].
  - left. apply in_concat in Hv as (vs & Hvs & Hv).
    apply in_concat in Hvs as (vss & Hvss & Hvs).
    apply in_map_iff in Hvss as (k & <- & _).
    apply in_map_iff in Hvs as (i & <- & _).
    apply in_map_iff in Hv as (l & <- & Hl).
    apply In_range in Hl. exists k, i, l. split; [lia | reflexivity].
  - right. left. apply in_map_iff in Hv as (j & <- & _). eauto.
  - right. right. left. apply in_map_iff in Hv as (j & <- & _). eauto.
  - right. right. right. left. apply in_map_iff in Hv as (j & <- & _). eauto.
  - right. right. right. right. left.
    apply in_map_iff in Hv as (j & <- & _). eauto.
  - right. right. right. right. right.
    apply in_concat in Hv as (vs & Hvs & Hv).
    apply in_map_iff in Hvs as (j & <- & _).
    apply in_map_iff in Hv as (k & <- & _). eauto.
Qed.

Lemma ladder_within_bounds (L_ K_ n_ P_ : nat) (eps M_ : Q) (d : vardecl) :
  2 <= L_ ->
  In d (m_vars (TwoClustersMIP.m
                  (TwoClustersMIP.instantiate L_ K_ n_ P_ eps M_))) ->
  within_bounds (ladder L_) d.
Proof.
  intros HL Hd.
  apply instantiate_vars_inv in Hd
    as [(k & i & l & Hl & ->)
       | [(j & ->) | [(j & ->) | [(j & ->) | [(j & ->) | (j & k & ->)]]]]];
    unfold within_bounds;
    cbn [TwoClustersMIP.continuous01 TwoClustersMIP.continuous
         TwoClustersMIP.binary_var v_lb v_ub v_type v_var ladder].
  - split; [apply ladder_nonneg |].
    split; [apply ladder_le_one; assumption | exact I].
  - split; [apply Qle_refl | split; exact I].
  - split; [apply Qle_refl | split; exact I].
  - split; [apply Qle_refl | split; exact I].
  - split; [apply Qle_refl | split; exact I].
  - split; [discriminate |]. split; [apply Qle_refl |].
    right. reflexivity.
Qed.

(** After a fit of a batch against itself the ladder satisfies the
    model. *)
Lemma fit_same_batch_ladder (n_pieces n_clusters : nat) (X : ndarray Q)
    (self' : TwoClustersMIP.t) :
  TwoClustersMIP.fit (TwoClustersMIP.init n_pieces n_clusters) X X
  = Ok self' ->
  2 <= n_pieces -> n_pieces <= 250 -> 1 <= n_clusters ->
  satisfies (ladder n_pieces) (TwoClustersMIP.m self').
Proof.
  unfold TwoClustersMIP.init. intros Hf HL Hu HK.
  destruct (fit_Ok_inv _ _ _ _ _ _ X X self' Hf) as (_ & _ & Hm).
  unfold satisfies. rewrite Hm.
  unfold TwoClustersMIP.fitted_model. cbn [m_constrs].
  intros c Hc.
  refine (ladder_satisfies _ _ _ _ _ c HL Hu HK _ Hc).
  intros k j _ _. reflexivity.
Qed.

Lemma fit_ex_same_returns (n_pieces n_clusters : nat) :
  1 <= n_pieces ->
  exists self',
    TwoClustersMIP.fit (TwoClustersMIP.init n_pieces n_clusters) X_ex X_ex
    = Ok self'.
Proof.
  intros HL. unfold TwoClustersMIP.init.
  apply (fit_adequate _ _ _ _ _ _ X_ex X_ex).
  unfold TwoClustersMIP.adequate. cbn [shape0 shape1 X_ex].
  repeat split; try lia; exact HL.
Qed.

(** X5.  In a fitted model the two big-M constraints of pair [j] and
    cluster [k] tie the indicator to the sign of
    [D = utilX - utilY - (sigma_plus_x - sigma_moins_x)
         + (sigma_plus_y - sigma_moins_y)]:
    an assignment that satisfies the model has [0 <= D <= M - epsilon]
    where [binary[j][k]] is 1 and [-M <= D <= -epsilon] where it is 0. *)
Theorem bigM_pair_reads_indicator
    (n_pieces n_clusters : nat) (X Y : ndarray Q)
    (self' : TwoClustersMIP.t) (a : assignment) (j k : nat) :
  TwoClustersMIP.fit (TwoClustersMIP.init n_pieces n_clusters) X Y
  = Ok self' ->
  satisfies a (TwoClustersMIP.m self') ->
  j < 2000 -> k < n_clusters ->
  exists utilX utilY,
    TwoClustersMIP.sum_utilite self' !! (0, k, j) = Some utilX /\
    TwoClustersMIP.sum_utilite self' !! (1, k, j) = Some utilY /\
    let D := (eval a utilX - eval a utilY
              - (a (Vsigma_plus_x j) - a (Vsigma_moins_x j))
              + (a (Vsigma_plus_y j) - a (Vsigma_moins_y j)))%Q in
    ((a (Vbinary j k) == 1)%Q -> (0 <= D <= 5 - (1 # 1000))%Q) /\
    ((a (Vbinary j k) == 0)%Q -> (- (5) <= D <= - (1 # 1000))%Q).
Proof.
  unfold TwoClustersMIP.init. intros Hf Hsat Hj Hk.
  destruct (fit_Ok_inv _ _ _ _ _ _ X Y self' Hf) as (_ & Hst & Hm).
  destruct (Hst k j Hk Hj) as (H0 & H1 & _).
  eexists _, _. split; [exact H0 |]. split; [exact H1 |]. cbv zeta.
  unfold satisfies in Hsat. rewrite Hm in Hsat.
  unfold TwoClustersMIP.fitted_model in Hsat. cbn [m_constrs] in Hsat.
  pose proof (Hsat _ (bigM_in_fit_constrs _ _ _ _ _ _ _ _ j k _ Hj Hk
                        (or_introl eq_refl))) as Hge.
  pose proof (Hsat _ (bigM_in_fit_constrs _ _ _ _ _ _ _ _ j k _ Hj Hk
                        (or_intror (or_introl eq_refl)))) as Hle.
  unfold holds in Hge, Hle. cbn [csense lhs rhs] in Hge, Hle.
  rewrite eval_bigM_expr in Hge, Hle. cbn [eval] in Hge, Hle.
  split; intros Hb; rewrite Hb in Hge, Hle; split; lra.
Qed.

Lemma bigM_pair_reads_indicator_witness :
  exists self',
    TwoClustersMIP.fit (TwoClustersMIP.init 2 2) X_ex X_ex = Ok self' /\
    satisfies (ladder 2) (TwoClustersMIP.m self') /\
    exists utilX utilY,
      TwoClustersMIP.sum_utilite self' !! (0, 0, 0) = Some utilX /\
      TwoClustersMIP.sum_utilite self' !! (1, 0, 0) = Some utilY /\
      let D := (eval (ladder 2) utilX - eval (ladder 2) utilY
                - (ladder 2 (Vsigma_plus_x 0) - ladder 2 (Vsigma_moins_x 0))
                + (ladder 2 (Vsigma_plus_y 0) - ladder 2 (Vsigma_moins_y 0)))%Q
      in
      ((ladder 2 (Vbinary 0 0) == 1)%Q -> (0 <= D <= 5 - (1 # 1000))%Q) /\
      ((ladder 2 (Vbinary 0 0) == 0)%Q -> (- (5) <= D <= - (1 # 1000))%Q).
Proof.
  destruct (fit_ex_same_returns 2 2 (le_S 1 1 (le_n 1))) as [self' Hf].
  pose proof (fit_same_batch_ladder 2 2 X_ex self' Hf
                (le_n 2) ltac:(lia) (le_S 1 1 (le_n 1))) as Hsat.
  exists self'. split; [exact Hf |]. split; [exact Hsat |].
  apply (bigM_pair_reads_indicator 2 2 X_ex X_ex self' (ladder 2) 0 0
           Hf Hsat); lia.
Defined.

(** Along the monotonicity constraints the breakpoint utilities of one
    feature grow by at least [eps] per breakpoint. *)
Lemma monotone_chain (L_ K_ n_ P_ : nat) (eps M_ : Q)
    (ux uy : nat -> nat -> expr) (a : assignment) (k i l d : nat) :
  (forall c, In c (TwoClustersMIP.fit_constrs L_ K_ n_ P_ eps M_ ux uy) ->
             holds a c) ->
  k < K_ -> i < n_ -> l + d <= L_ ->
  (a (Vu k i l) + inject_Z (Z.of_nat d) * eps <= a (Vu k i (l + d)))%Q.
Proof.
  intros Hsat Hk Hi. induction d as [|d IH]; intros Hl.
  - rewrite Nat.add_0_r. change (inject_Z (Z.of_nat 0)) with 0%Q. lra.
  - pose proof (Hsat _ (monotone_in_fit_constrs L_ K_ n_ P_ eps M_ ux uy
                          k i (l + d) Hk Hi ltac:(lia))) as Hm.
    unfold holds, TwoClustersMIP.monotone_constr in Hm.
    cbn [csense lhs rhs eval] in Hm.
    replace (l + d + 1) with (l + S d) in Hm by lia.
    rewrite inject_Z_of_nat_S. specialize (IH ltac:(lia)). lra.
Qed.

(** X6.  In a fitted model every assignment that satisfies the
    constraints has [u[k][i][0] = 0] and utilities that increase by at
    least [epsilon = 0.001] per breakpoint:
    [u[k][i][l] + (l' - l) * epsilon <= u[k][i][l']] for [l <= l' <= L]. *)
Theorem fitted_utilities_increase
    (n_pieces n_clusters : nat) (X Y : ndarray Q)
    (self' : TwoClustersMIP.t) (a : assignment) (k i l l' : nat) :
  TwoClustersMIP.fit (TwoClustersMIP.init n_pieces n_clusters) X Y
  = Ok self' ->
  satisfies a (TwoClustersMIP.m self') ->
  k < n_clusters -> i < 4 -> l <= l' -> l' <= n_pieces ->
  (a (Vu k i 0) == 0)%Q /\
  (a (Vu k i l) + inject_Z (Z.of_nat (l' - l)) * (1 # 1000)
   <= a (Vu k i l'))%Q.
Proof.
  unfold TwoClustersMIP.init. intros Hf Hsat Hk Hi Hll HlL.
  destruct (fit_Ok_inv _ _ _ _ _ _ X Y self' Hf) as (_ & _ & Hm).
  unfold satisfies in Hsat. rewrite Hm in Hsat.
  unfold TwoClustersMIP.fitted_model in Hsat. cbn [m_constrs] in Hsat.
  split.
  - pose proof (Hsat _ (zero_in_fit_constrs _ _ _ _ _ _ _ _ k i Hk Hi)) as Hz.
    exact Hz.
  - replace l' with (l + (l' - l)) at 2 by lia.
    apply (monotone_chain _ _ _ _ _ _ _ _ a k i l (l' - l) Hsat Hk Hi). lia.
Qed.

Lemma fitted_utilities_increase_witness :
  exists self',
    TwoClustersMIP.fit (TwoClustersMIP.init 2 2) X_ex X_ex = Ok self' /\
    satisfies (ladder 2) (TwoClustersMIP.m self') /\
    (ladder 2 (Vu 0 0 0) == 0)%Q /\
    (ladder 2 (Vu 0 0 0) + inject_Z (Z.of_nat (2 - 0)) * (1 # 1000)
     <= ladder 2 (Vu 0 0 2))%Q.
Proof.
  destruct (fit_ex_same_returns 2 2 (le_S 1 1 (le_n 1))) as [self' Hf].
  pose proof (fit_same_batch_ladder 2 2 X_ex self' Hf
                (le_n 2) ltac:(lia) (le_S 1 1 (le_n 1))) as Hsat.
  exists self'. split; [exact Hf |]. split; [exact Hsat |].
  apply (fitted_utilities_increase 2 2 X_ex X_ex self' (ladder 2) 0 0 0 2
           Hf Hsat); lia.
Defined.

(** X7.  With 252 pieces or more (and at least one cluster) the fitted
    model has no solution, whatever the data: the four utilities
    [u[0][i][L-1]] are each at least [(L-1) * 0.001 > 1/4] by
    monotonicity, and the normalisation constraint fixes their sum
    to 1. *)
Theorem too_many_pieces_infeasible
    (n_pieces n_clusters : nat) (X Y : ndarray Q)
    (self' : TwoClustersMIP.t) :
  TwoClustersMIP.fit (TwoClustersMIP.init n_pieces n_clusters) X Y
  = Ok self' ->
  1 <= n_clusters -> 252 <= n_pieces ->
  ~ exists a : assignment, satisfies a (TwoClustersMIP.m self').
Proof.
  unfold TwoClustersMIP.init. intros Hf HK HL [a Hsat].
  destruct (fit_Ok_inv _ _ _ _ _ _ X Y self' Hf) as (_ & _ & Hm).
  unfold satisfies in Hsat. rewrite Hm in Hsat.
  unfold TwoClustersMIP.fitted_model in Hsat. cbn [m_constrs] in Hsat.
  pose proof (Hsat _ (normalize_in_fit_constrs _ _ _ _ _ _ _ _ 0 HK)) as Hn.
  unfold holds, TwoClustersMIP.normalize_constr in Hn.
  cbn [csense lhs rhs] in Hn.
  rewrite (eval_sum_of_vars a (fun i => Vu 0 i (n_pieces - 1))) in Hn.
  unfold range in Hn. cbn [seq map fold_right eval] in Hn.
  assert (Hlow : forall i, i < 4 ->
                   (251 # 1000 <= a (Vu 0 i (n_pieces - 1)))%Q).
  { intros i Hi.
    pose proof (Hsat _ (zero_in_fit_constrs _ _ _ _ _ _ _ _ 0 i HK Hi)) as Hz.
    unfold holds, TwoClustersMIP.zero_constr in Hz.
    cbn [csense lhs rhs eval] in Hz.
    pose proof (monotone_chain _ _ _ _ _ _ _ _ a 0 i 0 (n_pieces - 1)
                  Hsat HK Hi ltac:(lia)) as Hc.
    cbn [Nat.add] in Hc.
    assert (Hd : (251 <= inject_Z (Z.of_nat (n_pieces - 1)))%Q).
    { change 251%Q with (inject_Z 251). rewrite <- Zle_Qle. lia. }
    assert (Hp : (251 * (1 # 1000)
                  <= inject_Z (Z.of_nat (n_pieces - 1)) * (1 # 1000))%Q).
    { apply Qmult_le_compat_r; [exact Hd | discriminate]. }
    lra. }
  pose proof (Hlow 0 ltac:(lia)). pose proof (Hlow 1 ltac:(lia)).
  pose proof (Hlow 2 ltac:(lia)). pose proof (Hlow 3 ltac:(lia)).
  lra.
Qed.

Lemma too_many_pieces_infeasible_witness :
  exists self',
    TwoClustersMIP.fit (TwoClustersMIP.init 252 2) X_ex Y_ex = Ok self' /\
    ~ exists a : assignment, satisfies a (TwoClustersMIP.m self').
Proof.
  destruct (fit_ex_returns 252 2) as [self' Hf]; [lia |].
  exists self'. split; [exact Hf |].
  apply (too_many_pieces_infeasible 252 2 X_ex Y_ex self' Hf); lia.
Defined.

(** ** [TwoClustersMIP]: edge values of the hyper-parameters *)

Lemma flat_map_nil_range {A : Type} (stop : nat) :
  flat_map (fun _ : nat => @nil A) (range stop) = [].
Proof.
  unfold range. generalize 0.
  induction stop as [|stop IH]; intros start; simpl; [reflexivity | apply IH].
Qed.

(** With no cluster the only constraints are the coverage constraints,
    each one an empty sum that must be at least 1. *)
Lemma fit_constrs_no_cluster (L_ n_ P_ : nat) (eps M_ : Q)
    (ux uy : nat -> nat -> expr) :
  TwoClustersMIP.fit_constrs L_ 0 n_ P_ eps M_ ux uy
  = map (fun _ => mk_constr (Const 0) GE (Const 1)) (range P_).
Proof.
  unfold TwoClustersMIP.fit_constrs.
  change (range 0) with (@nil nat). cbn [flat_map map app].
  rewrite flat_map_nil_range. reflexivity.
Qed.

(** X8.  With [n_clusters = 0] the utility loop reads nothing: [fit]
    returns for arrays of any common width, as soon as there is one row,
    and the model it leaves holds only the 2000 coverage constraints
    [0 >= 1], which no assignment satisfies. *)
Theorem fit_without_cluster
    (n_pieces : nat) (X Y : ndarray Q) :
  shape1 X = shape1 Y -> 0 < shape0 X + shape0 Y ->
  exists self',
    TwoClustersMIP.fit (TwoClustersMIP.init n_pieces 0) X Y = Ok self' /\
    m_constrs (TwoClustersMIP.m self')
    = map (fun _ => mk_constr (Const 0) GE (Const 1)) (range 2000) /\
    forall a : assignment, ~ satisfies a (TwoClustersMIP.m self').
Proof.
  intros Hc Hr. unfold TwoClustersMIP.init.
  destruct (fit_returns n_pieces 0 4 2000 (1 # 1000) 5 X Y Hc Hr)
    as [self' Hf].
  { intros k j Hk. lia. }
  exists self'. split; [exact Hf |].
  destruct (fit_Ok_inv _ _ _ _ _ _ X Y self' Hf) as (_ & _ & Hm).
  assert (Hcs : m_constrs (TwoClustersMIP.m self')
                = map (fun _ => mk_constr (Const 0) GE (Const 1))
                    (range 2000)).
  { rewrite Hm. unfold TwoClustersMIP.fitted_model. cbn [m_constrs].
    apply fit_constrs_no_cluster. }
  split; [exact Hcs |].
  intros a Hsat. unfold satisfies in Hsat. rewrite Hcs in Hsat.
  specialize (Hsat (mk_constr (Const 0) GE (Const 1))).
  assert (Hin : In (mk_constr (Const 0) GE (Const 1))
                  (map (fun _ : nat => mk_constr (Const 0) GE (Const 1))
                     (range 2000))).
  { apply in_map_iff. exists 0. split; [reflexivity |].
    apply In_range. lia. }
  specialize (Hsat Hin). unfold holds in Hsat.
  cbn [csense lhs rhs eval] in Hsat. lra.
Qed.

Lemma fit_without_cluster_witness :
  exists self',
    TwoClustersMIP.fit (TwoClustersMIP.init 2 0) X_short Y_ex = Ok self' /\
    m_constrs (TwoClustersMIP.m self')
    = map (fun _ => mk_constr (Const 0) GE (Const 1)) (range 2000) /\
    forall a : assignment, ~ satisfies a (TwoClustersMIP.m self').
Proof.
  apply (fit_without_cluster 2 X_short Y_ex).
  - reflexivity.
  - cbn [shape0 X_short Y_ex]. lia.
Defined.




(** ** [TwoClustersMIP]: fitting again *)

(** The constraint loops and the objective, from any state in which the
    utilities are stored: the constraints are appended to those the
    model already holds. *)
Lemma fit_tail_from (L_ K_ n_ P_ : nat) (eps M_ : Q)
    (ux uy : nat -> nat -> expr) (self : TwoClustersMIP.t) :
  TwoClustersMIP.frame L_ K_ n_ P_ eps M_ ux uy self ->
  exists self',
    (self ← TwoClustersMIP.fit_bigM self;
     self ← TwoClustersMIP.fit_monotone self;
     self ← TwoClustersMIP.fit_zero self;
     self ← TwoClustersMIP.fit_normalize self;
     self ← TwoClustersMIP.fit_cover self;
     TwoClustersMIP.fit_objective self) = Ok self' /\
    TwoClustersMIP.frame L_ K_ n_ P_ eps M_ ux uy self' /\
    m_vars (TwoClustersMIP.m self') = m_vars (TwoClustersMIP.m self) /\
    m_constrs (TwoClustersMIP.m self')
    = m_constrs (TwoClustersMIP.m self)
      ++ TwoClustersMIP.fit_constrs L_ K_ n_ P_ eps M_ ux uy.
Proof.
  intros Hfr.
  rewrite (fit_bigM_frame L_ K_ n_ P_ eps M_ ux uy self Hfr).
  cbn [mbind result_bind]. set (s1 := TwoClustersMIP.add_constrs _ self).
  assert (H1 : TwoClustersMIP.frame L_ K_ n_ P_ eps M_ ux uy s1)
    by apply frame_add_constrs, Hfr.
  rewrite (fit_monotone_frame L_ K_ n_ P_ eps M_ ux uy s1 H1).
  cbn [mbind result_bind]. set (s2 := TwoClustersMIP.add_constrs _ s1).
  assert (H2 : TwoClustersMIP.frame L_ K_ n_ P_ eps M_ ux uy s2)
    by apply frame_add_constrs, H1.
  rewrite (fit_zero_frame L_ K_ n_ P_ eps M_ ux uy s2 H2).
  cbn [mbind result_bind]. set (s3 := TwoClustersMIP.add_constrs _ s2).
  assert (H3 : TwoClustersMIP.frame L_ K_ n_ P_ eps M_ ux uy s3)
    by apply frame_add_constrs, H2.
  rewrite (fit_normalize_frame L_ K_ n_ P_ eps M_ ux uy s3 H3).
  cbn [mbind result_bind]. set (s4 := TwoClustersMIP.add_constrs _ s3).
  assert (H4 : TwoClustersMIP.frame L_ K_ n_ P_ eps M_ ux uy s4)
    by apply frame_add_constrs, H3.
  rewrite (fit_cover_frame L_ K_ n_ P_ eps M_ ux uy s4 H4).
  cbn [mbind result_bind]. set (s5 := TwoClustersMIP.add_constrs _ s4).
  assert (H5 : TwoClustersMIP.frame L_ K_ n_ P_ eps M_ ux uy s5)
    by apply frame_add_constrs, H4.
  rewrite (fit_objective_frame L_ K_ n_ P_ eps M_ ux uy s5 H5).
  eexists. split; [reflexivity |]. split; [exact H5 |].
  unfold s5, s4, s3, s2, s1. rewrite !add_constrs_app.
  split; reflexivity.
Qed.

(** [fit] on an object that may have been fitted before. *)
Lemma fit_Ok_from (L_ K_ n_ P_ : nat) (eps M_ : Q) (X Y : ndarray Q)
    (self self' : TwoClustersMIP.t) :
  TwoClustersMIP.instantiated L_ K_ n_ P_ eps M_ self ->
  TwoClustersMIP.fit self X Y = Ok self' ->
  shape1 X = shape1 Y /\ 0 < shape0 X + shape0 Y /\
  (forall k j, k < K_ -> j < P_ ->
     TwoClustersMIP.stored (TwoClustersMIP.instantiate L_ K_ n_ P_ eps M_)
       (pooled qmin X Y) (pooled qmax X Y) X Y self' k j) /\
  m_vars (TwoClustersMIP.m self') = m_vars (TwoClustersMIP.m self) /\
  m_constrs (TwoClustersMIP.m self')
  = m_constrs (TwoClustersMIP.m self)
    ++ TwoClustersMIP.fit_constrs L_ K_ n_ P_ eps M_
         (TwoClustersMIP.utility (TwoClustersMIP.instantiate L_ K_ n_ P_ eps M_)
            (pooled qmin X Y) (pooled qmax X Y) X)
         (TwoClustersMIP.utility (TwoClustersMIP.instantiate L_ K_ n_ P_ eps M_)
            (pooled qmin X Y) (pooled qmax X Y) Y).
Proof.
  intros Hs Hf. destruct (fit_Ok_pooling X Y self self' Hf) as [Hc Hr].
  split; [exact Hc |]. split; [exact Hr |].
  rewrite (fit_after_pooling X Y self Hc Hr) in Hf.
  apply bind_Ok in Hf as (s1 & Hu & Hf).
  destruct (fit_utilities_Ok L_ K_ n_ P_ eps M_ _ _ X Y self s1 Hs Hu)
    as (Hi1 & Hm1 & Hst).
  set (self0 := TwoClustersMIP.instantiate L_ K_ n_ P_ eps M_) in *.
  assert (Hfr : TwoClustersMIP.frame L_ K_ n_ P_ eps M_
                  (TwoClustersMIP.utility self0 (pooled qmin X Y)
                     (pooled qmax X Y) X)
                  (TwoClustersMIP.utility self0 (pooled qmin X Y)
                     (pooled qmax X Y) Y) s1).
  { split; [exact Hi1 |]. intros k j Hk Hj.
    destruct (Hst k j Hk Hj) as (H0 & H1 & _). split; assumption. }
  destruct (fit_tail_from L_ K_ n_ P_ eps M_ _ _ s1 Hfr)
    as (s' & Hs' & Hfr' & Hv' & Hc').
  rewrite Hs' in Hf. injection Hf as <-.
  rewrite Hv', Hc', Hm1. split; [| split; reflexivity].
  intros k j Hk Hj. destruct (Hst k j Hk Hj) as (_ & _ & Hx & Hy).
  destruct (proj2 Hfr' k j Hk Hj) as [H0 H1].
  repeat split; assumption.
Qed.

Lemma fit_returns_from (L_ K_ n_ P_ : nat) (eps M_ : Q) (X Y : ndarray Q)
    (self : TwoClustersMIP.t) :
  TwoClustersMIP.instantiated L_ K_ n_ P_ eps M_ self ->
  shape1 X = shape1 Y -> 0 < shape0 X + shape0 Y ->
  (forall k j, k < K_ -> j < P_ ->
     (exists e, TwoClustersMIP.sum_u_i
                  (TwoClustersMIP.instantiate L_ K_ n_ P_ eps M_)
                  (pooled qmin X Y) (pooled qmax X Y) j X k = Ok e) /\
     (exists e, TwoClustersMIP.sum_u_i
                  (TwoClustersMIP.instantiate L_ K_ n_ P_ eps M_)
                  (pooled qmin X Y) (pooled qmax X Y) j Y k = Ok e)) ->
  exists self', TwoClustersMIP.fit self X Y = Ok self'.
Proof.
  intros Hs Hc Hr Hall. rewrite (fit_after_pooling X Y self Hc Hr).
  destruct (fit_utilities_total L_ K_ n_ P_ eps M_ _ _ X Y self Hs Hall)
    as (s1 & Hu).
  rewrite Hu. cbn [mbind result_bind].
  destruct (fit_utilities_Ok L_ K_ n_ P_ eps M_ _ _ X Y self s1 Hs Hu)
    as (Hi1 & _ & Hst).
  destruct (fit_tail_from L_ K_ n_ P_ eps M_
              (TwoClustersMIP.utility
                 (TwoClustersMIP.instantiate L_ K_ n_ P_ eps M_)
                 (pooled qmin X Y) (pooled qmax X Y) X)
              (TwoClustersMIP.utility
                 (TwoClustersMIP.instantiate L_ K_ n_ P_ eps M_)
                 (pooled qmin X Y) (pooled qmax X Y) Y)
              s1) as (s' & Hs' & _).
  { split; [exact Hi1 |]. intros k j Hk Hj.
    destruct (Hst k j Hk Hj) as (H0 & H1 & _). split; assumption. }
  exists s'. exact Hs'.
Qed.

(** X10.  [fit] never resets the Gurobi model: a second [fit] on the
    same object keeps every constraint of the first and appends the
    constraints a fresh object would get from the new data; the
    variables stay those of the constructor. *)
Theorem refit_appends_constraints
    (n_pieces n_clusters : nat) (X Y X' Y' : ndarray Q)
    (s1 s2 : TwoClustersMIP.t) :
  TwoClustersMIP.fit (TwoClustersMIP.init n_pieces n_clusters) X Y
  = Ok s1 ->
  TwoClustersMIP.fit s1 X' Y' = Ok s2 ->
  exists s',
    TwoClustersMIP.fit (TwoClustersMIP.init n_pieces n_clusters) X' Y'
    = Ok s' /\
    m_constrs (TwoClustersMIP.m s2)
    = m_constrs (TwoClustersMIP.m s1) ++ m_constrs (TwoClustersMIP.m s') /\
    m_vars (TwoClustersMIP.m s2)
    = m_vars (TwoClustersMIP.m (TwoClustersMIP.init n_pieces n_clusters)).
Proof.
  unfold TwoClustersMIP.init. intros Hf1 Hf2.
  destruct (fit_Ok_inv _ _ _ _ _ _ X Y s1 Hf1) as (Hi1 & _ & Hm1).
  destruct (fit_Ok_from _ _ _ _ _ _ X' Y' s1 s2 Hi1 Hf2)
    as (Hc & Hr & Hst & Hv & Hcs).
  destruct (fit_returns n_pieces n_clusters 4 2000 (1 # 1000) 5 X' Y' Hc Hr)
    as [s' Hf'].
  { intros k j Hk Hj. destruct (Hst k j Hk Hj) as (_ & _ & Hx & Hy).
    split; eexists; eassumption. }
  exists s'. split; [exact Hf' |].
  destruct (fit_Ok_inv _ _ _ _ _ _ X' Y' s' Hf') as (_ & _ & Hm').
  rewrite Hcs, Hv, Hm', Hm1. split; reflexivity.
Qed.

Lemma refit_appends_constraints_witness :
  exists s1 s2,
    TwoClustersMIP.fit (TwoClustersMIP.init 2 2) X_ex Y_ex = Ok s1 /\
    TwoClustersMIP.fit s1 X_ex Y_ex = Ok s2 /\
    m_constrs (TwoClustersMIP.m s2)
    = m_constrs (TwoClustersMIP.m s1) ++ m_constrs (TwoClustersMIP.m s1).
Proof.
  destruct (fit_ex_returns 2 2 (le_S 1 1 (le_n 1))) as [s1 Hf1].
  assert (Had : TwoClustersMIP.adequate 2 4 2000 X_ex Y_ex)
    by exact (adequate_ex 2 (le_S 1 1 (le_n 1))).
  destruct (fit_returns_from 2 2 4 2000 (1 # 1000) 5 X_ex Y_ex s1)
    as [s2 Hf2].
  - exact (proj1 (fit_Ok_inv _ _ _ _ _ _ X_ex Y_ex s1 Hf1)).
  - reflexivity.
  - cbn [shape0 X_ex Y_ex]. lia.
  - intros k j Hk Hj.
    destruct (sum_u_i_adequate 2 2 4 2000 (1 # 1000) 5 X_ex Y_ex k j Had Hk Hj)
      as [Hx Hy].
    split; eexists; eassumption.
  - exists s1, s2. split; [exact Hf1 |]. split; [exact Hf2 |].
    destruct (refit_appends_constraints 2 2 X_ex Y_ex X_ex Y_ex s1 s2 Hf1 Hf2)
      as (s' & Hf' & Hcs & _).
    rewrite Hf1 in Hf'. injection Hf' as <-. exact Hcs.
Defined.

(** ** [BaseModel]: preferences and clusters *)

Lemma broadcast_dim_comm (a b : nat) : broadcast_dim a b = broadcast_dim b a.
Proof.
  unfold broadcast_dim.
  destruct (Nat.eqb_spec a b) as [->|Hab].
  - rewrite Nat.eqb_refl. reflexivity.
  - destruct (Nat.eqb_spec b a) as [Hba|_]; [congruence |].
    destruct (Nat.eqb_spec a 1) as [Ha|Ha];
      destruct (Nat.eqb_spec b 1) as [Hb|Hb];
      try reflexivity; congruence.
Qed.

(** What [np_sub] returns, when it returns. *)
Lemma np_sub_Ok (A B d : ndarray Q) :
  np_sub A B = Ok d ->
  broadcast_dim (shape0 A) (shape0 B) = Ok (shape0 d) /\
  broadcast_dim (shape1 A) (shape1 B) = Ok (shape1 d) /\
  forall j i,
    item d j i
    = (item A (bidx (shape0 A) j) (bidx (shape1 A) i)
       - item B (bidx (shape0 B) j) (bidx (shape1 B) i))%Q.
Proof.
  unfold np_sub. intros Hd.
  apply bind_Ok in Hd as (r & Hr & Hd).
  apply bind_Ok in Hd as (c & Hc & Hd).
  injection Hd as <-. cbn [shape0 shape1 item].
  split; [exact Hr |]. split; [exact Hc |]. reflexivity.
Qed.

(** X13.  For any model, [predict_preference] returns a matrix of 0s
    and 1s, and it is asymmetric: where cluster [k] prefers [X[j]] to
    [Y[j]], the call with the batches swapped returns 0. *)
Theorem predict_preference_asymmetric
    {T : Type} `{BaseModel T} (self : T) (X Y : ndarray Q)
    (R R' : ndarray Z) :
  predict_preference self X Y = Ok R ->
  predict_preference self Y X = Ok R' ->
  shape0 R' = shape0 R /\ shape1 R' = shape1 R /\
  forall j k,
    (item R j k = 0 \/ item R j k = 1)%Z /\
    ~ (item R j k = 1 /\ item R' j k = 1)%Z.
Proof.
  unfold predict_preference. intros HR HR'.
  apply bind_Ok in HR as (X_u & HX & HR).
  apply bind_Ok in HR as (Y_u & HY & HR).
  apply bind_Ok in HR as (d & Hd & HR). injection HR as <-.
  rewrite HY, HX in HR'. cbn [mbind result_bind] in HR'.
  apply bind_Ok in HR' as (d' & Hd' & HR'). injection HR' as <-.
  destruct (np_sub_Ok _ _ _ Hd) as (Hr & Hc & Hi).
  destruct (np_sub_Ok _ _ _ Hd') as (Hr' & Hc' & Hi').
  rewrite broadcast_dim_comm in Hr'. rewrite broadcast_dim_comm in Hc'.
  cbn [shape0 shape1 np_gt0_int item].
  split; [congruence |]. split; [congruence |].
  intros j k. rewrite Hi, Hi'.
  destruct (Qlt_le_dec 0 _) as [Hp|Hn]; destruct (Qlt_le_dec 0 _) as [Hp'|Hn'].
  - exfalso. lra.
  - split; [right; reflexivity |]. intros [_ Hone]. discriminate Hone.
  - split; [left; reflexivity |]. intros [Hone _]. discriminate Hone.
  - split; [left; reflexivity |]. intros [Hone _]. discriminate Hone.
Qed.

Lemma predict_preference_asymmetric_witness :
  exists R R' : ndarray Z,
    predict_preference feature_utilities X_pair Y_pair = Ok R /\
    predict_preference feature_utilities Y_pair X_pair = Ok R' /\
    shape0 R' = shape0 R /\ shape1 R' = shape1 R /\
    forall j k,
      (item R j k = 0 \/ item R j k = 1)%Z /\
      ~ (item R j k = 1 /\ item R' j k = 1)%Z.
Proof.
  eexists _, _. split; [reflexivity |]. split; [reflexivity |].
  apply (predict_preference_asymmetric feature_utilities X_pair Y_pair);
    reflexivity.
Defined.

(** X14.  For any model, the cluster [predict_cluster] returns for a
    sample prefers [X] to [Y] whenever some cluster does: if
    [predict_preference] holds a 1 in the row of the sample, it holds a
    1 at the returned cluster. *)
Theorem predict_cluster_prefers_when_any
    {T : Type} `{BaseModel T} (self : T) (X Y : ndarray Q)
    (r : list nat) (R : ndarray Z) (j c : nat) :
  predict_cluster self X Y = Ok r ->
  predict_preference self X Y = Ok R ->
  r !! j = Some c ->
  j < shape0 R /\ c < shape1 R /\
  ((exists k, k < shape1 R /\ item R j k = 1%Z) -> item R j c = 1%Z).
Proof.
  unfold predict_cluster, predict_preference. intros Hr HR Hj.
  apply bind_Ok in HR as (X_u & HX & HR).
  apply bind_Ok in HR as (Y_u & HY & HR).
  apply bind_Ok in HR as (d & Hd & HR). injection HR as <-.
  rewrite HX, HY in Hr. cbn [mbind result_bind] in Hr.
  rewrite Hd in Hr. cbn [mbind result_bind] in Hr.
  cbn [shape0 shape1 np_gt0_int item].
  unfold np_argmax1 in Hr.
  destruct (Nat.eqb_spec (shape1 d) 0) as [H0|Hcols]; [discriminate |].
  destruct (comprehension_lookup _ _ _ Hr) as [Hlen Hall].
  assert (Hjlt : j < shape0 d).
  { apply lookup_lt_Some in Hj. rewrite Hlen in Hj.
    unfold range in Hj. rewrite length_seq in Hj. exact Hj. }
  destruct (Hall j j) as (c' & Hc' & Harg).
  { unfold range. apply lookup_seq_lt. exact Hjlt. }
  rewrite Hj in Hc'. injection Hc' as <-.
  assert (Hrow : forall k, k < shape1 d ->
                   row d j !! k = Some (item d j k)).
  { intros k Hk. unfold row.
    apply (lookup_map_range (fun i => item d j i)). exact Hk. }
  assert (Hrowlen : length (row d j) = shape1 d).
  { unfold row, range. rewrite length_map, length_seq. reflexivity. }
  destruct (row d j) as [|y ys] eqn:Hrw; [simpl in Hrowlen; lia |].
  destruct (argmax_row_spec y ys) as (c' & vr & Hc' & Hvr & Hmax & _).
  rewrite Harg in Hc'. injection Hc' as <-.
  assert (Hclt : c < shape1 d).
  { apply lookup_lt_Some in Hvr. rewrite Hrowlen in Hvr. exact Hvr. }
  rewrite (Hrow c Hclt) in Hvr. injection Hvr as <-.
  split; [exact Hjlt |]. split; [exact Hclt |].
  intros (k & Hk & Hone).
  pose proof (Hmax k (item d j k) (Hrow k Hk)) as Hle.
  destruct (Qlt_le_dec 0 (item d j k)) as [Hpos|_]; [| discriminate Hone].
  destruct (Qlt_le_dec 0 (item d j c)) as [_|Hneg]; [reflexivity |].
  exfalso. lra.
Qed.

Lemma predict_cluster_prefers_when_any_witness :
  exists (r : list nat) (R : ndarray Z),
    predict_cluster feature_utilities X_pair Y_pair = Ok r /\
    predict_preference feature_utilities X_pair Y_pair = Ok R /\
    r !! 0 = Some 0 /\
    0 < shape0 R /\ 0 < shape1 R /\
    ((exists k, k < shape1 R /\ item R 0 k = 1%Z) -> item R 0 0 = 1%Z).
Proof.
  eexists _, _. split; [vm_compute; reflexivity |].
  split; [reflexivity |]. split; [reflexivity |].
  apply (predict_cluster_prefers_when_any feature_utilities X_pair Y_pair
           [0] _ 0 0).
  - vm_compute. reflexivity.
  - reflexivity.
  - reflexivity.
Defined.

(** X15.  For any model, batches whose utility matrices have different
    numbers of rows, neither of them 1, make [predict_preference] and
    [predict_cluster] fail with the [ValueError] of the subtraction. *)
Theorem predict_rejects_unequal_batches
    {T : Type} `{BaseModel T} (self : T) (X Y X_u Y_u : ndarray Q) :
  predict_utility self X = Ok X_u ->
  predict_utility self Y = Ok Y_u ->
  shape0 X_u <> shape0 Y_u -> shape0 X_u <> 1 -> shape0 Y_u <> 1 ->
  predict_preference self X Y = Raise ValueError /\
  predict_cluster self X Y = Raise ValueError.
Proof.
  intros HX HY Hne HX1 HY1.
  unfold predict_preference, predict_cluster. rewrite HX, HY.
  cbn [mbind result_bind]. unfold np_sub, broadcast_dim.
  destruct (Nat.eqb_spec (shape0 X_u) (shape0 Y_u)); [contradiction |].
  destruct (Nat.eqb_spec (shape0 X_u) 1); [contradiction |].
  destruct (Nat.eqb_spec (shape0 Y_u) 1); [contradiction |].
  split; reflexivity.
Qed.

Lemma predict_rejects_unequal_batches_witness :
  predict_preference feature_utilities X_ex Y_long = Raise ValueError /\
  predict_cluster feature_utilities X_ex Y_long = Raise ValueError.
Proof.
  apply (predict_rejects_unequal_batches feature_utilities X_ex Y_long
           (mk_ndarray 2000 2 (item X_ex)) (mk_ndarray 2001 2 (item Y_long))).
  - reflexivity.
  - reflexivity.
  - cbn [shape0]. lia.
  - cbn [shape0]. lia.
  - cbn [shape0]. lia.
Defined.

Lemma predict_utility_fitted (L_ K_ n_ P_ : nat) (eps M_ : Q)
    (X Y X' : ndarray Q) (self' : TwoClustersMIP.t) :
  TwoClustersMIP.fit (TwoClustersMIP.instantiate L_ K_ n_ P_ eps M_) X Y
  = Ok self' ->
  TwoClustersMIP.predict_utility self' X' = Ok (np_zeros (shape0 X') K_).
Proof.
  intros Hf.
  destruct (fit_Ok_inv _ _ _ _ _ _ X Y self' Hf) as (Hi & Hst & _).
  apply (predict_utility_stored L_ K_ n_ P_ eps M_
           (TwoClustersMIP.utility
              (TwoClustersMIP.instantiate L_ K_ n_ P_ eps M_)
              (pooled qmin X Y) (pooled qmax X Y) X)
           (TwoClustersMIP.utility
              (TwoClustersMIP.instantiate L_ K_ n_ P_ eps M_)
              (pooled qmin X Y) (pooled qmax X Y) Y) self' X').
  split; [exact Hi |]. intros k j Hk Hj.
  destruct (Hst k j Hk Hj) as (H0 & H1 & _). split; assumption.
Qed.

(** X16.  A [TwoClustersMIP] built with no cluster and fitted gives
    utility matrices without columns: [predict_cluster] then fails with
    the [ValueError] of an argmax over an empty row. *)
Theorem predict_cluster_without_cluster
    (n_pieces : nat) (X Y X' Y' : ndarray Q) (self' : TwoClustersMIP.t) :
  TwoClustersMIP.fit (TwoClustersMIP.init n_pieces 0) X Y = Ok self' ->
  shape0 X' = shape0 Y' ->
  TwoClustersMIP.predict_utility self' X' = Ok (np_zeros (shape0 X') 0) /\
  predict_cluster self' X' Y' = Raise ValueError.
Proof.
  intros Hf Hrows. unfold TwoClustersMIP.init in Hf.
  pose proof (fun X' => predict_utility_fitted n_pieces 0 4 2000 (1 # 1000) 5
                          X Y X' self' Hf) as Hz.
  split; [apply Hz |].
  unfold predict_cluster.
  cbn [predict_utility TwoClustersMIP.TwoClustersMIP_BaseModel].
  rewrite !Hz. cbn [mbind result_bind]. rewrite <- Hrows.
  unfold np_sub. cbn [shape0 shape1 np_zeros].
  rewrite !broadcast_dim_same. reflexivity.
Qed.

Lemma predict_cluster_without_cluster_witness :
  exists self',
    TwoClustersMIP.fit (TwoClustersMIP.init 2 0) X_ex Y_ex = Ok self' /\
    TwoClustersMIP.predict_utility self' X_ex = Ok (np_zeros 2000 0) /\
    predict_cluster self' X_ex Y_ex = Raise ValueError.
Proof.
  destruct (fit_ex_returns 2 0 (le_S 1 1 (le_n 1))) as [self' Hf].
  exists self'. split; [exact Hf |].
  apply (predict_cluster_without_cluster 2 X_ex Y_ex X_ex Y_ex self' Hf).
  reflexivity.
Defined.

(** ** [RandomExampleModel] *)

Lemma np_dot_Ok (X : ndarray Q) (w : list Q) :
  shape1 X = length w ->
  np_dot X w = Ok (map (fun j => dot (row X j) w) (range (shape0 X))).
Proof.
  intros Hw. unfold np_dot. rewrite Hw, Nat.eqb_refl. reflexivity.
Qed.

Lemma np_dot_mismatch (X : ndarray Q) (w : list Q) :
  shape1 X <> length w -> np_dot X w = Raise ValueError.
Proof.
  intros Hw. unfold np_dot.
  destruct (Nat.eqb_spec (shape1 X) (length w)); [contradiction |].
  reflexivity.
Qed.

(** X17.  A [RandomExampleModel] that holds two weight vectors as long
    as the rows of [X] returns the matrix of shape [(n_samples, 2)]
    whose column [k] holds the dot products of the rows with weight
    vector [k]; when the width of [X] differs from the length of the
    first weight vector, [predict_utility] fails with [ValueError]. *)
Theorem random_predict_utility
    (self : RandomExampleModel.t) (X : ndarray Q) (w0 w1 : list Q) :
  RandomExampleModel.weights self = [w0; w1] ->
  (shape1 X = length w0 -> shape1 X = length w1 ->
   exists U,
     RandomExampleModel.predict_utility self X = Ok U /\
     shape0 U = shape0 X /\ shape1 U = 2 /\
     forall j, j < shape0 X ->
       item U j 0 = dot (row X j) w0 /\ item U j 1 = dot (row X j) w1) /\
  (shape1 X <> length w0 ->
   RandomExampleModel.predict_utility self X = Raise ValueError).
Proof.
  intros Hw. unfold RandomExampleModel.predict_utility. rewrite Hw.
  change (py_getitem [w0; w1] 0) with (Ok w0).
  change (py_getitem [w0; w1] 1) with (Ok w1).
  cbn [mbind result_bind]. split.
  - intros H0 H1. rewrite (np_dot_Ok X w0 H0), (np_dot_Ok X w1 H1).
    cbn [mbind result_bind]. unfold np_stack1.
    rewrite !length_map_range, Nat.eqb_refl.
    eexists. split; [reflexivity |]. cbn [shape0 shape1 item].
    split; [reflexivity |]. split; [reflexivity |].
    intros j Hj.
    rewrite !(lookup_map_range (fun j => dot (row X j) _)) by exact Hj.
    split; reflexivity.
  - intros Hne. rewrite (np_dot_mismatch X w0 Hne). reflexivity.
Qed.

Lemma random_predict_utility_witness :
  exists U,
    RandomExampleModel.predict_utility
      (RandomExampleModel.mk 444 [[1 # 2; 1 # 2]; [1 # 4; 3 # 4]]%Q)
      X_pair = Ok U /\
    shape0 U = shape0 X_pair /\ shape1 U = 2 /\
    forall j, j < shape0 X_pair ->
      item U j 0 = dot (row X_pair j) [1 # 2; 1 # 2]%Q /\
      item U j 1 = dot (row X_pair j) [1 # 4; 3 # 4]%Q.
Proof.
  apply (proj1 (random_predict_utility
                  (RandomExampleModel.mk 444
                     [[1 # 2; 1 # 2]; [1 # 4; 3 # 4]]%Q)
                  X_pair [1 # 2; 1 # 2]%Q [1 # 4; 3 # 4]%Q eq_refl));
    reflexivity.
Defined.

(** X18.  A [RandomExampleModel] that was never fitted holds an empty
    list of weights: [predict_utility] raises [IndexError] for every
    input, and so do [predict_preference] and [predict_cluster]. *)
Theorem random_model_before_fit (X Y : ndarray Q) :
  RandomExampleModel.predict_utility RandomExampleModel.init X
  = Raise IndexError /\
  predict_preference RandomExampleModel.init X Y = Raise IndexError /\
  predict_cluster RandomExampleModel.init X Y = Raise IndexError.
Proof. repeat split. Qed.

Lemma broadcast_dim_one (a : nat) : broadcast_dim a 1 = Ok a.
Proof.
  unfold broadcast_dim.
  destruct (Nat.eqb_spec a 1) as [->|Hne]; reflexivity.
Qed.

(** X19.  For any model, a reference batch [Y] with a single row is
    compared with every row of [X]: when the utility matrix of [Y] has
    one row and that of [X] has [n], [predict_preference] returns [n]
    rows, and entry [(j, k)] is 1 exactly when
    [X_u[j, k] > Y_u[0, k]]. *)
Theorem predict_preference_broadcasts_single_row
    {T : Type} `{BaseModel T} (self : T) (X Y X_u Y_u : ndarray Q) :
  predict_utility self X = Ok X_u ->
  predict_utility self Y = Ok Y_u ->
  shape0 Y_u = 1 -> shape1 X_u = shape1 Y_u ->
  exists R,
    predict_preference self X Y = Ok R /\
    shape0 R = shape0 X_u /\ shape1 R = shape1 X_u /\
    forall j k, j < shape0 X_u -> k < shape1 X_u ->
      (item R j k = 1%Z <-> (item Y_u 0 k < item X_u j k)%Q).
Proof.
  intros HX HY HY1 Hcols. unfold predict_preference.
  rewrite HX, HY. cbn [mbind result_bind]. unfold np_sub.
  rewrite <- Hcols, broadcast_dim_same, HY1, broadcast_dim_one.
  cbn [mbind result_bind].
  eexists. split; [reflexivity |]. cbn [shape0 shape1 np_gt0_int item].
  split; [reflexivity |]. split; [reflexivity |].
  intros j k Hj Hk. rewrite !bidx_inside by assumption.
  change (bidx 1 j) with 0.
  destruct (Qlt_le_dec 0 _) as [Hp|Hn]; split; intros Hq;
    try reflexivity; try discriminate; lra.
Qed.

Lemma predict_preference_broadcasts_single_row_witness :
  exists R,
    predict_preference feature_utilities X_ex Y_pair = Ok R /\
    shape0 R = 2000 /\ shape1 R = 2 /\
    forall j k, j < 2000 -> k < 2 ->
      (item R j k = 1%Z <-> (item Y_pair 0 k < item X_ex j k)%Q).
Proof.
  apply (predict_preference_broadcasts_single_row feature_utilities
           X_ex Y_pair (mk_ndarray 2000 2 (item X_ex))
           (mk_ndarray 1 2 (item Y_pair))); reflexivity.
Defined.

(** ** [TwoClustersMIP]: which numbers of pieces leave a solvable model *)

(** X20.  A batch fitted against itself leaves a model with a solution
    of cost 0 when [2 <= n_pieces <= 250] and there is a cluster: equal
    utility steps up to 1/4 at the breakpoint [L - 1], no slack and
    every indicator at 1 respect the bounds and the type of every
    declared variable, satisfy every constraint and give the objective
    the value 0.  Each step is at least 1/996: the monotonicity
    constraints hold with room to spare, also for the double [0.001],
    which is a little above 1/1000. *)
Theorem fit_same_batch_feasible
    (n_pieces n_clusters : nat) (X : ndarray Q) (self' : TwoClustersMIP.t) :
  TwoClustersMIP.fit (TwoClustersMIP.init n_pieces n_clusters) X X
  = Ok self' ->
  2 <= n_pieces -> n_pieces <= 250 -> 1 <= n_clusters ->
  exists (a : assignment) (obj : expr),
    (forall d, In d (m_vars (TwoClustersMIP.m self')) -> within_bounds a d) /\
    satisfies a (TwoClustersMIP.m self') /\
    (forall k i l, (1 # 996 <= a (Vu k i (l + 1)) - a (Vu k i l))%Q) /\
    m_objective (TwoClustersMIP.m self') = Some obj /\
    (eval a obj == 0)%Q.
Proof.
  intros Hf HL Hu HK.
  pose proof (fit_same_batch_ladder _ _ _ _ Hf HL Hu HK) as Hsat.
  unfold TwoClustersMIP.init in Hf.
  destruct (fit_Ok_inv _ _ _ _ _ _ X X self' Hf) as (_ & _ & Hm).
  exists (ladder n_pieces). eexists.
  split; [| split; [exact Hsat | split; [| split]]].
  - intros d Hd. rewrite Hm in Hd.
    unfold TwoClustersMIP.fitted_model in Hd. cbn [m_vars] in Hd.
    apply (ladder_within_bounds _ _ _ _ _ _ d HL Hd).
  - intros k i l. rewrite ladder_step. apply ladder_step_ge; assumption.
  - rewrite Hm. unfold TwoClustersMIP.fitted_model. cbn [m_objective].
    reflexivity.
  - rewrite eval_quicksum, map_map. apply sum_all_zero.
    intros j _. unfold TwoClustersMIP.slack_expr. cbn [eval ladder]. ring.
Qed.

Lemma fit_same_batch_feasible_witness :
  exists self',
    TwoClustersMIP.fit (TwoClustersMIP.init 2 2) X_ex X_ex = Ok self' /\
    exists (a : assignment) (obj : expr),
      (forall d, In d (m_vars (TwoClustersMIP.m self')) ->
                 within_bounds a d) /\
      satisfies a (TwoClustersMIP.m self') /\
      (forall k i l, (1 # 996 <= a (Vu k i (l + 1)) - a (Vu k i l))%Q) /\
      m_objective (TwoClustersMIP.m self') = Some obj /\
      (eval a obj == 0)%Q.
Proof.
  destruct (fit_ex_same_returns 2 2 (le_S 1 1 (le_n 1))) as [self' Hf].
  exists self'. split; [exact Hf |].
  apply (fit_same_batch_feasible 2 2 X_ex self' Hf); lia.
Defined.

(** X21.  With [n_pieces = 1] and at least one cluster the fitted model
    has no solution, whatever the data: the normalisation constraint
    reads the breakpoint [L - 1 = 0] and asks the four [u[0][i][0]] to
    sum to 1, while the zero-point constraints fix each of them to 0. *)
Theorem single_piece_infeasible
    (n_clusters : nat) (X Y : ndarray Q) (self' : TwoClustersMIP.t) :
  TwoClustersMIP.fit (TwoClustersMIP.init 1 n_clusters) X Y = Ok self' ->
  1 <= n_clusters ->
  ~ exists a : assignment, satisfies a (TwoClustersMIP.m self').
Proof.
  unfold TwoClustersMIP.init. intros Hf HK [a Hsat].
  destruct (fit_Ok_inv _ _ _ _ _ _ X Y self' Hf) as (_ & _ & Hm).
  unfold satisfies in Hsat. rewrite Hm in Hsat.
  unfold TwoClustersMIP.fitted_model in Hsat. cbn [m_constrs] in Hsat.
  pose proof (Hsat _ (normalize_in_fit_constrs _ _ _ _ _ _ _ _ 0 HK)) as Hn.
  unfold holds, TwoClustersMIP.normalize_constr in Hn.
  cbn [csense lhs rhs] in Hn.
  rewrite (eval_sum_of_vars a (fun i => Vu 0 i (1 - 1))) in Hn.
  unfold range in Hn. cbn [seq map fold_right eval Nat.sub] in Hn.
  assert (Hz : forall i, i < 4 -> (a (Vu 0 i 0) == 0)%Q).
  { intros i Hi.
    exact (Hsat _ (zero_in_fit_constrs _ _ _ _ _ _ _ _ 0 i HK Hi)). }
  pose proof (Hz 0 ltac:(lia)). pose proof (Hz 1 ltac:(lia)).
  pose proof (Hz 2 ltac:(lia)). pose proof (Hz 3 ltac:(lia)).
  lra.
Qed.

Lemma single_piece_infeasible_witness :
  exists self',
    TwoClustersMIP.fit (TwoClustersMIP.init 1 2) X_ex Y_ex = Ok self' /\
    ~ exists a : assignment, satisfies a (TwoClustersMIP.m self').
Proof.
  destruct (fit_ex_returns 1 2 (le_n 1)) as [self' Hf].
  exists self'. split; [exact Hf |].
  apply (single_piece_infeasible 2 X_ex Y_ex self' Hf); lia.
Defined.
